(** * Soklin wallet-monitoring pipeline: shallow embedding and verification

  The development follows the backend services of the repository:

  - [Codec]      : [Validators.isValidEthereumAddress] together with the
                   address checksum of the [ethers] library it calls;
  - [Hub]        : [WebSocketService] (subscriptions, rate limiting, fan-out);
  - [Features]   : [FeatureProcessor] (per-wallet history, feature vector);
  - [Scoring]    : [ScoringService] (model / rule-based fallback, risk level);
  - [Registry]   : [ContractService.flagWallet] and its validation;
  - [Coordinator]: [WalletMonitorService] (monitors, event buffer, flagging);
  - [Validators], [Helpers], [FeatureOps], [ScoringOps], [HubMaintenance],
    [RegistryOps]: the remaining functions of the same classes (request
    validation, retrying, normalization, blacklist, housekeeping, the
    other contract writes);
  - [WalletFlagger]: the contract [WalletFlagger.sol] behind the registry.

  JavaScript numbers are idealised as exact rationals ([Q]); integer-valued
  quantities (timestamps in the hub, counters, lengths) are [Z] or [nat].
  [NaN] and the infinities are only represented where a validator inspects
  them ([Registry.jsnum]) and where the output of the model is turned into
  a score ([ScoringNumbers]). *)

From Stdlib Require Import String Ascii List ZArith NArith QArith Qround Qminmax Qabs.
From Stdlib Require Import DecimalString Lia Lqa Bool.
From stdpp Require Import gmap strings list fin_maps.
From Stdlib Require HexadecimalString Sorted Qpower.

Local Open Scope string_scope.

(* ===================================================================== *)
(** ** Address codec *)
(* ===================================================================== *)

Module Keccak.
Local Open Scope N_scope.

(** Keccak-f[1600] on 25 lanes of 64 bits, lane (x, y) at index x + 5 y;
    this is the hash behind [ethers.getAddress]. *)

Definition mask64 : N := 0xFFFFFFFFFFFFFFFF.

Definition rotl64 (x n : N) : N :=
  N.land (N.lor (N.shiftl x n) (N.shiftr x (64 - n))) mask64.

Definition lane (st : list N) (i : N) : N := nth (N.to_nat i) st 0.

Definition idx : list N :=
  [0; 1; 2; 3; 4; 5; 6; 7; 8; 9; 10; 11; 12; 13; 14; 15; 16; 17; 18; 19;
   20; 21; 22; 23; 24].

Definition rotation_offsets : list N :=
  [ 0;  1; 62; 28; 27;
   36; 44;  6; 55; 20;
    3; 10; 43; 25; 39;
   41; 45; 15; 21;  8;
   18;  2; 61; 56; 14].

Definition round_constants : list N :=
  [0x0000000000000001; 0x0000000000008082; 0x800000000000808A;
   0x8000000080008000; 0x000000000000808B; 0x0000000080000001;
   0x8000000080008081; 0x8000000000008009; 0x000000000000008A;
   0x0000000000000088; 0x0000000080008009; 0x000000008000000A;
   0x000000008000808B; 0x800000000000008B; 0x8000000000008089;
   0x8000000000008003; 0x8000000000008002; 0x8000000000000080;
   0x000000000000800A; 0x800000008000000A; 0x8000000080008081;
   0x8000000000008080; 0x0000000080000001; 0x8000000080008008].

Definition theta (a : list N) : list N :=
  let c x := N.lxor (lane a x) (N.lxor (lane a (x + 5)) (N.lxor (lane a (x + 10))
               (N.lxor (lane a (x + 15)) (lane a (x + 20))))) in
  let d x := N.lxor (c ((x + 4) mod 5)) (rotl64 (c ((x + 1) mod 5)) 1) in
  map (fun i => N.lxor (lane a i) (d (i mod 5))) idx.

Definition rho_pi (a : list N) : list N :=
  map (fun j =>
         let X := j mod 5 in
         let Y := j / 5 in
         let src := (X + 3 * Y) mod 5 + 5 * X in
         rotl64 (lane a src) (lane rotation_offsets src)) idx.

Definition chi (b : list N) : list N :=
  map (fun i =>
         let x := i mod 5 in
         let y := i / 5 in
         let b1 := lane b ((x + 1) mod 5 + 5 * y) in
         let b2 := lane b ((x + 2) mod 5 + 5 * y) in
         N.lxor (lane b i) (N.land (N.lxor b1 mask64) b2)) idx.

Definition iota (rc : N) (a : list N) : list N :=
  match a with
  | [] => []
  | a0 :: rest => N.lxor a0 rc :: rest
  end.

Definition keccak_round (a : list N) (rc : N) : list N :=
  iota rc (chi (rho_pi (theta a))).

Definition keccak_f (a : list N) : list N :=
  fold_left keccak_round round_constants a.

(** Sponge with rate 136 bytes and the original Keccak padding 0x01 .. 0x80. *)
Definition rate : nat := 136.

Definition pad (msg : list N) : list N :=
  let r := (rate - (length msg) mod rate)%nat in
  if Nat.eqb r 1 then msg ++ [0x81]
  else msg ++ [0x01] ++ repeat 0 (r - 2) ++ [0x80].

Fixpoint le_word (bs : list N) : N :=
  match bs with
  | [] => 0
  | b :: rest => b + 256 * le_word rest
  end.

Fixpoint lanes_of_bytes (n : nat) (bs : list N) : list N :=
  match n with
  | O => []
  | S n' => le_word (firstn 8 bs) :: lanes_of_bytes n' (skipn 8 bs)
  end.

Definition absorb_block (st : list N) (block : list N) : list N :=
  let ls := lanes_of_bytes 17 block in
  keccak_f (map (fun i => N.lxor (lane st i) (lane ls i)) idx).

Fixpoint absorb (fuel : nat) (st : list N) (bs : list N) : list N :=
  match fuel with
  | O => st
  | S fuel' =>
      match bs with
      | [] => st
      | _ => absorb fuel' (absorb_block st (firstn rate bs)) (skipn rate bs)
      end
  end.

Definition bytes_of_lane (l : N) : list N :=
  map (fun k => N.land (N.shiftr l (8 * k)) 0xFF) [0; 1; 2; 3; 4; 5; 6; 7].

Definition keccak256 (msg : list N) : list N :=
  let padded := pad msg in
  let st := absorb (length padded) (repeat 0 25) padded in
  flat_map bytes_of_lane (firstn 4 st).

End Keccak.

Module Codec.

(** *** JavaScript string helpers (ASCII range) *)

Definition between (lo hi : nat) (c : ascii) : bool :=
  let n := nat_of_ascii c in (lo <=? n)%nat && (n <=? hi)%nat.

Definition is_digit (c : ascii) : bool := between 48 57 c.
Definition is_upper_hex (c : ascii) : bool := between 65 70 c.
Definition is_lower_hex (c : ascii) : bool := between 97 102 c.
Definition is_hex_digit (c : ascii) : bool :=
  is_digit c || is_upper_hex c || is_lower_hex c.

Definition lower_ascii (c : ascii) : ascii :=
  if between 65 90 c then ascii_of_nat (nat_of_ascii c + 32) else c.
Definition upper_ascii (c : ascii) : ascii :=
  if between 97 122 c then ascii_of_nat (nat_of_ascii c - 32) else c.

(** [String.prototype.toLowerCase], on the ASCII letters. *)
Definition toLowerCase (s : string) : string :=
  string_of_list_ascii (map lower_ascii (list_ascii_of_string s)).

(** [/^0x[a-fA-F0-9]{40}$/.test(address)] *)
Definition matches_0x_hex40 (s : string) : bool :=
  match list_ascii_of_string s with
  | c0 :: c1 :: body =>
      Ascii.eqb c0 "0" && Ascii.eqb c1 "x" &&
      Nat.eqb (length body) 40 && forallb is_hex_digit body
  | _ => false
  end.

(** [/^[0-9a-fA-F]{40}$/], the prefix-less form [ethers] also accepts. *)
Definition matches_bare_hex40 (s : string) : bool :=
  let body := list_ascii_of_string s in
  Nat.eqb (length body) 40 && forallb is_hex_digit body.

(** [/([A-F].*[a-f])|([a-f].*[A-F])/]: on a string without line breaks the
    pattern holds iff both an upper-case and a lower-case hex letter occur. *)
Definition mixed_case (s : string) : bool :=
  let cs := list_ascii_of_string s in
  existsb is_upper_hex cs && existsb is_lower_hex cs.

(** *** [ethers.getAddress] (hexadecimal branch)

    [getChecksumAddress]: lower-case the address, hash the 40 ASCII
    characters with Keccak-256 and upper-case character [i] when the
    [i]-th nibble of the hash is at least 8. *)

Fixpoint checksum_chars (chars : list ascii) (hashed : list N) : list ascii :=
  match chars, hashed with
  | c1 :: c2 :: rest, h :: hs =>
      (if (8 <=? N.shiftr h 4)%N then upper_ascii c1 else c1)
        :: (if (8 <=? N.land h 0x0f)%N then upper_ascii c2 else c2)
        :: checksum_chars rest hs
  | _, _ => chars
  end.

Definition getChecksumAddress (address : string) : string :=
  let chars := skipn 2 (list_ascii_of_string (toLowerCase address)) in
  let hashed := Keccak.keccak256 (map N_of_ascii chars) in
  "0x" ++ string_of_list_ascii (checksum_chars chars hashed).

(** [None] stands for the thrown [INVALID_ARGUMENT] error.  The ICAP branch
    of [ethers.getAddress] ([XE..] strings) is not modelled and is [None]
    here; such strings never match [matches_0x_hex40], so
    [isValidEthereumAddress] reports them invalid in either case. *)
Definition getAddress (address : string) : option string :=
  if matches_0x_hex40 address || matches_bare_hex40 address then
    let address' := if matches_0x_hex40 address then address else "0x" ++ address in
    let result := getChecksumAddress address' in
    if negb (mixed_case address') || String.eqb result address'
    then Some result else None
  else None.

(** *** [Validators.isValidEthereumAddress] *)

Record ValidationResult := {
  isValid : bool;
  errors : list string;
  normalized : option string
}.

Definition isValidEthereumAddress (address : string) : ValidationResult :=
  if String.eqb address "" then
    {| isValid := false; errors := ["Address is required"]; normalized := None |}
  else
    let errors0 :=
      if matches_0x_hex40 address then [] else ["Invalid Ethereum address format"] in
    match getAddress address with
    | Some checksumAddress =>
        {| isValid := match errors0 with [] => true | _ => false end;
           errors := errors0;
           normalized := Some checksumAddress |}
    | None =>
        {| isValid := false;
           errors := errors0 ++ ["Invalid address checksum"];
           normalized := None |}
    end.

(** The wallet used by the repository's own subscription test
    ([test-wallet-subscribe.cjs]) and its lower-case spelling. *)
Definition test_wallet : string := "0xC188d7E186682502B0177bEbE427828e8F5daf50".
Definition test_wallet_lower : string := "0xc188d7e186682502b0177bebe427828e8f5daf50".
Definition zero_address : string := "0x0000000000000000000000000000000000000000".

End Codec.

(* ===================================================================== *)
(** ** Data models ([models/WalletEvent.ts], [models/ScoringResult.ts]) *)
(* ===================================================================== *)

Module Models.

(** The three values of [type]: transaction, contract_interaction, token_transfer. *)
Inductive EventType := transaction_event | contract_interaction_event | token_transfer_event.
Inductive TxStatus := success | failed.

(** [value] and [gasPrice] are strings in the source and are only ever read
    through [parseFloat]; the fields here hold the parsed number. *)
Record WalletEvent := {
  ev_type : EventType;
  hash : string;
  from : string;
  to : option string;
  value : Q;
  blockNumber : Z;
  timestamp : Z;
  gasPrice : Q;
  gasUsed : string;
  status : TxStatus;
  input : option string;
  contractAddress : option string;
  tokenSymbol : option string;
  tokenValue : option string;
  methodId : option string;
  nonce : Z;
  position : option Z
}.

Inductive RiskLevel := LOW | MEDIUM | HIGH | CRITICAL.

(** The enum's string values. *)
Definition riskLevelValue (r : RiskLevel) : string :=
  match r with
  | LOW => "low"
  | MEDIUM => "medium"
  | HIGH => "high"
  | CRITICAL => "critical"
  end.

Record FeatureVector := {
  transactionCount : Q;
  transactionsPerDay : Q;
  avgTransactionValue : Q;
  maxTransactionValue : Q;
  minTransactionValue : Q;
  accountAgeDays : Q;
  daysSinceLastTx : Q;
  activeDays : Q;
  uniqueCounterparties : Q;
  contractInteractions : Q;
  failedTransactions : Q;
  gasUsagePattern : Q;
  totalVolume : Q;
  balance : Q;
  avgGasPrice : Q;
  clusteringCoefficient : Q;
  pageRank : Q;
  valueConcentration : Q;
  timeDistribution : Q;
  activityConsistency : Q
}.

Record ScoringResult := {
  walletAddress : string;
  reputationScore : Q;
  riskLevel : RiskLevel;
  confidence : Q;
  features : FeatureVector;
  sr_timestamp : Z;
  sr_transactionCount : nat;
  flags : list string;
  explanation : string
}.

(** What the JavaScript runtime contributes besides the program text: the
    transcendental functions of [Math] and the local time zone (a fixed
    offset from UTC, in milliseconds) used by [Date.prototype.getHours] and
    friends. *)
Record Runtime := {
  Math_log10 : Q -> Q;
  Math_log : Q -> Q;
  Math_log2 : Q -> Q;
  Math_exp : Q -> Q;
  tzOffsetMs : Z
}.

End Models.

(* ===================================================================== *)
(** ** Feature extraction ([FeatureProcessor]) *)
(* ===================================================================== *)

Module Features.
Import Models.
Local Open Scope Q_scope.

Definition MAX_HISTORY : nat := 1000.

Definition Qsum (l : list Q) : Q := fold_left Qplus l 0.

(** [Math.max(...l)] and [Math.min(...l)] on a non-empty list. *)
Definition Qmaximum (l : list Q) : Q :=
  match l with
  | [] => 0
  | x :: rest => fold_left Qmax rest x
  end.
Definition Qminimum (l : list Q) : Q :=
  match l with
  | [] => 0
  | x :: rest => fold_left Qmin rest x
  end.

Definition Qlen {A} (l : list A) : Q := inject_Z (Z.of_nat (length l)).

Definition Qgtb (a b : Q) : bool := negb (Qle_bool a b).
Definition Qltb (a b : Q) : bool := negb (Qle_bool b a).

(** *** History update

    [[...current, ...newEvents].sort((a, b) => b.timestamp - a.timestamp)
      .slice(0, MAX_HISTORY)]; [Array.prototype.sort] is stable. *)

Fixpoint insert_desc (x : WalletEvent) (sorted : list WalletEvent) : list WalletEvent :=
  match sorted with
  | [] => [x]
  | y :: ys =>
      if (timestamp x <? timestamp y)%Z then y :: insert_desc x ys
      else x :: y :: ys
  end.

Definition sort_desc (l : list WalletEvent) : list WalletEvent :=
  fold_right insert_desc [] l.

Definition updateTransactionHistory
    (history : gmap string (list WalletEvent))
    (walletAddress : string) (newEvents : list WalletEvent)
  : gmap string (list WalletEvent) :=
  let current := default [] (history !! walletAddress) in
  let updated := firstn MAX_HISTORY (sort_desc (current ++ newEvents)) in
  <[walletAddress := updated]> history.

(** *** Calendar helpers

    [new Date(tx.timestamp * 1000)] read in local time. *)
Section WithRuntime.
Context (rt : Runtime).

Definition localMs (tx : WalletEvent) : Z := (timestamp tx * 1000 + tzOffsetMs rt)%Z.
Definition localDay (tx : WalletEvent) : Z := (localMs tx / 86400000)%Z.
Definition localHour (tx : WalletEvent) : Z := ((localMs tx / 3600000) mod 24)%Z.

(** The key [year-month-date] identifies the local calendar day. *)
Definition calculateActiveDays (events : list WalletEvent) : Q :=
  inject_Z (Z.of_nat (size (list_to_set (map localDay events) : gset Z))).

(** [events.map(tx => tx.timestamp).sort()]: the default comparator orders
    the numbers by their decimal spelling. *)
Definition numberToString (z : Z) : string := NilZero.string_of_int (Z.to_int z).

Fixpoint insert_lex (x : Z) (sorted : list Z) : list Z :=
  match sorted with
  | [] => [x]
  | y :: ys =>
      if String.ltb (numberToString y) (numberToString x) then y :: insert_lex x ys
      else x :: y :: ys
  end.

Definition sort_default (l : list Z) : list Z := fold_right insert_lex [] l.

Fixpoint intervals_of (ts : list Z) : list Q :=
  match ts with
  | a :: (b :: _) as rest => inject_Z (b - a) :: intervals_of rest
  | _ => []
  end.

(** The quotient [variance / avgInterval^2] is taken as written; when all
    intervals are zero JavaScript yields [NaN], which [Q] does not have. *)
Definition calculateActivityConsistency (events : list WalletEvent) : Q :=
  if (length events <? 2)%nat then 0
  else
    let timestamps := sort_default (map timestamp events) in
    let intervals := intervals_of timestamps in
    let avgInterval := Qsum intervals / Qlen intervals in
    let variance :=
      fold_left (fun sum int => sum + (int - avgInterval) * (int - avgInterval))
                intervals 0 / Qlen intervals in
    Qmax 0 (1 - variance / (avgInterval * avgInterval)).

Definition hourHistogram (events : list WalletEvent) : list Q :=
  map (fun h => Qlen (List.filter (fun tx => (localHour tx =? h)%Z) events))
      (map Z.of_nat (seq 0 24)).

Definition calculateTimeDistribution (events : list WalletEvent) : Q :=
  match events with
  | [] => 0
  | _ =>
      let hours := hourHistogram events in
      let total := Qsum hours in
      let probabilities := map (fun count => count / total) hours in
      let entropy :=
        fold_left (fun sum p => if Qgtb p 0 then sum - p * Math_log2 rt p else sum)
                  probabilities 0 in
      entropy / Math_log2 rt 24
  end.

Definition normalizeValue (value : Q) : Q :=
  if Qgtb value 1e15 then value / 1e18 else value.

Definition normalizeGasPattern (gasPrice : Q) : Q :=
  Qmin (gasPrice / 1e9 / 1000) 1.

Definition truthy_string (s : option string) : bool :=
  match s with
  | Some s' => negb (String.eqb s' "")
  | None => false
  end.

(** [[tx.from, tx.to].filter(Boolean)] *)
Definition counterparties (tx : WalletEvent) : list string :=
  (if String.eqb (from tx) "" then [] else [from tx])
    ++ (if truthy_string (to tx) then [default "" (to tx)] else []).

Definition isContractInteraction (tx : WalletEvent) : bool :=
  truthy_string (contractAddress tx)
  || match input tx with
     | Some i => truthy_string (Some i) && (10 <? String.length i)%nat
     | None => false
     end.

Definition is_success (tx : WalletEvent) : bool :=
  match status tx with success => true | failed => false end.
Definition is_failed (tx : WalletEvent) : bool :=
  match status tx with success => false | failed => true end.

(** *** [extractFeaturesFromEvent]

    [nowMs] is the reading of [Date.now()].  [featuresOf] is the body of
    the method from [const transactionCount = walletEvents.length] on: the
    feature vector of the wallet's stored events. *)
Definition featuresOf (nowMs : Z) (walletEvents : list WalletEvent) : FeatureVector :=
  let transactionCount := Qlen walletEvents in
  let successfulTxs := List.filter is_success walletEvents in
  let failedTxs := List.filter is_failed walletEvents in
  let values := map value successfulTxs in
  let totalVolume := Qsum values in
  let avgTransactionValue :=
    match values with [] => 0 | _ => totalVolume / Qlen values end in
  let maxTransactionValue := match values with [] => 0 | _ => Qmaximum values end in
  let minTransactionValue := match values with [] => 0 | _ => Qminimum values end in
  let now := inject_Z nowMs / 1000 in
  let timestamps := map (fun tx => inject_Z (timestamp tx)) walletEvents in
  let accountAgeDays :=
    match timestamps with
    | [] => 0
    | _ => (now - Qminimum timestamps) / (24 * 60 * 60)
    end in
  let daysSinceLastTx :=
    match timestamps with
    | [] => 365
    | _ => (now - Qmaximum timestamps) / (24 * 60 * 60)
    end in
  let uniqueCounterparties :=
    inject_Z (Z.of_nat (size (list_to_set (flat_map counterparties walletEvents)
                                : gset string))) in
  let contractInteractions := Qlen (List.filter isContractInteraction walletEvents) in
  let gasPrices := map gasPrice walletEvents in
  let avgGasPrice :=
    match gasPrices with [] => 0 | _ => Qsum gasPrices / Qlen gasPrices end in
  let activeDays := calculateActiveDays walletEvents in
  let transactionsPerDay :=
    if Qgtb accountAgeDays 0 then transactionCount / accountAgeDays else 0 in
  let valueConcentration :=
    if Qgtb maxTransactionValue 0 then avgTransactionValue / maxTransactionValue else 0 in
  let activityConsistency := calculateActivityConsistency walletEvents in
  let timeDistribution := calculateTimeDistribution walletEvents in
  {| transactionCount := transactionCount;
     transactionsPerDay := Qmin transactionsPerDay 100;
     avgTransactionValue := normalizeValue avgTransactionValue;
     maxTransactionValue := normalizeValue maxTransactionValue;
     minTransactionValue := normalizeValue minTransactionValue;
     accountAgeDays := Qmin accountAgeDays (365 * 5);
     daysSinceLastTx := Qmin daysSinceLastTx 365;
     activeDays := Qmin activeDays (365 * 2);
     uniqueCounterparties := uniqueCounterparties;
     contractInteractions := contractInteractions;
     failedTransactions := Qlen failedTxs;
     gasUsagePattern := normalizeGasPattern avgGasPrice;
     totalVolume := normalizeValue totalVolume;
     balance := 0;
     avgGasPrice := normalizeValue avgGasPrice;
     clusteringCoefficient := 0;
     pageRank := 0;
     valueConcentration := valueConcentration;
     timeDistribution := timeDistribution;
     activityConsistency := activityConsistency |}.


(** The method: update the wallet's history with the given events, then
    compute the features of what is stored; it returns the feature vector
    together with the updated history store.  (The source wraps the body
    in a [try] whose handler returns [getDefaultFeatures]; nothing in the
    body raises on well-typed events.) *)
Definition extractFeaturesFromEvent
    (history : gmap string (list WalletEvent)) (nowMs : Z)
    (walletAddress : string) (events : list WalletEvent)
  : FeatureVector * gmap string (list WalletEvent) :=
  let history' := updateTransactionHistory history walletAddress events in
  (featuresOf nowMs (default [] (history' !! walletAddress)), history').

End WithRuntime.

Definition getDefaultFeatures : FeatureVector :=
  {| transactionCount := 0; transactionsPerDay := 0; avgTransactionValue := 0;
     maxTransactionValue := 0; minTransactionValue := 0; accountAgeDays := 0;
     daysSinceLastTx := 365; activeDays := 0; uniqueCounterparties := 0;
     contractInteractions := 0; failedTransactions := 0; gasUsagePattern := 0;
     totalVolume := 0; balance := 0; avgGasPrice := 0;
     clusteringCoefficient := 0; pageRank := 0; valueConcentration := 0;
     timeDistribution := 0; activityConsistency := 0 |}.

End Features.

(* ===================================================================== *)
(** ** Scoring engine ([ScoringService]) *)
(* ===================================================================== *)

Module Scoring.
Import Models Features.
Local Open Scope Q_scope.

(** *** String and number formatting used by the explanations *)

Definition is_space (c : ascii) : bool :=
  let n := nat_of_ascii c in ((9 <=? n)%nat && (n <=? 13)%nat) || Nat.eqb n 32.

Fixpoint drop_spaces (cs : list ascii) : list ascii :=
  match cs with
  | c :: rest => if is_space c then drop_spaces rest else cs
  | [] => []
  end.

(** [String.prototype.trim] *)
Definition trim (s : string) : string :=
  string_of_list_ascii
    (rev (drop_spaces (rev (drop_spaces (list_ascii_of_string s))))).

(** [String.prototype.includes] *)
Fixpoint includes (s sub : string) : bool :=
  String.prefix sub s
  || match s with
     | EmptyString => false
     | String _ rest => includes rest sub
     end.

(** [Array.prototype.join] *)
Fixpoint join (sep : string) (l : list string) : string :=
  match l with
  | [] => ""
  | [x] => x
  | x :: rest => x ++ sep ++ join sep rest
  end.

Definition pow10 (d : nat) : Z := (10 ^ Z.of_nat d)%Z.

(** The integer [n] of [Number.prototype.toFixed]: the one closest to
    [|x| * 10^d], the larger one on a tie. *)
Definition fixedDigits (d : nat) (x : Q) : Z :=
  Qfloor (Qabs x * inject_Z (pow10 d) + (1 # 2)).

Definition padLeft (width : nat) (s : string) : string :=
  string_of_list_ascii (repeat "0"%char (width - String.length s)) ++ s.

Definition toFixed (d : nat) (x : Q) : string :=
  let n := fixedDigits d x in
  (if Qltb x 0 then "-" else "")
    ++ numberToString (n / pow10 d)
    ++ match d with
       | O => ""
       | _ => "." ++ padLeft d (numberToString (n mod pow10 d))
       end.

(** [parseFloat(x.toFixed(d))] *)
Definition roundFixed (d : nat) (x : Q) : Q :=
  let q := inject_Z (fixedDigits d x) / inject_Z (pow10 d) in
  if Qltb x 0 then - q else q.

(** Interpolation of a field that holds a count. *)
Definition showCount (q : Q) : string := numberToString (Qfloor q).

(** *** Service state *)

(** The loaded ONNX session, seen as a function from the input row to the
    output tensor's data; [None] is a rejected [run]. *)
Definition InferenceSession := list Q -> option (list Q).

Record ScoringService := {
  model : option InferenceSession;
  featureNames : list string;
  blacklist : gset string
}.

Definition BLACKLIST_PENALTY : Q := -30.

Definition isWalletBlacklisted (svc : ScoringService) (walletAddress : string) : bool :=
  bool_decide (Codec.toLowerCase walletAddress ∈ blacklist svc).

Record ModelPrediction := {
  score : Q;
  probabilities : list Q
}.

(** *** [determineRiskLevel] with [SCORE_THRESHOLDS] = 70 / 50 / 30 / 0 *)
Definition determineRiskLevel (score : Q) : RiskLevel :=
  if Qle_bool 70 score then LOW
  else if Qle_bool 50 score then MEDIUM
  else if Qle_bool 30 score then HIGH
  else CRITICAL.

Definition clampScore (s : Q) : Q := Qmax 0 (Qmin 100 s).

(** A conditional [push] onto an array under construction. *)
Definition pushIf (b : bool) (s : string) : list string := if b then [s] else [].

(** *** [generateFlags] *)
Definition generateFlags (svc : ScoringService) (walletAddress : string)
    (features : FeatureVector) (score : Q) : list string :=
  concat
    [ pushIf (isWalletBlacklisted svc walletAddress) "blacklisted";
      pushIf (Qgtb (failedTransactions features) 10) "high_failure_rate";
      pushIf (Qgtb (transactionsPerDay features) 50) "high_frequency";
      pushIf (Qgtb (uniqueCounterparties features) 500) "many_counterparties";
      pushIf (Qltb (accountAgeDays features) 7) "new_account";
      pushIf (Qgtb (contractInteractions features) 200) "high_contract_activity";
      if Qltb score 30 then ["critical_risk"]
      else if Qltb score 50 then ["high_risk"] else [] ].

(** *** [generateExplanation] *)
Definition generateExplanation (score : Q) (riskLevel : RiskLevel)
    (features : FeatureVector) (blacklistPenalty : Q) : string :=
  let factors :=
    concat
      [ pushIf (Qltb blacklistPenalty 0) "wallet is in blacklist";
        pushIf (Qgtb (failedTransactions features) 5) "high number of failed transactions";
        pushIf (Qgtb (transactionsPerDay features) 20) "unusually high transaction frequency";
        pushIf (Qgtb (uniqueCounterparties features) 200) "interacts with many unique addresses";
        pushIf (Qltb (accountAgeDays features) 30) "recently created wallet";
        pushIf (Qgtb (avgTransactionValue features) 50) "high average transaction value" ] in
  let factors' :=
    match factors with
    | [] => ["normal transaction patterns detected"]
    | _ => factors
    end in
  "Risk level: " ++ riskLevelValue riskLevel ++ ". Factors: "
    ++ join "; " factors' ++ ".".

Section WithRuntime.
Context (rt : Runtime).

(** *** [calculateFallbackScore] (rule-based) *)

(** [events.slice(-n)] *)
Definition lastN {A} (n : nat) (l : list A) : list A := skipn (length l - n) l.

(** The arithmetic of the rule-based score, from [let baseScore = 70] to
    the clamp: the clamped score with the accumulated [patternRisk] and
    [patternBonus]. *)
Definition ruleBasedScore (blacklisted : bool) (events : list WalletEvent)
    (features : FeatureVector) : Q * Q * Q :=
  let patterns : Q * Q :=
    match events with
    | [] => (0, 0)
    | _ =>
        let recentTransactions := lastN 20 events in
        let risk0 :=
          fold_left
            (fun risk event =>
               risk + (if Qgtb (value event) 1000 then 5 else 0)
                    + (if is_failed event then 8 else 0))
            recentTransactions 0 in
        let risk1 :=
          if Qgtb (failedTransactions features) 0
          then risk0 + failedTransactions features * 5 else risk0 in
        let bonus0 :=
          if Qgtb (uniqueCounterparties features) 5
          then Qmin 15 (Math_log rt (uniqueCounterparties features + 1) * 3) else 0 in
        let bonus1 :=
          if Qgtb (accountAgeDays features) 7
          then bonus0 + Qmin 10 (Math_log rt (accountAgeDays features + 1) * 2)
          else bonus0 in
        (risk1, bonus1)
    end in
  let baseScore :=
    if Qgtb (transactionCount features) 0
    then 70 + Qmin 8 (Math_log10 rt (transactionCount features + 1) * 2)
    else 70 in
  let patternRisk2 :=
    if Qgtb (transactionsPerDay features) 50
    then fst patterns + Qmin 25 ((transactionsPerDay features - 50) * 0.3)
    else fst patterns in
  let patternBonus :=
    if Qgtb (transactionsPerDay features) 50 then snd patterns
    else if Qgtb (transactionsPerDay features) 0
            && Qle_bool (transactionsPerDay features) 10
    then snd patterns + Qmin 5 (transactionsPerDay features * 0.3)
    else snd patterns in
  let patternRisk3 :=
    if Qgtb (avgTransactionValue features) 100
    then patternRisk2 + Qmin 15 (Math_log10 rt (avgTransactionValue features) * 2)
    else patternRisk2 in
  let patternRisk := patternRisk3 + failedTransactions features * 4 in
  let score0 := baseScore - patternRisk + patternBonus in
  let score1 :=
    if Qgtb (accountAgeDays features) 30
    then score0 + Qmin 15 (Math_log10 rt (accountAgeDays features) * 3)
    else if Qltb (accountAgeDays features) 1 then score0 - 20
    else score0 in
  let score2 := if blacklisted then score1 + BLACKLIST_PENALTY else score1 in
  (clampScore score2, patternRisk, patternBonus).

Definition calculateFallbackScore (svc : ScoringService)
    (history : gmap string (list WalletEvent)) (nowMs : Z)
    (walletAddress : string) (events : list WalletEvent)
  : ScoringResult * gmap string (list WalletEvent) :=
  let '(features, history') :=
    extractFeaturesFromEvent rt history nowMs walletAddress events in
  let '(score, patternRisk, patternBonus) :=
    ruleBasedScore (isWalletBlacklisted svc walletAddress) events features in
  let confidence := Qmin 0.8 (Qmax 0.3 (Qlen events * 0.05)) in
  let riskLevel := determineRiskLevel score in
  let riskFactors :=
    concat
      [ pushIf (Qgtb (failedTransactions features) 0)
          (showCount (failedTransactions features) ++ " failed transactions");
        pushIf (Qgtb (avgTransactionValue features) 100)
          ("high avg value (" ++ toFixed 2 (avgTransactionValue features) ++ ")");
        pushIf (Qgtb (transactionsPerDay features) 20)
          ("high frequency (" ++ toFixed 2 (transactionsPerDay features) ++ "/day)");
        pushIf (Qltb (accountAgeDays features) 7)
          ("new account (" ++ toFixed 1 (accountAgeDays features) ++ " days)");
        pushIf (Qgtb patternRisk 0) "pattern risks identified" ] in
  let activityFactors :=
    concat
      [ pushIf (Qgtb (transactionCount features) 0)
          (showCount (transactionCount features) ++ " total transactions");
        pushIf (Qgtb (uniqueCounterparties features) 5)
          (showCount (uniqueCounterparties features) ++ " unique counterparties");
        pushIf (Qgtb (accountAgeDays features) 30)
          ("established account (" ++ toFixed 1 (accountAgeDays features) ++ " days)");
        pushIf (Qgtb patternBonus 0) "positive patterns detected" ] in
  let explanation :=
    match riskFactors with
    | _ :: _ =>
        "Risk level: " ++ riskLevelValue riskLevel ++ ". Risk factors: "
          ++ join ", " riskFactors ++ ". "
          ++ match activityFactors with
             | _ :: _ => "Activity factors: " ++ join ", " activityFactors ++ "."
             | [] => ""
             end
    | [] =>
        "Account activity: " ++ showCount (transactionCount features)
          ++ " transactions. "
          ++ match activityFactors with
             | _ :: _ => "Activity factors: " ++ join ", " activityFactors ++ "."
             | [] => "Regular activity."
             end
    end in
  ({| walletAddress := walletAddress;
      reputationScore := roundFixed 2 score;
      riskLevel := riskLevel;
      confidence := roundFixed 2 confidence;
      features := features;
      sr_timestamp := (nowMs / 1000)%Z;
      sr_transactionCount := length events;
      flags := generateFlags svc walletAddress features score;
      explanation := explanation |},
   history').

(** *** [mapFeaturesToModelFormat]

    The [switch] compares the trimmed feature name with the case labels as
    they are spelled in the source (several carry a leading or trailing
    blank, which a trimmed name never has). *)
Definition modelFeatureCases : list (list string * (FeatureVector -> Q)) :=
  [ (["Unnamed: 0"; "Index"; "Address"], fun _ => 0);
    ([" ERC20 most sent token type"; " ERC20_most_rec_token_type";
      " ERC20 uniq sent token name"], fun _ => 0);
    (["Time Diff between first and last (Mins)"],
      fun f => accountAgeDays f * 24 * 60);
    ([" Total ERC20 tnxs"], contractInteractions);
    ([" ERC20 total Ether received"; "total ether received"], totalVolume);
    ([" ERC20 total ether sent"; "total Ether sent"], fun f => totalVolume f * 0.5);
    ([" ERC20 uniq rec contract addr"], fun f => uniqueCounterparties f * 0.2);
    (["Avg min between received tnx"],
      fun f => if Qgtb (transactionsPerDay f) 0
               then 1440 / transactionsPerDay f else 1440);
    ([" ERC20 uniq rec addr"; "Unique Received From Addresses"], uniqueCounterparties);
    ([" ERC20 avg val rec"; "avg val received"; "avg val sent"], avgTransactionValue);
    (["max value received "; "max val sent"], maxTransactionValue);
    (["total transactions (including tnx to create contract"], transactionCount);
    (["Received Tnx"; "Sent tnx"], fun f => transactionCount f * 0.5);
    (["Unique Sent To Addresses"], fun f => uniqueCounterparties f * 0.5);
    ([" ERC20 min val rec"; "min val sent"; "min value received"], minTransactionValue);
    (["total ether balance"], balance);
    ([" ERC20 uniq sent addr"], fun f => uniqueCounterparties f * 0.3) ].

Definition defaultModelFeature (featureName : string) (f : FeatureVector) : Q :=
  let lower := Codec.toLowerCase featureName in
  if includes lower "transaction" then transactionCount f
  else if includes lower "value" || includes lower "ether" then avgTransactionValue f
  else if includes lower "counterpart" then uniqueCounterparties f
  else if includes lower "fail" then failedTransactions f
  else 0.

Definition modelFeature (f : FeatureVector) (featureName : string) : Q :=
  match List.find (fun c => existsb (String.eqb (trim featureName)) (fst c))
                  modelFeatureCases with
  | Some c => snd c f
  | None => defaultModelFeature featureName f
  end.

Definition mapFeaturesToModelFormat (svc : ScoringService) (f : FeatureVector) : list Q :=
  map (modelFeature f) (featureNames svc).

(** *** [getMLPrediction] *)

(** The prediction built from the rule-based score of the zero address
    with no events; used when no model is loaded, when the feature row is
    empty, and when inference fails. *)
Definition fallbackPrediction (svc : ScoringService)
    (history : gmap string (list WalletEvent)) (nowMs : Z)
  : ModelPrediction * gmap string (list WalletEvent) :=
  let '(fallbackResult, history') :=
    calculateFallbackScore svc history nowMs Codec.zero_address [] in
  ({| score := reputationScore fallbackResult;
      probabilities := [1 - reputationScore fallbackResult / 100;
                        reputationScore fallbackResult / 100] |},
   history').

Definition getMLPrediction (svc : ScoringService)
    (history : gmap string (list WalletEvent)) (nowMs : Z)
    (features : FeatureVector)
  : ModelPrediction * gmap string (list WalletEvent) :=
  match model svc with
  | None => fallbackPrediction svc history nowMs
  | Some session =>
      let validFeaturesArray := mapFeaturesToModelFormat svc features in
      match validFeaturesArray with
      | [] => fallbackPrediction svc history nowMs
      | _ =>
          match session validFeaturesArray with
          | None => fallbackPrediction svc history nowMs
          | Some outputData =>
              (* [Math.max()] of an empty output is [-Infinity], which the
                 clamp below turns into 0 *)
              let raw : Q * list Q :=
                match outputData with
                | [p0; p1] => (p1 * 100, outputData)
                | [rawOutput] =>
                    let probability := 1 / (1 + Math_exp rt (- rawOutput)) in
                    (probability * 100, [1 - probability; probability])
                | [] => (0, outputData)
                | _ => (Qmaximum outputData * 100, outputData)
                end in
              ({| score := clampScore (fst raw); probabilities := snd raw |}, history)
          end
      end
  end.

(** *** [calculateWalletScore] *)
Definition calculateWalletScore (svc : ScoringService)
    (history : gmap string (list WalletEvent)) (nowMs : Z)
    (walletAddress : string) (events : list WalletEvent)
  : ScoringResult * gmap string (list WalletEvent) :=
  let '(features, history1) :=
    extractFeaturesFromEvent rt history nowMs walletAddress events in
  let '(mlPrediction, history2) := getMLPrediction svc history1 nowMs features in
  let baseScore := score mlPrediction in
  let blacklistPenalty :=
    if isWalletBlacklisted svc walletAddress then BLACKLIST_PENALTY else 0 in
  let finalScore := clampScore (baseScore + blacklistPenalty) in
  let riskLevel := determineRiskLevel finalScore in
  let explanation := generateExplanation finalScore riskLevel features blacklistPenalty in
  ({| walletAddress := walletAddress;
      reputationScore := finalScore;
      riskLevel := riskLevel;
      confidence :=
        match probabilities mlPrediction with
        | _ :: p1 :: _ => if Qeq_bool p1 0 then 0.5 else p1
        | _ => 0.5
        end;
      features := features;
      sr_timestamp := (nowMs / 1000)%Z;
      sr_transactionCount := length events;
      flags := generateFlags svc walletAddress features finalScore;
      explanation := explanation |},
   history2).

(** The handler of the [catch] around the body of [calculateWalletScore]
    returns the rule-based result directly. *)
Definition calculateWalletScore_onError := calculateFallbackScore.

(** *** [batchScoreWallets] *)

(** The record stored by the handler of a failed wallet. *)
Definition batchErrorResult
    (history : gmap string (list WalletEvent)) (nowMs : Z)
    (walletAddress : string) (events : list WalletEvent) : ScoringResult :=
  {| walletAddress := walletAddress;
     reputationScore := 50;
     riskLevel := MEDIUM;
     confidence := 0;
     features := fst (extractFeaturesFromEvent rt history nowMs walletAddress events);
     sr_timestamp := (nowMs / 1000)%Z;
     sr_transactionCount := length events;
     flags := ["scoring_error"];
     explanation := "Scoring failed, using neutral fallback" |}.

(** Wallets are scored in the iteration order of the input map; the chunks
    of five only bound how many scorings are in flight. *)
Fixpoint batchScoreWallets (svc : ScoringService)
    (history : gmap string (list WalletEvent)) (nowMs : Z)
    (walletEvents : list (string * list WalletEvent))
  : gmap string ScoringResult * gmap string (list WalletEvent) :=
  match walletEvents with
  | [] => (∅, history)
  | (walletAddress, events) :: rest =>
      let '(result, history1) :=
        calculateWalletScore svc history nowMs walletAddress events in
      let '(results, history2) := batchScoreWallets svc history1 nowMs rest in
      (<[walletAddress := result]> results, history2)
  end.

End WithRuntime.

End Scoring.

(* ===================================================================== *)
(** ** Broadcast hub ([WebSocketService]) *)
(* ===================================================================== *)

Module Hub.
Import Models.

Definition HEARTBEAT_INTERVAL : Z := 30000.
Definition CONNECTION_TIMEOUT : Z := 300000.
Definition maxMessages : Z := 100.
Definition windowMs : Z := 60000.
Definition maxSubscriptions : nat := 50.

Inductive WSMessageType :=
  | SCORE_UPDATE | TRANSACTION_ALERT | WALLET_FLAGGED | ERROR
  | HEARTBEAT | SUBSCRIBE | UNSUBSCRIBE.

(** A property of an incoming payload, as far as the handlers look at it:
    a string, some other truthy value, or nothing (absent, [null] or any
    other falsy non-string). *)
Inductive field :=
  | FAbsent
  | FString (s : string)
  | FOther.

(** The payload of a client message ([data: any]). *)
Inductive payload :=
  | NotAnObject
  | Fields (wallet sessionId : field).

Inductive MessageData :=
  | SubscribeData (wallet sessionId : string) (subscribed : bool) (message : string)
  | UnsubscribeData (wallet : string) (sessionId : field) (unsubscribed : bool)
      (message : string)
  | ErrorData (code message : string) (recoverable : bool)
  | ScoreUpdateData (wallet : string) (score : ScoringResult)
      (previousScore : option ScoringResult)
  | TransactionAlertData (wallet : string) (transaction : WalletEvent)
      (riskLevel : RiskLevel) (scoreImpact : Q)
  | WalletFlaggedData (wallet : string) (riskLevel : RiskLevel) (score : Q)
      (contractTxHash : option string) (flaggedAt : Z)
  | HeartbeatData (serverTime : Z) (activeConnections : nat).

Record WebSocketMessage := {
  msg_type : WSMessageType;
  msg_id : string;
  msg_timestamp : Z;
  version : string;
  data : MessageData
}.

(** [socket.connected] is the only part of the transport handle the
    service reads. *)
Record WebSocketConnection := {
  id : string;
  connected : bool;
  subscribedWallets : gset string;
  connectedAt : Z;
  lastActivity : Z;
  sessionId : option string
}.

Record RateInfo := { count : Z; resetTime : Z }.

(** [connections] is a [Map] and is iterated in insertion order; the list
    keeps that order, one entry per connection id. *)
Record State := {
  io : bool;
  connections : list WebSocketConnection;
  messageCounts : gmap string RateInfo
}.

Definition initial : State :=
  {| io := false; connections := []; messageCounts := ∅ |}.

Definition setupWebSocket (st : State) : State :=
  {| io := true; connections := connections st; messageCounts := messageCounts st |}.

(** One [socket.emit]: the receiving connection and the message. *)
Definition Emit : Type := string * WebSocketMessage.

(** Identifiers come from [Helpers.generateUniqueId(prefix)], which mixes
    the clock with [Math.random]; the model takes the generator as [gen]. *)
Definition IdGen : Type := string -> string.

(** *** [sendMessage], [sendErrorMessage] *)
Definition sendMessage (c : WebSocketConnection) (m : WebSocketMessage) : list Emit :=
  if connected c then [(id c, m)] else [].

Definition errorMessage (gen : IdGen) (now : Z) (code message : string)
  : WebSocketMessage :=
  {| msg_type := ERROR;
     msg_id := gen "msg";
     msg_timestamp := now;
     version := "1.0.0";
     data := ErrorData code message (negb (Scoring.includes code "FATAL")) |}.

Definition sendErrorMessage (gen : IdGen) (now : Z) (c : WebSocketConnection)
    (code message : string) : list Emit :=
  if connected c then sendMessage c (errorMessage gen now code message) else [].

(** *** [checkRateLimit]

    The entry is created or reset when absent or expired, then its counter
    is incremented in place; the answer is whether the counter is still
    within [maxMessages]. *)
Definition checkRateLimit (counts : gmap string RateInfo) (now : Z)
    (connectionId : string) : bool * gmap string RateInfo :=
  let rateInfo :=
    match counts !! connectionId with
    | Some r => if (resetTime r <=? now)%Z
                then {| count := 0; resetTime := now + windowMs |} else r
    | None => {| count := 0; resetTime := now + windowMs |}
    end in
  let rateInfo' := {| count := count rateInfo + 1; resetTime := resetTime rateInfo |} in
  (negb (maxMessages <? count rateInfo')%Z, <[connectionId := rateInfo']> counts).

(** *** [validateSubscribeData], [validateUnsubscribeData] *)

Definition field_truthy (f : field) : bool :=
  match f with
  | FAbsent => false
  | FString s => negb (String.eqb s "")
  | FOther => true
  end.

Definition walletErrors (wallet : field) : list string :=
  match wallet with
  | FString w =>
      if String.eqb w "" then ["Wallet address is required"]
      else
        let v := Codec.isValidEthereumAddress w in
        if Codec.isValid v then [] else Codec.errors v
  | _ => ["Wallet address is required"]
  end.

Definition normalizedWallet (wallet : field) : string :=
  match wallet with
  | FString w => default "" (Codec.normalized (Codec.isValidEthereumAddress w))
  | _ => ""
  end.

(** The result is the error list, or the normalized wallet and session id. *)
Definition validateSubscribeData (gen : IdGen) (d : payload)
  : list string + (string * string) :=
  match d with
  | NotAnObject => inl ["Invalid data format"]
  | Fields wallet session =>
      let errors :=
        (walletErrors wallet
           ++ match session with
              | FOther => ["Session ID must be a string"]
              | _ => []
              end)%list in
      match errors with
      | _ :: _ => inl errors
      | [] =>
          inr (normalizedWallet wallet,
               match session with
               | FString s => if String.eqb s "" then gen "session" else s
               | _ => gen "session"
               end)
      end
  end.

Definition validateUnsubscribeData (d : payload) : list string + (string * field) :=
  match d with
  | NotAnObject => inl ["Invalid data format"]
  | Fields wallet session =>
      match walletErrors wallet with
      | _ :: _ as errors => inl errors
      | [] => inr (normalizedWallet wallet, session)
      end
  end.

(** *** The handlers

    Each handler receives the connection record it was registered with and
    returns it updated, together with the rate-limit table and the
    messages emitted. *)

Definition touch (c : WebSocketConnection) (now : Z) : WebSocketConnection :=
  {| id := id c; connected := connected c; subscribedWallets := subscribedWallets c;
     connectedAt := connectedAt c; lastActivity := now; sessionId := sessionId c |}.

Definition handleSubscribe (gen : IdGen) (now : Z)
    (counts : gmap string RateInfo) (connection : WebSocketConnection) (d : payload)
  : gmap string RateInfo * WebSocketConnection * list Emit :=
  let c := touch connection now in
  let '(allowed, counts') := checkRateLimit counts now (id c) in
  if negb allowed then
    (counts', c,
     sendErrorMessage gen now c "RATE_LIMIT_EXCEEDED" "Too many messages, please slow down")
  else
    match validateSubscribeData gen d with
    | inl errors =>
        (counts', c,
         sendErrorMessage gen now c "INVALID_SUBSCRIPTION" (Scoring.join ", " errors))
    | inr (wallet, session) =>
        if (maxSubscriptions <=? size (subscribedWallets c))%nat then
          (counts', c,
           sendErrorMessage gen now c "SUBSCRIPTION_LIMIT_EXCEEDED"
             ("Maximum " ++ Features.numberToString (Z.of_nat maxSubscriptions)
                ++ " subscriptions allowed"))
        else
          let c' :=
            {| id := id c; connected := connected c;
               subscribedWallets := {[wallet]} ∪ subscribedWallets c;
               connectedAt := connectedAt c; lastActivity := lastActivity c;
               sessionId := Some session |} in
          (counts', c',
           sendMessage c'
             {| msg_type := SUBSCRIBE; msg_id := gen "msg"; msg_timestamp := now;
                version := "1.0.0";
                data := SubscribeData wallet session true
                          ("Subscribed to wallet " ++ wallet) |})
    end.

Definition handleUnsubscribe (gen : IdGen) (now : Z)
    (connection : WebSocketConnection) (d : payload)
  : WebSocketConnection * list Emit :=
  let c := touch connection now in
  match validateUnsubscribeData d with
  | inl errors =>
      (c, sendErrorMessage gen now c "INVALID_UNSUBSCRIPTION" (Scoring.join ", " errors))
  | inr (wallet, session) =>
      let wasSubscribed := bool_decide (wallet ∈ subscribedWallets c) in
      let c' :=
        {| id := id c; connected := connected c;
           subscribedWallets := subscribedWallets c ∖ {[wallet]};
           connectedAt := connectedAt c; lastActivity := lastActivity c;
           sessionId := sessionId c |} in
      (c',
       sendMessage c'
         {| msg_type := UNSUBSCRIBE; msg_id := gen "msg"; msg_timestamp := now;
            version := "1.0.0";
            data := UnsubscribeData wallet session wasSubscribed
                      (if wasSubscribed then "Unsubscribed from wallet " ++ wallet
                       else "Wallet was not subscribed") |})
  end.

(** *** The connection table *)

Definition replaceConnection (c : WebSocketConnection)
    (cs : list WebSocketConnection) : list WebSocketConnection :=
  map (fun c0 => if String.eqb (id c0) (id c) then c else c0) cs.

Definition findConnection (st : State) (connectionId : string)
  : option WebSocketConnection :=
  List.find (fun c => String.eqb (id c) connectionId) (connections st).

(** [handleConnection]: register a connection under a fresh id and greet it
    ([memoryUsage] is left out of the heartbeat payload). *)
Definition handleConnection (gen : IdGen) (now : Z) (st : State)
  : State * list Emit :=
  let connection :=
    {| id := gen "ws"; connected := true; subscribedWallets := ∅;
       connectedAt := now; lastActivity := now; sessionId := None |} in
  let cs :=
    if existsb (fun c => String.eqb (id c) (id connection)) (connections st)
    then replaceConnection connection (connections st)
    else (connections st ++ [connection])%list in
  ({| io := io st; connections := cs; messageCounts := messageCounts st |},
   sendMessage connection
     {| msg_type := HEARTBEAT; msg_id := gen "msg"; msg_timestamp := now;
        version := "1.0.0"; data := HeartbeatData now (length cs) |}).

(** The [subscribe] event of the socket of connection [connectionId]. *)
Definition onSubscribe (gen : IdGen) (now : Z) (st : State)
    (connectionId : string) (d : payload) : State * list Emit :=
  match findConnection st connectionId with
  | None => (st, [])
  | Some connection =>
      let '(counts', c', out) :=
        handleSubscribe gen now (messageCounts st) connection d in
      ({| io := io st; connections := replaceConnection c' (connections st);
          messageCounts := counts' |}, out)
  end.

Definition onUnsubscribe (gen : IdGen) (now : Z) (st : State)
    (connectionId : string) (d : payload) : State * list Emit :=
  match findConnection st connectionId with
  | None => (st, [])
  | Some connection =>
      let '(c', out) := handleUnsubscribe gen now connection d in
      ({| io := io st; connections := replaceConnection c' (connections st);
          messageCounts := messageCounts st |}, out)
  end.

Definition handleDisconnect (st : State) (connectionId : string) : State :=
  match findConnection st connectionId with
  | None => st
  | Some _ =>
      {| io := io st;
         connections :=
           List.filter (fun c => negb (String.eqb (id c) connectionId)) (connections st);
         messageCounts := delete connectionId (messageCounts st) |}
  end.

(** *** Fan-out *)

Definition isSubscribed (walletAddress : string) (c : WebSocketConnection) : bool :=
  bool_decide (Codec.toLowerCase walletAddress ∈ subscribedWallets c).

Definition broadcastToWalletSubscribers (st : State) (walletAddress : string)
    (message : WebSocketMessage) : list Emit :=
  flat_map (fun c => if isSubscribed walletAddress c then sendMessage c message else [])
           (connections st).

Definition scoreUpdateMessage (gen : IdGen) (now : Z) (walletAddress : string)
    (score : ScoringResult) (previousScore : option ScoringResult) : WebSocketMessage :=
  {| msg_type := SCORE_UPDATE; msg_id := gen "msg"; msg_timestamp := now;
     version := "1.0.0";
     data := ScoreUpdateData walletAddress score previousScore |}.

Definition broadcastScoreUpdate (gen : IdGen) (now : Z) (st : State)
    (walletAddress : string) (score : ScoringResult)
    (previousScore : option ScoringResult) : list Emit :=
  if negb (io st) then []
  else
    flat_map
      (fun c => if isSubscribed walletAddress c
                then sendMessage c (scoreUpdateMessage gen now walletAddress score previousScore)
                else [])
      (connections st).

Definition broadcastWalletFlagged (gen : IdGen) (now : Z) (st : State)
    (walletAddress : string) (riskLevel : RiskLevel) (score : Q)
    (contractTxHash : option string) : list Emit :=
  if negb (io st) then []
  else
    broadcastToWalletSubscribers st walletAddress
      {| msg_type := WALLET_FLAGGED; msg_id := gen "msg"; msg_timestamp := now;
         version := "1.0.0";
         data := WalletFlaggedData walletAddress riskLevel score contractTxHash now |}.

Definition getWalletSubscriberCount (st : State) (walletAddress : string) : nat :=
  length (List.filter (isSubscribed walletAddress) (connections st)).

End Hub.

(* ===================================================================== *)
(** ** Flag registry client ([ContractService]) *)
(* ===================================================================== *)

Module Registry.
Import Models.

Definition GAS_LIMIT : Z := 500000.
Definition CONFIRMATIONS : Z := 2.

(** A JavaScript number as the validators see it. *)
Inductive jsnum :=
  | Finite (q : Q)
  | NaN
  | PosInfinity
  | NegInfinity.

(** A thrown value: an [Error] with its message, or anything else with its
    [String(...)] rendering. *)
Inductive thrown :=
  | ErrorObject (message : string)
  | OtherValue (rendering : string).

Inductive outcome (A : Type) :=
  | Ok (a : A)
  | Throw (e : thrown).
Arguments Ok {A} a.
Arguments Throw {A} e.

(** *** The [ethers] contract handle *)

Record LogEntry := { log_address : string; log_data : string; log_topics : list string }.

Record TransactionReceipt := {
  rc_hash : string;
  rc_status : Z;
  rc_blockNumber : Z;
  rc_gasUsed : Z;
  rc_gasPrice : option Z;
  rc_contractAddress : option string;
  rc_logs : list LogEntry
}.

Record CustomReceipt := {
  cr_hash : string;
  cr_status : bool;
  cr_blockNumber : Z;
  cr_gasUsed : string;
  cr_effectiveGasPrice : string;
  cr_contractAddress : option string;
  cr_events : list LogEntry
}.

(** [transaction.wait(confirmations)] resolves to a receipt or [null], or
    rejects. *)
Record ContractTransactionResponse := {
  tx_hash : string;
  wait : Z -> outcome (option TransactionReceipt)
}.

(** The arguments of one [contract.flagWallet(...)] call. *)
Record FlagCall := {
  fc_wallet : string;
  fc_riskLevelValue : option Z;
  fc_reputationScore : jsnum;
  fc_reason : string;
  fc_gasLimit : Z
}.

Record Contract := {
  flagWalletMethod : FlagCall -> outcome ContractTransactionResponse;
  isWalletFlaggedMethod : string -> outcome bool
}.

(** *** A computation that may throw and that logs the transactions it
    submits *)
Definition M (A : Type) : Type := list FlagCall * outcome A.

Definition ret {A} (a : A) : M A := ([], Ok a).
Definition throw {A} (e : thrown) : M A := ([], Throw e).
Definition bind {A B} (m : M A) (k : A -> M B) : M B :=
  match m with
  | (calls, Ok a) => let '(calls', r) := k a in ((calls ++ calls')%list, r)
  | (calls, Throw e) => (calls, Throw e)
  end.
Definition lift {A} (o : outcome A) : M A := ([], o).
Definition try_catch {A} (body : M A) (handler : thrown -> M A) : M A :=
  match body with
  | (calls, Ok a) => (calls, Ok a)
  | (calls, Throw e) => let '(calls', r) := handler e in ((calls ++ calls')%list, r)
  end.

Notation "'let*' x ':=' m 'in' k" := (bind m (fun x => k))
  (at level 10, x name, m at level 100, k at level 200, only parsing).
Notation "'do' m 'then' k" := (bind m (fun _ => k))
  (at level 10, m at level 100, k at level 200, only parsing).

(** *** Validators *)

Definition isValidScore (score : jsnum) : bool :=
  match score with
  | Finite q => Qle_bool 0 q && Qle_bool q 100
  | _ => false
  end.

Definition isValidRiskLevel (riskLevel : string) : bool :=
  existsb (String.eqb (Codec.toLowerCase riskLevel)) ["low"; "medium"; "high"; "critical"].

(** [validateFlaggingInputs] *)
Definition validateFlaggingInputs (walletAddress riskLevel : string)
    (reputationScore : jsnum) (reason : string) : M unit :=
  let addressValidation := Codec.isValidEthereumAddress walletAddress in
  if negb (Codec.isValid addressValidation) then
    throw (ErrorObject ("Invalid wallet address: "
                          ++ Scoring.join ", " (Codec.errors addressValidation)))
  else if negb (isValidRiskLevel riskLevel) then
    throw (ErrorObject "Invalid risk level")
  else if negb (isValidScore reputationScore) then
    throw (ErrorObject "Invalid reputation score")
  else if String.eqb reason "" || (500 <? String.length reason)%nat then
    throw (ErrorObject "Reason must be between 1 and 500 characters")
  else ret tt.

(** [riskLevelToContractValue]: a lookup in an object keyed by the enum's
    values; any other key yields [undefined]. *)
Definition riskLevelToContractValue (riskLevel : string) : option Z :=
  if String.eqb riskLevel "low" then Some 0%Z
  else if String.eqb riskLevel "medium" then Some 1%Z
  else if String.eqb riskLevel "high" then Some 2%Z
  else if String.eqb riskLevel "critical" then Some 3%Z
  else None.

Definition formatReceipt (r : TransactionReceipt) : CustomReceipt :=
  {| cr_hash := rc_hash r;
     cr_status := (rc_status r =? 1)%Z;
     cr_blockNumber := rc_blockNumber r;
     cr_gasUsed := Features.numberToString (rc_gasUsed r);
     cr_effectiveGasPrice :=
       match rc_gasPrice r with
       | Some p => Features.numberToString p
       | None => "0"
       end;
     cr_contractAddress := rc_contractAddress r;
     cr_events := rc_logs r |}.

Definition formatError (e : thrown) : string :=
  match e with
  | ErrorObject message => message
  | OtherValue rendering => rendering
  end.

(** *** [flagWallet] *)

Record FlagResult := {
  fr_success : bool;
  fr_transactionHash : option string;
  fr_receipt : option CustomReceipt;
  fr_error : option string
}.

Definition defaultReason : string := "Suspicious activity detected".

(** Submitting the call is the one step that is logged. *)
Definition submit (c : Contract) (call : FlagCall) : M ContractTransactionResponse :=
  ([call], flagWalletMethod c call).

Definition flagWallet (contract : option Contract)
    (walletAddress riskLevel : string) (reputationScore : jsnum)
    (reasonArg : option string) : M FlagResult :=
  let reason := default defaultReason reasonArg in
  try_catch
    (do validateFlaggingInputs walletAddress riskLevel reputationScore reason then
     let* c := match contract with
               | Some c => ret c
               | None => throw (ErrorObject "Contract not initialized")
               end in
     let riskLevelValue := riskLevelToContractValue riskLevel in
     let* transaction := submit c {| fc_wallet := walletAddress;
                                     fc_riskLevelValue := riskLevelValue;
                                     fc_reputationScore := reputationScore;
                                     fc_reason := reason;
                                     fc_gasLimit := GAS_LIMIT |} in
     let* receipt := lift (wait transaction CONFIRMATIONS) in
     match receipt with
     | Some r =>
         if (rc_status r =? 1)%Z then
           ret {| fr_success := true;
                  fr_transactionHash := Some (tx_hash transaction);
                  fr_receipt := Some (formatReceipt r);
                  fr_error := None |}
         else
           ret {| fr_success := false;
                  fr_transactionHash := Some (tx_hash transaction);
                  fr_receipt := None;
                  fr_error := Some "Transaction reverted" |}
     | None =>
         ret {| fr_success := false;
                fr_transactionHash := Some (tx_hash transaction);
                fr_receipt := None;
                fr_error := Some "Transaction reverted" |}
     end)
    (fun error =>
       ret {| fr_success := false;
              fr_transactionHash := None;
              fr_receipt := None;
              fr_error := Some (formatError error) |}).

(** *** [isWalletFlagged]: the read either answers or throws. *)
Definition isWalletFlagged (contract : option Contract) (walletAddress : string)
  : outcome bool :=
  match contract with
  | None =>
      Throw (ErrorObject "Failed to check wallet flag: Error: Contract not initialized")
  | Some c =>
      match isWalletFlaggedMethod c walletAddress with
      | Ok isFlagged => Ok isFlagged
      | Throw e =>
          Throw (ErrorObject ("Failed to check wallet flag: "
                                ++ match e with
                                   | ErrorObject m => "Error: " ++ m
                                   | OtherValue r => r
                                   end))
      end
  end.

End Registry.

(* ===================================================================== *)
(** ** Monitor coordinator ([WalletMonitorService]) *)
(* ===================================================================== *)

Module Coordinator.
Import Models.
Local Open Scope Q_scope.

Definition SCORE_UPDATE_THRESHOLD : Q := 5.
Definition FLAGGING_THRESHOLD : Q := 40.

Record WalletMonitoringConfig := {
  includeTransactions : bool;
  includeTokenTransfers : bool;
  includeInternalTransactions : bool;
  fromBlock : option Z
}.

Definition MONITORING_CONFIG : WalletMonitoringConfig :=
  {| includeTransactions := true; includeTokenTransfers := true;
     includeInternalTransactions := false; fromBlock := None |}.

Record WalletMonitor := {
  mon_walletAddress : string;
  startedAt : Z;
  lastActivity : Z;
  eventCount : Z;
  lastScore : option ScoringResult;
  isActive : bool;
  config : WalletMonitoringConfig
}.

Record State := {
  monitoredWallets : gmap string WalletMonitor;
  eventBuffer : gmap string (list WalletEvent)
}.

Definition initial : State := {| monitoredWallets := ∅; eventBuffer := ∅ |}.

(** *** [bufferEvent]

    [buffer.push(event)], then [buffer.splice(0, buffer.length - 500)] once
    the buffer holds more than 1000 events. *)
Definition bufferEvent (st : State) (walletAddress : string) (event : WalletEvent)
  : State :=
  let buffer := (default [] (eventBuffer st !! walletAddress) ++ [event])%list in
  let buffer' :=
    if (1000 <? length buffer)%nat then skipn (length buffer - 500) buffer
    else buffer in
  {| monitoredWallets := monitoredWallets st;
     eventBuffer := <[walletAddress := buffer']> (eventBuffer st) |}.

(** *** [calculateAndUpdateScore], as far as the coordinator's own state
    goes.

    The scoring service is outside the coordinator; [Scoring] says what its
    call did inside the [try] of the method: it returned [sc] and the rest
    of the body ran ([Scored sc]), it returned [sc] and a later statement
    of the body threw, after [monitor.lastScore] was assigned
    ([StoredThenFailed sc]), or it threw itself ([ScoringFailed]).  The
    handler returns [null] in the last two cases. *)
Inductive Scoring :=
  | Scored (sc : ScoringResult)
  | StoredThenFailed (sc : ScoringResult)
  | ScoringFailed.

Definition setLastScore (m : WalletMonitor) (newScore : ScoringResult) : WalletMonitor :=
  {| mon_walletAddress := mon_walletAddress m; startedAt := startedAt m;
     lastActivity := lastActivity m; eventCount := eventCount m;
     lastScore := Some newScore; isActive := isActive m; config := config m |}.

Definition calculateAndUpdateScore (st : State) (walletAddress : string)
    (scoring : Scoring) : option ScoringResult * State :=
  match monitoredWallets st !! walletAddress with
  | None => (None, st)
  | Some monitor =>
      let store newScore :=
        {| monitoredWallets :=
             <[walletAddress := setLastScore monitor newScore]> (monitoredWallets st);
           eventBuffer := eventBuffer st |} in
      match scoring with
      | Scored newScore => (Some newScore, store newScore)
      | StoredThenFailed newScore => (None, store newScore)
      | ScoringFailed => (None, st)
      end
  end.

Definition isSignificantScoreChange (previous current : ScoringResult) : bool :=
  Qle_bool SCORE_UPDATE_THRESHOLD
           (Qabs (reputationScore previous - reputationScore current))
  || negb (bool_decide (riskLevelValue (riskLevel previous)
                        = riskLevelValue (riskLevel current))).

(** *** [startMonitoringWallet]

    [initialScores] are the outcomes of the scoring calls made while the
    monitor is initialised (one per [calculateAndUpdateScore]). *)
Definition newMonitor (normalizedAddress : string) (now : Z)
    (cfg : WalletMonitoringConfig) : WalletMonitor :=
  {| mon_walletAddress := normalizedAddress; startedAt := now; lastActivity := now;
     eventCount := 0; lastScore := None; isActive := true; config := cfg |}.

Definition startMonitoringWallet (st : State) (now : Z) (walletAddress : string)
    (cfg : WalletMonitoringConfig) (initialScores : list Scoring) : State :=
  let validation := Codec.isValidEthereumAddress walletAddress in
  if negb (Codec.isValid validation) then st
  else
    let normalizedAddress := default "" (Codec.normalized validation) in
    match monitoredWallets st !! normalizedAddress with
    | Some _ => st
    | None =>
        let st1 :=
          {| monitoredWallets :=
               <[normalizedAddress := newMonitor normalizedAddress now cfg]>
                 (monitoredWallets st);
             eventBuffer := eventBuffer st |} in
        fold_left (fun s sc => snd (calculateAndUpdateScore s normalizedAddress sc))
                  initialScores st1
    end.

(** *** [stopMonitoringWallet] *)
Definition stopMonitoringWallet (st : State) (walletAddress : string) : State :=
  let validation := Codec.isValidEthereumAddress walletAddress in
  if negb (Codec.isValid validation) then st
  else
    let normalizedAddress := default "" (Codec.normalized validation) in
    match monitoredWallets st !! normalizedAddress with
    | None => st
    | Some _ =>
        {| monitoredWallets := delete normalizedAddress (monitoredWallets st);
           eventBuffer := delete normalizedAddress (eventBuffer st) |}
    end.

(** *** [handleWalletEvent]

    [Dropped] is the early return for an absent or inactive monitor. *)
Inductive Intake := Dropped | Processed.

Definition recordActivity (m : WalletMonitor) (now : Z) : WalletMonitor :=
  {| mon_walletAddress := mon_walletAddress m; startedAt := startedAt m;
     lastActivity := now; eventCount := eventCount m + 1;
     lastScore := lastScore m; isActive := isActive m; config := config m |}.

Definition handleWalletEvent (st : State) (now : Z) (walletAddress : string)
    (event : WalletEvent) (newScore : Scoring) : Intake * State :=
  match monitoredWallets st !! walletAddress with
  | None => (Dropped, st)
  | Some monitor =>
      if negb (isActive monitor) then (Dropped, st)
      else
        let st1 :=
          {| monitoredWallets :=
               <[walletAddress := recordActivity monitor now]> (monitoredWallets st);
             eventBuffer := eventBuffer st |} in
        (* processSingleEvent *)
        let st2 := snd (calculateAndUpdateScore st1 walletAddress newScore) in
        (Processed, bufferEvent st2 walletAddress event)
  end.

(** *** [recalculateScore] *)
Definition recalculateScore (st : State) (walletAddress : string)
    (newScore : Scoring) : State :=
  let validation := Codec.isValidEthereumAddress walletAddress in
  if negb (Codec.isValid validation) then st
  else snd (calculateAndUpdateScore st (default "" (Codec.normalized validation)) newScore).

(** *** [checkAndFlagWallet] *)

Inductive Action :=
  | QueryFlagged (walletAddress : string)
  | InvokeFlag (walletAddress riskLevel : string) (reputationScore : Q) (reason : string)
      (submitted : list Registry.FlagCall)
  | BroadcastFlagged (walletAddress : string) (riskLevel : RiskLevel)
      (reputationScore : Q) (transactionHash : option string).

Definition is_critical (r : RiskLevel) : bool :=
  match r with CRITICAL => true | _ => false end.

Definition checkAndFlagWallet (contract : option Registry.Contract)
    (walletAddress : string) (sc : ScoringResult) : list Action :=
  if Features.Qltb (reputationScore sc) FLAGGING_THRESHOLD && is_critical (riskLevel sc)
  then
    match Registry.isWalletFlagged contract walletAddress with
    | Registry.Throw _ => [QueryFlagged walletAddress]
    | Registry.Ok true => [QueryFlagged walletAddress]
    | Registry.Ok false =>
        let reason :=
          if String.eqb (explanation sc) "" then "Critical risk score detected"
          else explanation sc in
        let level := riskLevelValue (riskLevel sc) in
        let '(submitted, flagResult) :=
          Registry.flagWallet contract walletAddress level
            (Registry.Finite (reputationScore sc)) (Some reason) in
        [QueryFlagged walletAddress;
         InvokeFlag walletAddress level (reputationScore sc) reason submitted]
          ++ match flagResult with
             | Registry.Ok r =>
                 if Registry.fr_success r
                 then [BroadcastFlagged walletAddress (riskLevel sc) (reputationScore sc)
                         (Registry.fr_transactionHash r)]
                 else []
             | Registry.Throw _ => []
             end
    end
  else [].

(** *** [processBufferedEvents]

    One tick over the buffered wallets, in the iteration order of the
    buffer map; [scoreOf] stands for the outcomes of the scoring calls. *)
Definition processWallet (contract : option Registry.Contract)
    (scoreOf : string -> list WalletEvent -> Scoring)
    (acc : State * list Action) (entry : string * list WalletEvent)
  : State * list Action :=
  let '(st, actions) := acc in
  let '(walletAddress, events) := entry in
  match events with
  | [] => acc
  | _ =>
      let '(newScore, st1) :=
        calculateAndUpdateScore st walletAddress (scoreOf walletAddress events) in
      let actions' :=
        match newScore with
        | Some sc => checkAndFlagWallet contract walletAddress sc
        | None => []
        end in
      ({| monitoredWallets := monitoredWallets st1;
          eventBuffer := <[walletAddress := []]> (eventBuffer st1) |},
       (actions ++ actions')%list)
  end.

Definition processBufferedEvents (contract : option Registry.Contract)
    (scoreOf : string -> list WalletEvent -> Scoring) (st : State)
  : State * list Action :=
  fold_left (processWallet contract scoreOf) (map_to_list (eventBuffer st)) (st, []).

(** *** [cleanup] *)
Definition cleanup (st : State) : State := initial.

(** *** The operations of the service as a transition relation *)
Inductive step : State -> State -> Prop :=
  | step_start st now w cfg scores :
      step st (startMonitoringWallet st now w cfg scores)
  | step_stop st w :
      step st (stopMonitoringWallet st w)
  | step_event st now w ev sc :
      step st (snd (handleWalletEvent st now w ev sc))
  | step_rescore st w sc :
      step st (recalculateScore st w sc)
  | step_batch st contract scoreOf :
      step st (fst (processBufferedEvents contract scoreOf st))
  | step_cleanup st :
      step st (cleanup st).

Inductive reachable : State -> Prop :=
  | reachable_initial : reachable initial
  | reachable_step st st' : reachable st -> step st st' -> reachable st'.

End Coordinator.

(* ===================================================================== *)
(** ** A concrete runtime for evaluating the model

    Rational approximations of the [Math] functions, exact on the powers of
    the base (so [log10 10 = 1], [log2 1 = 0]).  They serve to run the
    model on concrete inputs; statements that hold for every runtime are
    stated for an arbitrary [Runtime]. *)
(* ===================================================================== *)

Module ApproxRuntime.
Import Models.
Local Open Scope Q_scope.

(** Truncation to 64 binary digits, to keep the rationals small. *)
Definition trunc (q : Q) : Q := Qfloor (q * inject_Z (2 ^ 64)) # (2 ^ 64).

(** Bring [x] into [1, b) and count the powers of [b] taken out. *)
Fixpoint normalize (fuel : nat) (b x : Q) (n : Z) : Q * Z :=
  match fuel with
  | O => (x, n)
  | S fuel' =>
      if Qle_bool b x then normalize fuel' b (x / b) (n + 1)
      else if Features.Qltb x 1 then normalize fuel' b (x * b) (n - 1)
      else (x, n)
  end.

(** The binary digits of [log_b y] for [1 <= y < b], by repeated squaring. *)
Fixpoint log_fraction (bits : nat) (b y w : Q) : Q :=
  match bits with
  | O => 0
  | S bits' =>
      let y2 := trunc (y * y) in
      if Qle_bool b y2 then w + log_fraction bits' b (trunc (y2 / b)) (w / 2)
      else log_fraction bits' b y2 (w / 2)
  end.

Definition log_base (b x : Q) : Q :=
  if Qle_bool x 0 then 0
  else
    let '(y, n) := normalize 2000 b (Qred x) 0 in
    Qred (inject_Z n + log_fraction 48 b (Qred y) (1 # 2)).

Definition ln2 : Q := 0.6931471805599453.
Definition euler : Q := 2.718281828459045.

Fixpoint exp_series (terms : nat) (x term : Q) (k : Z) : Q :=
  match terms with
  | O => 0
  | S terms' => term + exp_series terms' x (trunc (term * x / inject_Z k)) (k + 1)
  end.

Definition exp_approx (x : Q) : Q :=
  let n := Qfloor x in
  let r := x - inject_Z n in
  Qred (trunc (Qpower euler n) * exp_series 24 r 1 1).

Definition runtime (tz : Z) : Runtime :=
  {| Math_log10 := log_base 10;
     Math_log := fun x => Qred (log_base 2 x * ln2);
     Math_log2 := log_base 2;
     Math_exp := exp_approx;
     tzOffsetMs := tz |}.

End ApproxRuntime.
(* ===================================================================== *)
(** ** Request validation ([Validators]) *)
(* ===================================================================== *)

Module Validators.
Import Codec.

(** [/^[a-zA-Z0-9_-]{8,64}$/] *)
Definition is_session_char (c : ascii) : bool :=
  between 97 122 c || between 65 90 c || is_digit c
  || Ascii.eqb c "_" || Ascii.eqb c "-".

Definition isValidSessionId (sessionId : string) : bool :=
  let cs := list_ascii_of_string sessionId in
  (8 <=? length cs)%nat && (length cs <=? 64)%nat && forallb is_session_char cs.

(** [/^0x[a-fA-F0-9]{64}$/] *)
Definition isValidTransactionHash (hash : string) : bool :=
  match list_ascii_of_string hash with
  | c0 :: c1 :: body =>
      Ascii.eqb c0 "0" && Ascii.eqb c1 "x" &&
      Nat.eqb (length body) 64 && forallb is_hex_digit body
  | _ => false
  end.

(** [SubscribeWalletRequest]; an absent optional property is [None]. *)
Record SubscribeWalletRequest := {
  wallet : string;
  sessionId : option string;
  includeTransactions : option bool
}.

Record RequestValidation := {
  rv_isValid : bool;
  rv_errors : list string;
  rv_normalized : SubscribeWalletRequest
}.

(** [a || b] on strings *)
Definition orElse (a : option string) (b : string) : string :=
  match a with
  | Some s => if String.eqb s "" then b else s
  | None => b
  end.

Definition validateWalletRequest (request : SubscribeWalletRequest)
  : RequestValidation :=
  let addressValidation := isValidEthereumAddress (wallet request) in
  let errors1 :=
    if isValid addressValidation then [] else errors addressValidation in
  let errors2 :=
    match sessionId request with
    | Some s =>
        if negb (String.eqb s "") && negb (isValidSessionId s)
        then ["Invalid session ID format"] else []
    | None => []
    end in
  let errors := (errors1 ++ errors2)%list in
  {| rv_isValid := match errors with [] => true | _ => false end;
     rv_errors := errors;
     rv_normalized :=
       {| wallet := orElse (normalized addressValidation) (wallet request);
          sessionId := sessionId request;
          includeTransactions := includeTransactions request |} |}.

End Validators.
(* ===================================================================== *)
(** ** General helpers ([Helpers]) *)
(* ===================================================================== *)

Module Helpers.
Import Registry.
Local Open Scope Q_scope.

(** [Math.random()] is a source of rationals in [[0, 1)]; the [i]-th draw
    of a call is [rand i]. *)
Definition Random : Type := nat -> Q.

(** [n.toString(16)] on an integer *)
Definition toString16 (n : Z) : string :=
  HexadecimalString.NilZero.string_of_int (Z.to_hex_int n).

(** [Array.from({ length }, () => Math.floor(Math.random() * 16).toString(16))
    .join('')] *)
Definition randomHex (rand : Random) (length : nat) : string :=
  Scoring.join "" (map (fun i => toString16 (Qfloor (rand i * 16))) (seq 0 length)).

Definition generateRandomHash (rand : Random) : string :=
  String.append "0x" (randomHex rand 64).

Definition generateRandomAddress (rand : Random) : string :=
  String.append "0x" (randomHex rand 40).

(** [exponentialBackoff(attempt, baseDelay = 1000, maxDelay = 30000)], for
    an integer [attempt].  The rational value is that of the code for
    attempts 1 to 1024, where [Math.pow(2, attempt - 1)] is an exact,
    finite power of two. *)
Definition exponentialBackoff (attempt : Z) (baseDelay maxDelay : Q) : Q :=
  let delay := baseDelay * Qpower 2 (attempt - 1) in
  Qmin delay maxDelay.

(** *** [retry]

    [fn] may answer differently each time it is called: [fn k] is the
    outcome of its [k]-th call.  The result carries the number of calls
    made and the delays waited, in order.

    The handler reads [this.exponentialBackoff]: [onClass] says whether
    the method is called on the class, as [Helpers.retry(...)]; the
    function exported on its own has no receiver, and the read throws a
    [TypeError] out of the handler. *)
Record Retried (T : Type) := {
  calls : nat;
  waited : list Q;
  result : outcome T
}.
Arguments calls {T} _.
Arguments waited {T} _.
Arguments result {T} _.

Definition noReceiver : thrown :=
  ErrorObject "Cannot read properties of undefined (reading 'exponentialBackoff')".

(** The [for] loop from [attempt] on, with [remaining] iterations to go. *)
Fixpoint retryFrom {T} (onClass : bool) (fn : nat -> outcome T) (maxAttempts : Z)
    (baseDelay : Q) (remaining : nat) (attempt : Z) (lastError : thrown)
    (made : nat) (delays : list Q) : Retried T :=
  match remaining with
  | O => {| calls := made; waited := delays; result := Throw lastError |}
  | S remaining' =>
      match fn (S made) with
      | Ok value => {| calls := S made; waited := delays; result := Ok value |}
      | Throw error =>
          if (attempt <? maxAttempts)%Z then
            if onClass then
              retryFrom onClass fn maxAttempts baseDelay remaining' (attempt + 1)%Z
                        error (S made)
                        (delays ++ [exponentialBackoff attempt baseDelay 30000])%list
            else {| calls := S made; waited := delays; result := Throw noReceiver |}
          else
            retryFrom onClass fn maxAttempts baseDelay remaining' (attempt + 1)%Z
                      error (S made) delays
      end
  end.

(** [retry(fn, maxAttempts = 3, baseDelay = 1000)], for an integer
    [maxAttempts]; an unassigned [lastError] is [undefined]. *)
Definition retry {T} (onClass : bool) (fn : nat -> outcome T) (maxAttempts : Z)
    (baseDelay : Q) : Retried T :=
  retryFrom onClass fn maxAttempts baseDelay (Z.to_nat maxAttempts) 1%Z
            (OtherValue "undefined") O [].

End Helpers.
(* ===================================================================== *)
(** ** Feature extraction: history access and normalization
       ([FeatureProcessor], continued) *)
(* ===================================================================== *)

Module FeatureOps.
Import Models Features.
Local Open Scope Q_scope.

(** [clearHistory] *)
Definition clearHistory (history : gmap string (list WalletEvent))
    (walletAddress : string) : gmap string (list WalletEvent) :=
  delete walletAddress history.

(** [getHistorySize]: [this.transactionHistory.get(walletAddress)?.length || 0] *)
Definition getHistorySize (history : gmap string (list WalletEvent))
    (walletAddress : string) : nat :=
  match history !! walletAddress with
  | Some events => length events
  | None => 0
  end.

(** [normalizeFeature] *)
Definition normalizeFeature (value min max : Q) : Q :=
  if Qeq_bool max min then 0
  else Qmax 0 (Qmin 1 ((value - min) / (max - min))).

(** [normalizeFeatures]: the twenty features, each scaled to its range. *)
Definition normalizeFeatures (features : FeatureVector) : list Q :=
  [ normalizeFeature (transactionCount features) 0 10000;
    normalizeFeature (transactionsPerDay features) 0 100;
    normalizeFeature (avgTransactionValue features) 0 1000;
    normalizeFeature (maxTransactionValue features) 0 10000;
    normalizeFeature (minTransactionValue features) 0 1000;
    normalizeFeature (accountAgeDays features) 0 (365 * 5);
    normalizeFeature (daysSinceLastTx features) 0 365;
    normalizeFeature (activeDays features) 0 (365 * 2);
    normalizeFeature (uniqueCounterparties features) 0 1000;
    normalizeFeature (contractInteractions features) 0 1000;
    normalizeFeature (failedTransactions features) 0 100;
    normalizeFeature (gasUsagePattern features) 0 1;
    normalizeFeature (totalVolume features) 0 1000000;
    normalizeFeature (balance features) 0 100000;
    normalizeFeature (avgGasPrice features) 0 1000;
    normalizeFeature (valueConcentration features) 0 1;
    normalizeFeature (timeDistribution features) 0 1;
    normalizeFeature (activityConsistency features) 0 1;
    normalizeFeature (clusteringCoefficient features) 0 1;
    normalizeFeature (pageRank features) 0 1 ].

End FeatureOps.
(* ===================================================================== *)
(** ** Scoring engine: the blacklist ([ScoringService.loadBlacklist]) *)
(* ===================================================================== *)

Module ScoringOps.
Import Models Features Scoring.

(** [loadBlacklist]: the addresses of the blacklist file, lower-cased; a
    file that cannot be read ([None]) leaves the set empty. *)
Definition loadBlacklist (blacklistData : option (list string)) : gset string :=
  match blacklistData with
  | Some data => list_to_set (map Codec.toLowerCase data)
  | None => ∅
  end.

(** The service after [this.blacklist = ...]. *)
Definition withBlacklist (svc : ScoringService) (entries : gset string)
  : ScoringService :=
  {| model := model svc; featureNames := featureNames svc; blacklist := entries |}.

(** Whether a [case] label starts or ends with a white-space character. *)
Definition blankWrapped (label : string) : bool :=
  match list_ascii_of_string label with
  | [] => false
  | c :: rest => is_space c || is_space (List.last rest c)
  end.

(** The [switch] of [mapFeaturesToModelFormat] without the labels that
    start or end with a blank. *)
Definition reachableFeatureCases : list (list string * (FeatureVector -> Q)) :=
  map (fun c => (List.filter (fun label => negb (blankWrapped label)) (fst c), snd c))
      modelFeatureCases.

End ScoringOps.
(* ===================================================================== *)
(** ** Broadcast hub: housekeeping ([WebSocketService], continued) *)
(* ===================================================================== *)

Module HubMaintenance.
Import Models Hub.

(** [Object.values(WSMessageType)] *)
Definition messageTypeValues : list string :=
  ["score_update"; "transaction_alert"; "wallet_flagged"; "error"; "heartbeat";
   "subscribe"; "unsubscribe"].

(** [handleGenericMessage], registered with [socket.onAny]: it sees every
    event of the socket, whatever other handler the event has. *)
Definition handleGenericMessage (gen : IdGen) (now : Z)
    (connection : WebSocketConnection) (eventName : string)
  : WebSocketConnection * list Emit :=
  let c := touch connection now in
  (c,
   if negb (existsb (String.eqb eventName) messageTypeValues)
   then sendErrorMessage gen now c "UNKNOWN_EVENT"
          ("Unknown event type: " ++ eventName)
   else []).

(** [handleError] *)
Definition handleError (gen : IdGen) (now : Z) (st : State) (connectionId : string)
  : list Emit :=
  match findConnection st connectionId with
  | Some connection =>
      sendErrorMessage gen now connection "CONNECTION_ERROR" "Connection error occurred"
  | None => []
  end.

(** *** [cleanupStaleConnections]

    A connection is stale when its last activity is more than
    [CONNECTION_TIMEOUT] ago; stale connections are disconnected and
    dropped from both tables.  The result lists the ids disconnected. *)
Definition isStale (now : Z) (c : WebSocketConnection) : bool :=
  (CONNECTION_TIMEOUT <? now - lastActivity c)%Z.

Definition cleanupStaleConnections (now : Z) (st : State) : State * list string :=
  let stale := List.filter (isStale now) (connections st) in
  ({| io := io st;
      connections := List.filter (fun c => negb (isStale now c)) (connections st);
      messageCounts :=
        fold_left (fun counts c => delete (id c) counts) stale (messageCounts st) |},
   map id stale).

(** *** [getConnectionStats] *)
Record ConnectionStats := {
  totalConnections : nat;
  totalSubscriptions : nat;
  activeSubscriptions : nat
}.

Definition getConnectionStats (st : State) : ConnectionStats :=
  {| totalConnections := length (connections st);
     totalSubscriptions :=
       fold_left (fun total c => (total + size (subscribedWallets c))%nat)
                 (connections st) 0%nat;
     activeSubscriptions :=
       size (fold_left (fun uniqueWallets c => uniqueWallets ∪ subscribedWallets c)
                       (connections st) (∅ : gset string)) |}.

(** [healthCheck], without the memory figures *)
Definition healthCheck (st : State) : bool * ConnectionStats :=
  (io st, getConnectionStats st).

(** [cleanup]: every client is disconnected and both tables are cleared;
    the server handle [io] stays. *)
Definition cleanup (st : State) : State * list string :=
  ({| io := io st; connections := []; messageCounts := ∅ |},
   map id (connections st)).

(** *** The socket events of one connection

    [onPing] is what a client [ping] event does to the hub state through
    [handlePing] ([lastActivity] only; the [pong] reply is not a protocol
    message). *)
Definition onPing (now : Z) (st : State) (connectionId : string) : State :=
  match findConnection st connectionId with
  | None => st
  | Some connection =>
      {| io := io st;
         connections := replaceConnection (touch connection now) (connections st);
         messageCounts := messageCounts st |}
  end.

End HubMaintenance.
(* ===================================================================== *)
(** ** Flag registry client: the other calls ([ContractService], continued) *)
(* ===================================================================== *)

Module RegistryOps.
Import Models Registry.

(** [contractValueToRiskLevel]: a lookup keyed 0..3, with [RiskLevel.MEDIUM]
    for any other value ([None] is [undefined]). *)
Definition contractValueToRiskLevel (value : option Z) : string :=
  match value with
  | Some 0%Z => "low"
  | Some 1%Z => "medium"
  | Some 2%Z => "high"
  | Some 3%Z => "critical"
  | _ => "medium"
  end.

(** The write methods of the contract handle besides [flagWallet]. *)
Record WriteMethods := {
  unflagWalletMethod : string -> outcome ContractTransactionResponse;
  updateRiskLevelMethod : string -> option Z -> outcome ContractTransactionResponse
}.

(** One call submitted to the contract. *)
Inductive Submitted :=
  | SubmitUnflag (wallet : string) (gasLimit : Z)
  | SubmitUpdateRiskLevel (wallet : string) (riskLevelValue : option Z) (gasLimit : Z).

Record WriteResult := {
  wr_success : bool;
  wr_transactionHash : option string;
  wr_error : option string
}.

(** The part both methods share: wait for the confirmations and report. *)
Definition confirm (submitted : outcome ContractTransactionResponse)
  : outcome WriteResult :=
  match submitted with
  | Throw e => Throw e
  | Ok transaction =>
      match wait transaction CONFIRMATIONS with
      | Throw e => Throw e
      | Ok (Some r) =>
          if (rc_status r =? 1)%Z
          then Ok {| wr_success := true;
                     wr_transactionHash := Some (tx_hash transaction);
                     wr_error := None |}
          else Ok {| wr_success := false;
                     wr_transactionHash := Some (tx_hash transaction);
                     wr_error := Some "Transaction reverted" |}
      | Ok None =>
          Ok {| wr_success := false;
                wr_transactionHash := Some (tx_hash transaction);
                wr_error := Some "Transaction reverted" |}
      end
  end.

(** The [catch] of both methods. *)
Definition caught (body : outcome WriteResult) : outcome WriteResult :=
  match body with
  | Ok r => Ok r
  | Throw error =>
      Ok {| wr_success := false; wr_transactionHash := None;
            wr_error := Some (formatError error) |}
  end.

(** [unflagWallet]: the address is passed to the validator, whose answer is
    not looked at. *)
Definition unflagWallet (contract : option WriteMethods) (walletAddress : string)
  : list Submitted * outcome WriteResult :=
  let _ := Codec.isValidEthereumAddress walletAddress in
  match contract with
  | None => ([], caught (Throw (ErrorObject "Contract not initialized")))
  | Some c =>
      ([SubmitUnflag walletAddress GAS_LIMIT],
       caught (confirm (unflagWalletMethod c walletAddress)))
  end.

(** [updateRiskLevel] *)
Definition updateRiskLevel (contract : option WriteMethods)
    (walletAddress riskLevel : string) : list Submitted * outcome WriteResult :=
  let _ := Codec.isValidEthereumAddress walletAddress in
  match contract with
  | None => ([], caught (Throw (ErrorObject "Contract not initialized")))
  | Some c =>
      let riskLevelValue := riskLevelToContractValue riskLevel in
      ([SubmitUpdateRiskLevel walletAddress riskLevelValue GAS_LIMIT],
       caught (confirm (updateRiskLevelMethod c walletAddress riskLevelValue)))
  end.

End RegistryOps.
(* ===================================================================== *)
(** ** The flag registry contract ([WalletFlagger.sol]) *)
(* ===================================================================== *)

(** The contract the registry client talks to.  Storage is a record; an
    external function takes [msg.sender] and [block.timestamp] as
    arguments and returns the new storage with the events it emitted, or
    reverts.  [uint256] values are integers; the checked addition of
    Solidity 0.8 is written out ([Panic 0x11] on overflow).  A mapping is a
    finite map read with the zero value as default, so that [delete] on a
    mapping entry is deletion from the map. *)
Module WalletFlagger.
Local Open Scope Z_scope.
Local Open Scope list_scope.

Definition address : Type := Z.

Definition UINT256_MAX : Z := 2 ^ 256 - 1.

Inductive RiskLevel := LOW | MEDIUM | HIGH | CRITICAL.

(** [uint(riskLevel)] *)
Definition levelIndex (l : RiskLevel) : Z :=
  match l with LOW => 0 | MEDIUM => 1 | HIGH => 2 | CRITICAL => 3 end.

Record WalletFlag := {
  isFlagged : bool;
  riskLevel : RiskLevel;
  reputationScore : Z;
  flaggedAt : Z;
  expiresAt : Z;
  flaggedBy : address;
  reason : string
}.

(** The zero value of the struct: what an untouched or deleted mapping
    entry reads as. *)
Definition noFlag : WalletFlag :=
  {| isFlagged := false; riskLevel := LOW; reputationScore := 0; flaggedAt := 0;
     expiresAt := 0; flaggedBy := 0; reason := "" |}.

Record Storage := {
  owner : address;
  soklinBackend : address;
  flaggedWallets : gmap address WalletFlag;
  authorizedFlaggers : gmap address bool;
  riskLevelThresholds : RiskLevel -> Z;
  allFlaggedWallets : list address
}.

Inductive Event :=
  | WalletFlagged (wallet : address) (level : RiskLevel) (score expires : Z)
      (by_ : address) (why : string)
  | WalletUnflagged (wallet by_ : address)
  | RiskLevelUpdated (wallet : address) (newRiskLevel : RiskLevel)
  | BackendUpdated (oldBackend newBackend : address)
  | FlaggerAuthorized (flagger : address) (authorized : bool).

(** *** Calls that may revert *)

Inductive Result (A : Type) :=
  | Success (a : A)
  | Revert (message : string)
  | Panic (code : Z).
Arguments Success {A} a.
Arguments Revert {A} message.
Arguments Panic {A} code.

#[global] Instance Result_ret : MRet Result := fun A a => Success a.
#[global] Instance Result_bind : MBind Result := fun A B k r =>
  match r with
  | Success a => k a
  | Revert m => Revert m
  | Panic c => Panic c
  end.

Definition require (condition : bool) (message : string) : Result unit :=
  if condition then Success tt else Revert message.

(** [a + b] on [uint256] *)
Definition checked_add (a b : Z) : Result Z :=
  if (a + b <=? UINT256_MAX)%Z then Success (a + b)%Z else Panic 0x11.

(** *** Constants *)
Definition days : Z := 86400.
Definition DEFAULT_FLAG_DURATION : Z := 30 * days.
Definition MAX_FLAG_DURATION : Z := 365 * days.
Definition MIN_REPUTATION_SCORE : Z := 0.
Definition MAX_REPUTATION_SCORE : Z := 100.

(** *** Storage access *)

Definition flagOf (s : Storage) (wallet : address) : WalletFlag :=
  default noFlag (flaggedWallets s !! wallet).

Definition isAuthorizedFlagger (s : Storage) (a : address) : bool :=
  default false (authorizedFlaggers s !! a).

Definition setFlag (s : Storage) (wallet : address) (f : WalletFlag) : Storage :=
  {| owner := owner s; soklinBackend := soklinBackend s;
     flaggedWallets := <[wallet := f]> (flaggedWallets s);
     authorizedFlaggers := authorizedFlaggers s;
     riskLevelThresholds := riskLevelThresholds s;
     allFlaggedWallets := allFlaggedWallets s |}.

(** *** Modifiers *)

Definition onlyOwner (s : Storage) (sender : address) : Result unit :=
  require (bool_decide (sender = owner s)) "WalletFlagger: caller is not owner".

Definition onlyAuthorized (s : Storage) (sender : address) : Result unit :=
  require (bool_decide (sender = owner s)
           || bool_decide (sender = soklinBackend s)
           || isAuthorizedFlagger s sender)
          "WalletFlagger: not authorized".

Definition notFlagged (s : Storage) (wallet : address) : Result unit :=
  require (negb (isFlagged (flagOf s wallet))) "WalletFlagger: wallet already flagged".

Definition isFlaggedModifier (s : Storage) (wallet : address) : Result unit :=
  require (isFlagged (flagOf s wallet)) "WalletFlagger: wallet not flagged".

Definition validRiskLevel (l : RiskLevel) : Result unit :=
  require (levelIndex l <=? levelIndex CRITICAL)%Z "WalletFlagger: invalid risk level".

Definition validReputationScore (score : Z) : Result unit :=
  require ((MIN_REPUTATION_SCORE <=? score)%Z && (score <=? MAX_REPUTATION_SCORE)%Z)
          "WalletFlagger: invalid reputation score".

(** *** Constructor *)
Definition constructor (sender : address) : Storage :=
  {| owner := sender;
     soklinBackend := sender;
     flaggedWallets := ∅;
     authorizedFlaggers := {[ sender := true ]};
     riskLevelThresholds :=
       (fun l => match l with LOW => 70 | MEDIUM => 50 | HIGH => 30 | CRITICAL => 0 end);
     allFlaggedWallets := [] |}.

(** *** Internal functions *)

Definition _calculateRiskLevel (s : Storage) (score : Z) : RiskLevel :=
  if (riskLevelThresholds s LOW <=? score)%Z then LOW
  else if (riskLevelThresholds s MEDIUM <=? score)%Z then MEDIUM
  else if (riskLevelThresholds s HIGH <=? score)%Z then HIGH
  else CRITICAL.

Definition _calculateFlagDuration (l : RiskLevel) : Z :=
  match l with
  | CRITICAL => 365 * days
  | HIGH => 180 * days
  | MEDIUM => 90 * days
  | LOW => 30 * days
  end.

Definition _flagSingleWallet (s : Storage) (sender : address) (now : Z)
    (wallet : address) (score : Z) (why : string) : Result (Storage * list Event) :=
  let level := _calculateRiskLevel s score in
  expires ← checked_add now (_calculateFlagDuration level);
  let s' := setFlag s wallet
              {| isFlagged := true; riskLevel := level; reputationScore := score;
                 flaggedAt := now; expiresAt := expires; flaggedBy := sender;
                 reason := why |} in
  mret ({| owner := owner s'; soklinBackend := soklinBackend s';
           flaggedWallets := flaggedWallets s';
           authorizedFlaggers := authorizedFlaggers s';
           riskLevelThresholds := riskLevelThresholds s';
           allFlaggedWallets := allFlaggedWallets s' ++ [wallet] |},
        [WalletFlagged wallet level score expires sender why]).

Definition _unflagWallet (s : Storage) (sender : address) (wallet : address)
  : Storage * list Event :=
  ({| owner := owner s; soklinBackend := soklinBackend s;
      flaggedWallets := delete wallet (flaggedWallets s);
      authorizedFlaggers := authorizedFlaggers s;
      riskLevelThresholds := riskLevelThresholds s;
      allFlaggedWallets := allFlaggedWallets s |},
   [WalletUnflagged wallet sender]).

Definition _isWalletFlagged (s : Storage) (now : Z) (wallet : address) : bool :=
  let flag := flagOf s wallet in
  if negb (isFlagged flag) then false
  else if (expiresAt flag <? now)%Z then false
  else true.

(** *** External functions *)

(** The body of [flagWallet] is written out in the contract as it is in
    [_flagSingleWallet]. *)
Definition flagWallet (s : Storage) (sender : address) (now : Z)
    (wallet : address) (score : Z) (why : string) : Result (Storage * list Event) :=
  _ ← onlyAuthorized s sender;
  _ ← notFlagged s wallet;
  _ ← validReputationScore score;
  _flagSingleWallet s sender now wallet score why.

Fixpoint batchFlagLoop (s : Storage) (sender : address) (now : Z)
    (wallets : list address) (scores : list Z) (reasons : list string)
    (emitted : list Event) : Result (Storage * list Event) :=
  match wallets, scores, reasons with
  | wallet :: wallets', score :: scores', why :: reasons' =>
      if negb (isFlagged (flagOf s wallet)) then
        r ← _flagSingleWallet s sender now wallet score why;
        batchFlagLoop r.1 sender now wallets' scores' reasons' (emitted ++ r.2)
      else batchFlagLoop s sender now wallets' scores' reasons' emitted
  | _, _, _ => mret (s, emitted)
  end.

Definition batchFlagWallets (s : Storage) (sender : address) (now : Z)
    (wallets : list address) (scores : list Z) (reasons : list string)
  : Result (Storage * list Event) :=
  _ ← onlyAuthorized s sender;
  _ ← require (Nat.eqb (length wallets) (length scores)
               && Nat.eqb (length wallets) (length reasons))
              "WalletFlagger: array length mismatch";
  batchFlagLoop s sender now wallets scores reasons [].

Definition unflagWallet (s : Storage) (sender : address) (wallet : address)
  : Result (Storage * list Event) :=
  _ ← onlyAuthorized s sender;
  _ ← isFlaggedModifier s wallet;
  mret (_unflagWallet s sender wallet).

Definition unflagStep (sender : address) (acc : Storage * list Event)
    (wallet : address) : Storage * list Event :=
  if isFlagged (flagOf acc.1 wallet)
  then let r := _unflagWallet acc.1 sender wallet in (r.1, acc.2 ++ r.2)
  else acc.

Definition batchUnflagWallets (s : Storage) (sender : address)
    (wallets : list address) : Result (Storage * list Event) :=
  _ ← onlyAuthorized s sender;
  mret (fold_left (unflagStep sender) wallets (s, [])).

Definition updateRiskLevel (s : Storage) (sender : address) (now : Z)
    (wallet : address) (newRiskLevel : RiskLevel) : Result (Storage * list Event) :=
  _ ← onlyAuthorized s sender;
  _ ← isFlaggedModifier s wallet;
  _ ← validRiskLevel newRiskLevel;
  let f := flagOf s wallet in
  expires ← checked_add now (_calculateFlagDuration newRiskLevel);
  mret (setFlag s wallet
          {| isFlagged := isFlagged f; riskLevel := newRiskLevel;
             reputationScore := reputationScore f; flaggedAt := flaggedAt f;
             expiresAt := expires; flaggedBy := flaggedBy f; reason := reason f |},
        [RiskLevelUpdated wallet newRiskLevel]).

Definition isWalletFlagged (s : Storage) (now : Z) (wallet : address) : bool :=
  _isWalletFlagged s now wallet.

Definition getWalletFlag (s : Storage) (wallet : address) : WalletFlag :=
  flagOf s wallet.

Definition getAllFlaggedWallets (s : Storage) : list address := allFlaggedWallets s.

Definition getActiveFlaggedCount (s : Storage) (now : Z) : Z :=
  fold_left (fun count wallet =>
               if _isWalletFlagged s now wallet then (count + 1)%Z else count)
            (allFlaggedWallets s) 0%Z.

Definition cleanupStep (sender : address) (now : Z) (acc : Storage * list Event)
    (wallet : address) : Storage * list Event :=
  if isFlagged (flagOf acc.1 wallet) && (expiresAt (flagOf acc.1 wallet) <? now)%Z
  then let r := _unflagWallet acc.1 sender wallet in (r.1, acc.2 ++ r.2)
  else acc.

Definition cleanupExpiredFlags (s : Storage) (sender : address) (now : Z)
  : Storage * list Event :=
  fold_left (cleanupStep sender now) (allFlaggedWallets s) (s, []).

(** *** Admin functions *)

Definition updateSoklinBackend (s : Storage) (sender : address) (newBackend : address)
  : Result (Storage * list Event) :=
  _ ← onlyOwner s sender;
  _ ← require (negb (bool_decide (newBackend = 0%Z)))
              "WalletFlagger: invalid backend address";
  mret ({| owner := owner s; soklinBackend := newBackend;
           flaggedWallets := flaggedWallets s;
           authorizedFlaggers := authorizedFlaggers s;
           riskLevelThresholds := riskLevelThresholds s;
           allFlaggedWallets := allFlaggedWallets s |},
        [BackendUpdated (soklinBackend s) newBackend]).

Definition setFlaggerAuthorization (s : Storage) (sender : address)
    (flagger : address) (authorized : bool) : Result (Storage * list Event) :=
  _ ← onlyOwner s sender;
  mret ({| owner := owner s; soklinBackend := soklinBackend s;
           flaggedWallets := flaggedWallets s;
           authorizedFlaggers := <[flagger := authorized]> (authorizedFlaggers s);
           riskLevelThresholds := riskLevelThresholds s;
           allFlaggedWallets := allFlaggedWallets s |},
        [FlaggerAuthorized flagger authorized]).

Definition updateRiskThreshold (s : Storage) (sender : address)
    (level : RiskLevel) (threshold : Z) : Result (Storage * list Event) :=
  _ ← onlyOwner s sender;
  _ ← validRiskLevel level;
  _ ← validReputationScore threshold;
  mret ({| owner := owner s; soklinBackend := soklinBackend s;
           flaggedWallets := flaggedWallets s;
           authorizedFlaggers := authorizedFlaggers s;
           riskLevelThresholds :=
             (fun l => if bool_decide (levelIndex l = levelIndex level)
                       then threshold else riskLevelThresholds s l);
           allFlaggedWallets := allFlaggedWallets s |},
        []).

Definition transferOwnership (s : Storage) (sender : address) (newOwner : address)
  : Result (Storage * list Event) :=
  _ ← onlyOwner s sender;
  _ ← require (negb (bool_decide (newOwner = 0%Z)))
              "WalletFlagger: invalid owner address";
  mret ({| owner := newOwner; soklinBackend := soklinBackend s;
           flaggedWallets := flaggedWallets s;
           authorizedFlaggers := authorizedFlaggers s;
           riskLevelThresholds := riskLevelThresholds s;
           allFlaggedWallets := allFlaggedWallets s |},
        []).

(** *** The state-changing calls as a transition relation *)

Inductive Call :=
  | CallFlagWallet (wallet : address) (score : Z) (why : string)
  | CallBatchFlagWallets (wallets : list address) (scores : list Z)
      (reasons : list string)
  | CallUnflagWallet (wallet : address)
  | CallBatchUnflagWallets (wallets : list address)
  | CallUpdateRiskLevel (wallet : address) (newRiskLevel : RiskLevel)
  | CallCleanupExpiredFlags
  | CallUpdateSoklinBackend (newBackend : address)
  | CallSetFlaggerAuthorization (flagger : address) (authorized : bool)
  | CallUpdateRiskThreshold (level : RiskLevel) (threshold : Z)
  | CallTransferOwnership (newOwner : address).

Definition exec (s : Storage) (sender : address) (now : Z) (c : Call)
  : Result (Storage * list Event) :=
  match c with
  | CallFlagWallet wallet score why => flagWallet s sender now wallet score why
  | CallBatchFlagWallets wallets scores reasons =>
      batchFlagWallets s sender now wallets scores reasons
  | CallUnflagWallet wallet => unflagWallet s sender wallet
  | CallBatchUnflagWallets wallets => batchUnflagWallets s sender wallets
  | CallUpdateRiskLevel wallet l => updateRiskLevel s sender now wallet l
  | CallCleanupExpiredFlags => mret (cleanupExpiredFlags s sender now)
  | CallUpdateSoklinBackend newBackend => updateSoklinBackend s sender newBackend
  | CallSetFlaggerAuthorization flagger authorized =>
      setFlaggerAuthorization s sender flagger authorized
  | CallUpdateRiskThreshold level threshold =>
      updateRiskThreshold s sender level threshold
  | CallTransferOwnership newOwner => transferOwnership s sender newOwner
  end.

(** A storage reached from deployment by successful transactions. *)
Inductive reachable : Storage -> Prop :=
  | reachable_deployed deployer : reachable (constructor deployer)
  | reachable_call s sender now c s' events :
      reachable s -> exec s sender now c = Success (s', events) -> reachable s'.

End WalletFlagger.
(* ===================================================================== *)
(** ** Scoring engine: the score of a model output that is not a number *)
(* ===================================================================== *)

(** The output tensor of the model is a [Float32Array]; its entries can be
    [NaN] or infinite.  This module follows the score from the output data
    to the reported score and level with the numbers of JavaScript
    ([Registry.jsnum]); on outputs that are rationals it computes what
    [Scoring.getMLPrediction] and [Scoring.calculateWalletScore] compute. *)
Module ScoringNumbers.
Import Models Features Registry.
Local Open Scope Q_scope.

(** [a * k] and [a + k] for a rational [k] *)
Definition times (a : jsnum) (k : Q) : jsnum :=
  match a with
  | Finite q => Finite (q * k)
  | NaN => NaN
  | PosInfinity =>
      if Qeq_bool k 0 then NaN else if Qltb k 0 then NegInfinity else PosInfinity
  | NegInfinity =>
      if Qeq_bool k 0 then NaN else if Qltb k 0 then PosInfinity else NegInfinity
  end.

Definition plus (a : jsnum) (k : Q) : jsnum :=
  match a with
  | Finite q => Finite (q + k)
  | other => other
  end.

(** [Math.min(k, a)] and [Math.max(k, a)]: [NaN] when an argument is. *)
Definition Math_min (k : Q) (a : jsnum) : jsnum :=
  match a with
  | Finite q => Finite (Qmin k q)
  | NaN => NaN
  | PosInfinity => Finite k
  | NegInfinity => NegInfinity
  end.

Definition Math_max (k : Q) (a : jsnum) : jsnum :=
  match a with
  | Finite q => Finite (Qmax k q)
  | NaN => NaN
  | PosInfinity => PosInfinity
  | NegInfinity => Finite k
  end.

(** [Math.max(a, b)] *)
Definition max2 (a b : jsnum) : jsnum :=
  match a, b with
  | NaN, _ | _, NaN => NaN
  | PosInfinity, _ | _, PosInfinity => PosInfinity
  | NegInfinity, other | other, NegInfinity => other
  | Finite x, Finite y => Finite (Qmax x y)
  end.

(** [Math.max(...l)]; [-Infinity] for no argument *)
Definition maximum (l : list jsnum) : jsnum := fold_left max2 l NegInfinity.

(** [a >= k] and [a < k]: false when [a] is [NaN] *)
Definition ge (a : jsnum) (k : Q) : bool :=
  match a with
  | Finite q => Qle_bool k q
  | PosInfinity => true
  | NaN | NegInfinity => false
  end.

Definition lt (a : jsnum) (k : Q) : bool :=
  match a with
  | Finite q => Qltb q k
  | NegInfinity => true
  | NaN | PosInfinity => false
  end.

(** [determineRiskLevel] *)
Definition determineRiskLevel (score : jsnum) : RiskLevel :=
  if ge score 70 then LOW
  else if ge score 50 then MEDIUM
  else if ge score 30 then HIGH
  else CRITICAL.

Section WithRuntime.
Context (rt : Runtime).

(** [1 / (1 + Math.exp(-rawOutput))] *)
Definition sigmoid (rawOutput : jsnum) : jsnum :=
  match rawOutput with
  | Finite r => Finite (1 / (1 + Math_exp rt (- r)))
  | NaN => NaN
  | PosInfinity => Finite 1
  | NegInfinity => Finite 0
  end.

(** [getMLPrediction] from [const outputData = ...] on: the score of the
    prediction, after [score = Math.max(0, Math.min(100, score))]. *)
Definition predictionScore (outputData : list jsnum) : jsnum :=
  let score :=
    match outputData with
    | [p0; p1] => times p1 100
    | [rawOutput] => times (sigmoid rawOutput) 100
    | _ => times (maximum outputData) 100
    end in
  Math_max 0 (Math_min 100 score).

(** [calculateWalletScore] from [const baseScore = mlPrediction.score] to
    [const riskLevel = ...], for a model that answered [outputData]: the
    reported [reputationScore] and [riskLevel]. *)
Definition scoreOfModelOutput (blacklisted : bool) (outputData : list jsnum)
  : jsnum * RiskLevel :=
  let baseScore := predictionScore outputData in
  let blacklistPenalty := if blacklisted then Scoring.BLACKLIST_PENALTY else 0 in
  let finalScore := Math_max 0 (Math_min 100 (plus baseScore blacklistPenalty)) in
  (finalScore, determineRiskLevel finalScore).

(** The two risk flags of [generateFlags] for the reported score. *)
Definition riskFlags (score : jsnum) : list string :=
  if lt score 30 then ["critical_risk"]
  else if lt score 50 then ["high_risk"] else [].

End WithRuntime.

End ScoringNumbers.
(* ===================================================================== *)
(** * Properties *)
(* ===================================================================== *)

Module CodecFacts.
Import Codec.

(** Known answer: Keccak-256 of the empty message. *)
Example keccak256_empty :
  Keccak.keccak256 [] =
  ([0xc5; 0xd2; 0x46; 0x01; 0x86; 0xf7; 0x23; 0x3c; 0x92; 0x7e; 0x7d; 0xb2;
   0xdc; 0xc7; 0x03; 0xc0; 0xe5; 0x00; 0xb6; 0x53; 0xca; 0x82; 0x27; 0x3b;
   0x7b; 0xfa; 0xd8; 0x04; 0x5d; 0x85; 0xa4; 0x70])%N.
Proof. vm_compute. reflexivity. Qed.

Example checksum_of_test_wallet :
  getChecksumAddress test_wallet_lower = test_wallet.
Proof. vm_compute. reflexivity. Qed.

Example validate_test_wallet :
  isValidEthereumAddress test_wallet
  = {| isValid := true; errors := []; normalized := Some test_wallet |}.
Proof. vm_compute. reflexivity. Qed.

Example validate_lower_test_wallet :
  isValidEthereumAddress test_wallet_lower
  = {| isValid := true; errors := []; normalized := Some test_wallet |}.
Proof. vm_compute. reflexivity. Qed.

Example validate_zero_address :
  isValidEthereumAddress zero_address
  = {| isValid := true; errors := []; normalized := Some zero_address |}.
Proof. vm_compute. reflexivity. Qed.

Example validate_bad_checksum :
  isValidEthereumAddress "0xc188d7E186682502B0177bEbE427828e8F5daf50"
  = {| isValid := false; errors := ["Invalid address checksum"]; normalized := None |}.
Proof. vm_compute. reflexivity. Qed.

Example toLowerCase_test_wallet : toLowerCase test_wallet = test_wallet_lower.
Proof. vm_compute. reflexivity. Qed.

(** A string the validator accepts has the [0x] + 40 hex digit shape, and
    its normalized form is the checksummed spelling. *)
Lemma valid_address_normalized w :
  isValid (isValidEthereumAddress w) = true ->
  String.eqb w "" = false
  /\ matches_0x_hex40 w = true
  /\ normalized (isValidEthereumAddress w) = Some (getChecksumAddress w).
Proof.
  unfold isValidEthereumAddress, getAddress.
  destruct (String.eqb w "") eqn:Hne; [intros [=] |].
  destruct (matches_0x_hex40 w) eqn:Hm; cbn [orb].
  - destruct (negb (mixed_case w) || String.eqb _ w); cbn [isValid normalized];
      [auto | intros [=]].
  - destruct (matches_bare_hex40 w); cbn [isValid]; [| intros [=]].
    destruct (negb _ || _); cbn [isValid]; intros [=].
Qed.

End CodecFacts.

(* ===================================================================== *)
(** ** The coordinator's event buffer *)
(* ===================================================================== *)

Module BufferFacts.
Import Models Coordinator.
Local Open Scope list_scope.

(** Sample events, told apart by their nonce. *)
Definition sampleEvent (n : nat) : WalletEvent :=
  {| ev_type := transaction_event; hash := "0xfeed"; from := "0xa"; to := Some "0xb";
     value := 0; blockNumber := 1; timestamp := Z.of_nat n; gasPrice := 0;
     gasUsed := "21000"; status := success; input := None; contractAddress := None;
     tokenSymbol := None; tokenValue := None; methodId := None;
     nonce := Z.of_nat n; position := None |}.

Definition bufferOf (st : State) (w : string) : list WalletEvent :=
  default [] (eventBuffer st !! w).

Definition withBuffer (w : string) (events : list WalletEvent) : State :=
  {| monitoredWallets := ∅; eventBuffer := {[ w := events ]} |}.

Lemma bufferOf_bufferEvent st w e :
  bufferOf (bufferEvent st w e) w =
  let pushed := bufferOf st w ++ [e] in
  if (1000 <? length pushed)%nat then skipn (length pushed - 500) pushed else pushed.
Proof.
  unfold bufferOf, bufferEvent; simpl. by rewrite lookup_insert_eq.
Qed.

Lemma bufferEvent_other st w w' e :
  w ≠ w' -> bufferOf (bufferEvent st w e) w' = bufferOf st w'.
Proof.
  intros Hne. unfold bufferOf, bufferEvent; simpl. by rewrite lookup_insert_ne.
Qed.

(** Appending to a full buffer leaves 500 events, not 1000: the 501 oldest
    are dropped at once. *)
Lemma C4_full_buffer_is_halved :
  bufferOf (bufferEvent (withBuffer "w" (map sampleEvent (seq 0 1000))) "w"
                        (sampleEvent 1000)) "w"
  = map sampleEvent (seq 501 500).
Proof. vm_compute. reflexivity. Qed.

(** C4 (as amended): the buffer never exceeds 1000 events; below the cap an
    event is appended without eviction, and appending to a buffer of
    exactly 1000 events keeps only the newest 500 of the 1001. *)
Theorem C4_buffer_cap_truncates_to_500 st w e :
  length (bufferOf st w) <= 1000 ->
  length (bufferOf (bufferEvent st w e) w) <= 1000
  /\ (length (bufferOf st w) < 1000 ->
      bufferOf (bufferEvent st w e) w = bufferOf st w ++ [e])
  /\ (length (bufferOf st w) = 1000 ->
      bufferOf (bufferEvent st w e) w = skipn 501 (bufferOf st w ++ [e])
      /\ length (bufferOf (bufferEvent st w e) w) = 500).
Proof.
  intros Hcap. rewrite bufferOf_bufferEvent. cbv zeta.
  rewrite length_app. simpl length.
  destruct (Nat.ltb_spec 1000 (length (bufferOf st w) + 1)) as [Hfull | Hroom].
  - assert (Hlen : length (bufferOf st w) = 1000) by lia.
    rewrite Hlen. change (1000 + 1 - 500) with 501.
    repeat split; intros; try lia.
    + rewrite length_skipn, length_app. simpl. lia.
    + rewrite length_skipn, length_app. simpl. lia.
  - repeat split; intros; try lia.
    rewrite length_app. simpl. lia.
Qed.

Lemma C4_buffer_cap_witness :
  length (bufferOf (withBuffer "w" (map sampleEvent (seq 0 1000))) "w") <= 1000
  /\ length (bufferOf (bufferEvent (withBuffer "w" (map sampleEvent (seq 0 1000))) "w"
                                   (sampleEvent 1000)) "w") = 500.
Proof.
  assert (H : length (bufferOf (withBuffer "w" (map sampleEvent (seq 0 1000))) "w") = 1000)
    by (vm_compute; reflexivity).
  split; [rewrite H; lia |].
  apply (C4_buffer_cap_truncates_to_500
           (withBuffer "w" (map sampleEvent (seq 0 1000))) "w" (sampleEvent 1000));
    [rewrite H; lia | exact H].
Defined.

End BufferFacts.

(* ===================================================================== *)
(** ** The flag registry client *)
(* ===================================================================== *)

Module RegistryFacts.
Import Models Registry.
Local Open Scope list_scope.

(** The four checks of [validateFlaggingInputs], as one boolean. *)
Definition inputsValid (walletAddress riskLevel : string) (reputationScore : jsnum)
    (reason : string) : bool :=
  Codec.isValid (Codec.isValidEthereumAddress walletAddress)
  && isValidRiskLevel riskLevel
  && isValidScore reputationScore
  && negb (String.eqb reason "" || (500 <? String.length reason)%nat).

Lemma validateFlaggingInputs_spec walletAddress riskLevel reputationScore reason :
  (inputsValid walletAddress riskLevel reputationScore reason = true
   /\ validateFlaggingInputs walletAddress riskLevel reputationScore reason = ([], Ok tt))
  \/ (inputsValid walletAddress riskLevel reputationScore reason = false
      /\ exists e,
          validateFlaggingInputs walletAddress riskLevel reputationScore reason
          = ([], Throw e)).
Proof.
  unfold inputsValid, validateFlaggingInputs.
  destruct (Codec.isValid (Codec.isValidEthereumAddress walletAddress)); simpl;
    [| right; eauto].
  destruct (isValidRiskLevel riskLevel); simpl; [| right; eauto].
  destruct (isValidScore reputationScore); simpl; [| right; eauto].
  destruct (String.eqb reason "" || (500 <? String.length reason)%nat); simpl;
    [right; eauto | left; auto].
Qed.

(** The call that [flagWallet] submits for given arguments. *)
Definition callOf (walletAddress riskLevel : string) (reputationScore : jsnum)
    (reason : option string) : FlagCall :=
  {| fc_wallet := walletAddress;
     fc_riskLevelValue := riskLevelToContractValue riskLevel;
     fc_reputationScore := reputationScore;
     fc_reason := default defaultReason reason;
     fc_gasLimit := GAS_LIMIT |}.

(** The contract turns the call down: the method call rejects, or the
    transaction is not confirmed with status 1. *)
Definition rejects (c : Contract) (call : FlagCall) : Prop :=
  match flagWalletMethod c call with
  | Throw _ => True
  | Ok transaction =>
      match wait transaction CONFIRMATIONS with
      | Throw _ => True
      | Ok None => True
      | Ok (Some r) => rc_status r <> 1%Z
      end
  end.

Definition failure (hash : option string) (message : string) : FlagResult :=
  {| fr_success := false; fr_transactionHash := hash; fr_receipt := None;
     fr_error := Some message |}.

(** What [flagWallet] returns, case by case. *)
Lemma flagWallet_cases contract walletAddress riskLevel reputationScore reason :
  let call := callOf walletAddress riskLevel reputationScore reason in
  let valid := inputsValid walletAddress riskLevel reputationScore
                           (default defaultReason reason) in
  (valid = false /\
   exists message,
     flagWallet contract walletAddress riskLevel reputationScore reason
     = ([], Ok (failure None message)))
  \/ (valid = true /\ contract = None /\
      flagWallet contract walletAddress riskLevel reputationScore reason
      = ([], Ok (failure None "Contract not initialized")))
  \/ (valid = true /\
      exists c, contract = Some c /\
        match flagWalletMethod c call with
        | Throw e =>
            flagWallet contract walletAddress riskLevel reputationScore reason
            = ([call], Ok (failure None (formatError e)))
        | Ok transaction =>
            match wait transaction CONFIRMATIONS with
            | Throw e =>
                flagWallet contract walletAddress riskLevel reputationScore reason
                = ([call], Ok (failure None (formatError e)))
            | Ok None =>
                flagWallet contract walletAddress riskLevel reputationScore reason
                = ([call], Ok (failure (Some (tx_hash transaction)) "Transaction reverted"))
            | Ok (Some r) =>
                if (rc_status r =? 1)%Z then
                  flagWallet contract walletAddress riskLevel reputationScore reason
                  = ([call],
                     Ok {| fr_success := true;
                           fr_transactionHash := Some (tx_hash transaction);
                           fr_receipt := Some (formatReceipt r);
                           fr_error := None |})
                else
                  flagWallet contract walletAddress riskLevel reputationScore reason
                  = ([call],
                     Ok (failure (Some (tx_hash transaction)) "Transaction reverted"))
            end
        end).
Proof.
  cbv zeta. unfold flagWallet, callOf.
  destruct (validateFlaggingInputs_spec walletAddress riskLevel reputationScore
              (default defaultReason reason)) as [[Hv Hr] | [Hv [e Hr]]];
    rewrite Hr, Hv.
  - right. destruct contract as [c |].
    + right. split; [reflexivity |]. exists c. split; [reflexivity |].
      unfold bind, try_catch, submit, lift, ret; simpl.
      destruct (flagWalletMethod c _) as [transaction | e]; simpl; [| reflexivity].
      destruct (wait transaction CONFIRMATIONS) as [[r |] | e]; simpl; try reflexivity.
      destruct (rc_status r =? 1)%Z; reflexivity.
    + left. repeat split; reflexivity.
  - left. split; [reflexivity |]. exists (formatError e). reflexivity.
Qed.

(** C10: [flagWallet] always returns a result and never throws; no
    transaction is submitted when the inputs are invalid or the contract is
    not initialised; a failure carries an error text and a success carries
    the transaction hash and the receipt. *)
Theorem C10_flagWallet_never_throws
    (contract : option Contract) (walletAddress riskLevel : string)
    (reputationScore : jsnum) (reason : option string) :
  exists calls r,
    flagWallet contract walletAddress riskLevel reputationScore reason = (calls, Ok r)
    /\ (fr_success r = false -> is_Some (fr_error r) /\ fr_receipt r = None)
    /\ (fr_success r = true ->
        is_Some (fr_transactionHash r) /\ is_Some (fr_receipt r) /\ fr_error r = None)
    /\ (inputsValid walletAddress riskLevel reputationScore
                    (default defaultReason reason) = false ->
        calls = [] /\ fr_success r = false)
    /\ (contract = None -> calls = [] /\ fr_success r = false).
Proof.
  destruct (flagWallet_cases contract walletAddress riskLevel reputationScore reason)
    as [[Hv [m Hr]] | [[Hv [Hc Hr]] | [Hv [c [Hc Hr]]]]].
  - eexists _, _. split; [exact Hr |]. simpl.
    repeat split; eauto; discriminate.
  - eexists _, _. split; [exact Hr |]. simpl.
    repeat split; eauto; try discriminate.
  - destruct (flagWalletMethod c _) as [transaction | e].
    + destruct (wait transaction CONFIRMATIONS) as [[r |] | e].
      * destruct (rc_status r =? 1)%Z;
          (eexists _, _; split; [exact Hr |]; simpl;
           repeat split; eauto; congruence).
      * eexists _, _. split; [exact Hr |]. simpl.
        repeat split; eauto; congruence.
      * eexists _, _. split; [exact Hr |]. simpl.
        repeat split; eauto; congruence.
    + eexists _, _. split; [exact Hr |]. simpl.
      repeat split; eauto; congruence.
Qed.

(** A contract that turns every flag down as a duplicate, the way the
    [notFlagged] modifier of [WalletFlagger.sol] does. *)
Definition alreadyFlaggedMessage : string :=
  "execution reverted: WalletFlagger: wallet already flagged".

Definition duplicateRejectingContract : Contract :=
  {| flagWalletMethod := fun _ => Throw (ErrorObject alreadyFlaggedMessage);
     isWalletFlaggedMethod := fun _ => Ok true |}.

(** The client reports the duplicate as a failure, not as a success. *)
Lemma C7_duplicate_flag_is_reported_as_failure :
  flagWallet (Some duplicateRejectingContract) Codec.test_wallet "critical"
             (Finite 20) (Some "Critical risk score detected")
  = ([callOf Codec.test_wallet "critical" (Finite 20)
             (Some "Critical risk score detected")],
     Ok (failure None alreadyFlaggedMessage)).
Proof. vm_compute. reflexivity. Qed.

(** C7 (as amended): when the contract turns the flag down on valid
    inputs, whatever the reason, the client submits the call once, does
    not throw and returns a failure result with no receipt.  When the call
    or the wait for the confirmations throws, the error of the result is
    the thrown error as rendered by [formatError] and there is no
    transaction hash; when the transaction is mined without status 1, the
    error is the fixed text [Transaction reverted] and the result carries
    the transaction hash. *)
Theorem C7_rejection_yields_failure_result
    (c : Contract) (walletAddress riskLevel : string)
    (reputationScore : jsnum) (reason : option string) :
  inputsValid walletAddress riskLevel reputationScore (default defaultReason reason) = true ->
  rejects c (callOf walletAddress riskLevel reputationScore reason) ->
  exists r,
    flagWallet (Some c) walletAddress riskLevel reputationScore reason
    = ([callOf walletAddress riskLevel reputationScore reason], Ok r)
    /\ fr_success r = false
    /\ fr_receipt r = None
    /\ (forall e,
          flagWalletMethod c (callOf walletAddress riskLevel reputationScore reason)
          = Throw e ->
          fr_error r = Some (formatError e) /\ fr_transactionHash r = None)
    /\ (forall transaction,
          flagWalletMethod c (callOf walletAddress riskLevel reputationScore reason)
          = Ok transaction ->
          match wait transaction CONFIRMATIONS with
          | Throw e =>
              fr_error r = Some (formatError e) /\ fr_transactionHash r = None
          | Ok _ =>
              fr_error r = Some "Transaction reverted"
              /\ fr_transactionHash r = Some (tx_hash transaction)
          end).
Proof.
  intros Hvalid Hrej.
  destruct (flagWallet_cases (Some c) walletAddress riskLevel reputationScore reason)
    as [[Hv _] | [[_ [Hc _]] | [_ [c' [Hc Hr]]]]];
    [congruence | discriminate |].
  injection Hc as <-. unfold rejects in Hrej.
  destruct (flagWalletMethod c _) as [transaction | e].
  - destruct (wait transaction CONFIRMATIONS) as [[r |] | e] eqn:Hw;
      [destruct (Z.eqb_spec (rc_status r) 1); [contradiction |] | |];
      (eexists; split; [exact Hr |];
       split; [reflexivity |]; split; [reflexivity |]; split;
       [intros e' [=] | intros t [= <-]; rewrite Hw; split; reflexivity]).
  - eexists. split; [exact Hr |].
    split; [reflexivity |]. split; [reflexivity |]. split.
    + intros e' [= <-]. split; reflexivity.
    + intros t [=].
Qed.

Lemma C7_rejection_witness :
  exists r,
    flagWallet (Some duplicateRejectingContract) Codec.test_wallet "critical"
               (Finite 20) (Some "Critical risk score detected")
    = ([callOf Codec.test_wallet "critical" (Finite 20)
               (Some "Critical risk score detected")], Ok r)
    /\ fr_success r = false
    /\ fr_receipt r = None
    /\ fr_error r = Some alreadyFlaggedMessage
    /\ fr_transactionHash r = None.
Proof.
  destruct (C7_rejection_yields_failure_result duplicateRejectingContract
              Codec.test_wallet "critical" (Finite 20)
              (Some "Critical risk score detected"))
    as (r & Hr & Hs & Hn & Hthrow & _).
  - vm_compute. reflexivity.
  - exact I.
  - exists r. split; [exact Hr |]. split; [exact Hs |]. split; [exact Hn |].
    apply (Hthrow (ErrorObject alreadyFlaggedMessage)). reflexivity.
Defined.

End RegistryFacts.

(* ===================================================================== *)
(** ** The coordinator: flagging rule and monitor invariant *)
(* ===================================================================== *)

Module CoordinatorFacts.
Import Models Coordinator.
Local Open Scope list_scope.

(** *** Flagging *)






(** In a batch tick the flagging decision for a monitored wallet with
    buffered events is [checkAndFlagWallet] on the fresh score. *)
Lemma processWallet_flags contract scoreOf st acts w e events m sc :
  monitoredWallets st !! w = Some m ->
  scoreOf w (e :: events) = Scored sc ->
  snd (processWallet contract scoreOf (st, acts) (w, e :: events))
  = acts ++ checkAndFlagWallet contract w sc.
Proof.
  intros Hm Hsc. unfold processWallet, calculateAndUpdateScore. rewrite Hm, Hsc.
  reflexivity.
Qed.

(** *** Every stored monitor is active *)

Definition all_active (st : State) : Prop :=
  forall w m, monitoredWallets st !! w = Some m -> isActive m = true.

Lemma all_active_initial : all_active initial.
Proof. intros w m H. unfold initial in H; simpl in H. by rewrite lookup_empty in H. Qed.

Lemma all_active_insert st w m :
  all_active st -> isActive m = true ->
  all_active {| monitoredWallets := <[w := m]> (monitoredWallets st);
                eventBuffer := eventBuffer st |}.
Proof.
  intros Hst Hm w' m'. simpl. destruct (decide (w = w')) as [-> | Hne].
  - rewrite lookup_insert_eq. congruence.
  - rewrite lookup_insert_ne by done. apply Hst.
Qed.

Lemma all_active_buffer st (b : gmap string (list WalletEvent)) :
  all_active st ->
  all_active {| monitoredWallets := monitoredWallets st; eventBuffer := b |}.
Proof. intros Hst w m. simpl. apply Hst. Qed.

Lemma all_active_score st w sc :
  all_active st -> all_active (snd (calculateAndUpdateScore st w sc)).
Proof.
  intros Hst. unfold calculateAndUpdateScore.
  destruct (monitoredWallets st !! w) as [m |] eqn:Hm; simpl; [| exact Hst].
  destruct sc as [sc | sc |]; simpl; [| | exact Hst];
    (apply all_active_insert; [exact Hst |]; simpl; eapply Hst; eauto).
Qed.

Lemma all_active_scores st w scores :
  all_active st ->
  all_active (fold_left (fun s sc => snd (calculateAndUpdateScore s w sc)) scores st).
Proof.
  revert st. induction scores as [| sc scores IH]; intros st Hst; simpl; [exact Hst |].
  apply IH, all_active_score, Hst.
Qed.

Lemma all_active_start st now w cfg scores :
  all_active st -> all_active (startMonitoringWallet st now w cfg scores).
Proof.
  intros Hst. unfold startMonitoringWallet.
  destruct (negb _); [exact Hst |].
  destruct (monitoredWallets st !! _); [exact Hst |].
  apply all_active_scores. apply all_active_insert; [exact Hst | reflexivity].
Qed.

Lemma all_active_stop st w :
  all_active st -> all_active (stopMonitoringWallet st w).
Proof.
  intros Hst. unfold stopMonitoringWallet.
  destruct (negb _); [exact Hst |].
  destruct (monitoredWallets st !! _); [| exact Hst].
  intros w' m'. simpl. intros H. apply lookup_delete_Some in H as [_ H]. eapply Hst; eauto.
Qed.

Lemma all_active_bufferEvent st w e :
  all_active st -> all_active (bufferEvent st w e).
Proof. intros Hst. unfold bufferEvent. apply all_active_buffer, Hst. Qed.

Lemma all_active_event st now w ev sc :
  all_active st -> all_active (snd (handleWalletEvent st now w ev sc)).
Proof.
  intros Hst. unfold handleWalletEvent.
  destruct (monitoredWallets st !! w) as [m |] eqn:Hm; [| exact Hst].
  destruct (negb (isActive m)) eqn:Ha; [exact Hst |]. simpl.
  apply all_active_bufferEvent, all_active_score, all_active_insert; [exact Hst |].
  simpl. eapply Hst; eauto.
Qed.

Lemma all_active_rescore st w sc :
  all_active st -> all_active (recalculateScore st w sc).
Proof.
  intros Hst. unfold recalculateScore. destruct (negb _); [exact Hst |].
  apply all_active_score, Hst.
Qed.

Lemma all_active_processWallet contract scoreOf acc entry :
  all_active (fst acc) ->
  all_active (fst (processWallet contract scoreOf acc entry)).
Proof.
  destruct acc as [st acts], entry as [w events]. simpl. intros Hst.
  destruct events as [| e events]; [exact Hst |].
  pose proof (all_active_score st w (scoreOf w (e :: events)) Hst) as H.
  destruct (calculateAndUpdateScore st w _) as [newScore st1]. simpl in *.
  apply all_active_buffer, H.
Qed.

Lemma all_active_batch contract scoreOf st :
  all_active st -> all_active (fst (processBufferedEvents contract scoreOf st)).
Proof.
  intros Hst. unfold processBufferedEvents.
  assert (Hacc : all_active (fst (st, @nil Action))) by exact Hst.
  revert Hacc. generalize (st, @nil Action). generalize (map_to_list (eventBuffer st)).
  intros entries. induction entries as [| entry entries IH]; intros acc Hacc; simpl.
  - exact Hacc.
  - apply IH, all_active_processWallet, Hacc.
Qed.

Lemma step_all_active st st' : step st st' -> all_active st -> all_active st'.
Proof.
  intros Hstep Hst. destruct Hstep.
  - by apply all_active_start.
  - by apply all_active_stop.
  - by apply all_active_event.
  - by apply all_active_rescore.
  - by apply all_active_batch.
  - apply all_active_initial.
Qed.

Lemma reachable_all_active st : reachable st -> all_active st.
Proof.
  induction 1 as [| st st' _ IH Hstep].
  - apply all_active_initial.
  - eapply step_all_active; eauto.
Qed.

(** C9: in every state the service can reach, each monitor in the map is
    active, so event intake drops an event only when the wallet has no
    monitor: the branch for a monitor that is present and inactive is never
    taken. *)
Theorem C9_stored_monitors_are_always_active (st : State) :
  reachable st ->
  (forall w m, monitoredWallets st !! w = Some m -> isActive m = true)
  /\ (forall now w ev sc,
        fst (handleWalletEvent st now w ev sc) = Dropped
        <-> monitoredWallets st !! w = None).
Proof.
  intros Hreach. pose proof (reachable_all_active st Hreach) as Hact.
  split; [exact Hact |].
  intros now w ev sc. unfold handleWalletEvent.
  destruct (monitoredWallets st !! w) as [m |] eqn:Hm.
  - rewrite (Hact w m Hm). simpl. split; discriminate.
  - simpl. split; reflexivity.
Qed.

(** A reached state with one monitor that has taken in one event. *)
Definition sampleScore : ScoringResult :=
  {| walletAddress := Codec.test_wallet; reputationScore := 50; riskLevel := MEDIUM;
     confidence := 0.5; features := Features.getDefaultFeatures; sr_timestamp := 1700000000;
     sr_transactionCount := 0; flags := ["new_account"];
     explanation := "Risk level: medium. Factors: recently created wallet." |}.

Definition sampleState : State :=
  snd (handleWalletEvent
         (startMonitoringWallet initial 1700000000000 Codec.test_wallet
                                MONITORING_CONFIG [Scored sampleScore])
         1700000001000 Codec.test_wallet (BufferFacts.sampleEvent 1)
         (Scored sampleScore)).

Lemma sampleState_reachable : reachable sampleState.
Proof.
  unfold sampleState.
  eapply reachable_step; [| apply step_event].
  eapply reachable_step; [apply reachable_initial | apply step_start].
Qed.

Lemma C9_stored_monitors_witness :
  (forall w m, monitoredWallets sampleState !! w = Some m -> isActive m = true)
  /\ (forall now w ev sc,
        fst (handleWalletEvent sampleState now w ev sc) = Dropped
        <-> monitoredWallets sampleState !! w = None).
Proof.
  exact (C9_stored_monitors_are_always_active sampleState sampleState_reachable).
Defined.

Example sampleState_monitor :
  (eventCount <$> monitoredWallets sampleState !! Codec.test_wallet) = Some 1%Z
  /\ length (BufferFacts.bufferOf sampleState Codec.test_wallet) = 1.
Proof. vm_compute. split; reflexivity. Qed.

End CoordinatorFacts.

(* ===================================================================== *)
(** ** The broadcast hub: rate limit and routing *)
(* ===================================================================== *)

Module HubFacts.
Import Models Hub.
Local Open Scope list_scope.
Local Open Scope Z_scope.

(** *** Rate limiting *)

(** No window is running for the connection at time [now]. *)
Definition windowExpired (counts : gmap string RateInfo) (connectionId : string)
    (now : Z) : Prop :=
  match counts !! connectionId with
  | Some r => resetTime r <= now
  | None => True
  end.

Lemma checkRateLimit_fresh counts now cid :
  windowExpired counts cid now ->
  checkRateLimit counts now cid
  = (true, <[cid := {| count := 1; resetTime := now + windowMs |}]> counts).
Proof.
  unfold windowExpired, checkRateLimit. intros H.
  destruct (counts !! cid) as [r |]; [| reflexivity].
  destruct (Z.leb_spec (resetTime r) now); [reflexivity | lia].
Qed.

Lemma checkRateLimit_running counts now cid k R :
  counts !! cid = Some {| count := k; resetTime := R |} -> now < R ->
  checkRateLimit counts now cid
  = (negb (maxMessages <? k + 1),
     <[cid := {| count := k + 1; resetTime := R |}]> counts).
Proof.
  unfold checkRateLimit. intros -> Hlt. simpl.
  destruct (Z.leb_spec R now); [lia | reflexivity].
Qed.

(** [handleSubscribe] keeps the connection's identity and transport, and
    its effect on the table is that of [checkRateLimit]. *)
Lemma handleSubscribe_frame gen now counts c d :
  id (snd (fst (handleSubscribe gen now counts c d))) = id c
  /\ connected (snd (fst (handleSubscribe gen now counts c d))) = connected c
  /\ fst (fst (handleSubscribe gen now counts c d))
     = snd (checkRateLimit counts now (id c)).
Proof.
  unfold handleSubscribe. cbn [touch id connected].
  destruct (checkRateLimit counts now (id c)) as [allowed counts'].
  repeat case_match; simplify_eq; auto.
Qed.

(** A run of [subscribe] messages on one connection, each with its arrival
    time. *)
Fixpoint subscribeAll (gen : IdGen) (msgs : list (Z * payload))
    (counts : gmap string RateInfo) (c : WebSocketConnection)
  : gmap string RateInfo * WebSocketConnection :=
  match msgs with
  | [] => (counts, c)
  | (now, d) :: rest =>
      subscribeAll gen rest
        (fst (fst (handleSubscribe gen now counts c d)))
        (snd (fst (handleSubscribe gen now counts c d)))
  end.

Lemma subscribeAll_running gen msgs : forall counts c k R,
  counts !! id c = Some {| count := k; resetTime := R |} ->
  Forall (fun m => fst m < R) msgs ->
  id (snd (subscribeAll gen msgs counts c)) = id c
  /\ connected (snd (subscribeAll gen msgs counts c)) = connected c
  /\ fst (subscribeAll gen msgs counts c) !! id c
     = Some {| count := k + Z.of_nat (length msgs); resetTime := R |}.
Proof.
  induction msgs as [| [now d] rest IH]; intros counts c k R Hk Hin.
  - simpl. repeat split; try reflexivity. rewrite Hk. do 2 f_equal. lia.
  - inversion Hin as [| m ms Hnow Hrest]; subst. simpl in Hnow.
    destruct (handleSubscribe_frame gen now counts c d) as (Hid & Hconn & Hcounts).
    rewrite (checkRateLimit_running _ _ _ _ _ Hk Hnow) in Hcounts. simpl in Hcounts.
    cbn [subscribeAll].
    set (counts1 := fst (fst (handleSubscribe gen now counts c d))) in *.
    set (c1 := snd (fst (handleSubscribe gen now counts c d))) in *.
    assert (Hk1 : counts1 !! id c1 = Some {| count := k + 1; resetTime := R |}).
    { rewrite Hcounts, Hid. apply lookup_insert_eq. }
    destruct (IH counts1 c1 (k + 1) R Hk1 Hrest) as (Hid' & Hconn' & Hc').
    rewrite Hid in Hc'.
    repeat split; try congruence.
    rewrite Hc'. do 2 f_equal. simpl length. lia.
Qed.

Lemma subscribeAll_from_fresh gen t1 d1 rest counts c :
  windowExpired counts (id c) t1 ->
  Forall (fun m => fst m < t1 + windowMs) rest ->
  id (snd (subscribeAll gen ((t1, d1) :: rest) counts c)) = id c
  /\ connected (snd (subscribeAll gen ((t1, d1) :: rest) counts c)) = connected c
  /\ fst (subscribeAll gen ((t1, d1) :: rest) counts c) !! id c
     = Some {| count := 1 + Z.of_nat (length rest); resetTime := t1 + windowMs |}.
Proof.
  intros Hfresh Hin.
  destruct (handleSubscribe_frame gen t1 counts c d1) as (Hid & Hconn & Hcounts).
  rewrite (checkRateLimit_fresh _ _ _ Hfresh) in Hcounts. simpl in Hcounts.
  cbn [subscribeAll].
  set (counts1 := fst (fst (handleSubscribe gen t1 counts c d1))) in *.
  set (c1 := snd (fst (handleSubscribe gen t1 counts c d1))) in *.
  assert (Hk1 : counts1 !! id c1 = Some {| count := 1; resetTime := t1 + windowMs |}).
  { rewrite Hcounts, Hid. apply lookup_insert_eq. }
  destruct (subscribeAll_running gen rest counts1 c1 1 (t1 + windowMs) Hk1 Hin)
    as (Hid' & Hconn' & Hc').
  rewrite Hid in Hc'. repeat split; congruence.
Qed.

Definition isRateLimitError (e : Emit) : bool :=
  match data (snd e) with
  | ErrorData code _ _ => String.eqb code "RATE_LIMIT_EXCEEDED"
  | _ => false
  end.

Definition rateLimitError (gen : IdGen) (now : Z) : WebSocketMessage :=
  {| msg_type := ERROR; msg_id := gen "msg"; msg_timestamp := now; version := "1.0.0";
     data := ErrorData "RATE_LIMIT_EXCEEDED" "Too many messages, please slow down" true |}.

(** A message that passed the rate limit is processed: it never draws the
    rate-limit error, and a well-formed subscription below the
    subscription cap is stored and acknowledged. *)
Lemma handleSubscribe_accepted gen now counts c d k R :
  counts !! id c = Some {| count := k; resetTime := R |} -> now < R ->
  k + 1 <= maxMessages ->
  existsb isRateLimitError (snd (handleSubscribe gen now counts c d)) = false
  /\ forall wallet session,
       validateSubscribeData gen d = inr (wallet, session) ->
       (size (subscribedWallets c) < maxSubscriptions)%nat ->
       wallet ∈ subscribedWallets (snd (fst (handleSubscribe gen now counts c d)))
       /\ (connected c = true ->
           snd (handleSubscribe gen now counts c d)
           = [(id c,
               {| msg_type := SUBSCRIBE; msg_id := gen "msg"; msg_timestamp := now;
                  version := "1.0.0";
                  data := SubscribeData wallet session true
                            (String.append "Subscribed to wallet " wallet) |})]).
Proof.
  intros Hk Hnow Hle. unfold handleSubscribe. cbn [touch id connected subscribedWallets].
  rewrite (checkRateLimit_running _ _ _ _ _ Hk Hnow).
  destruct (Z.ltb_spec maxMessages (k + 1)); [lia |]. cbn [negb].
  destruct (validateSubscribeData gen d) as [errors | [wallet session]].
  - split.
    + unfold sendErrorMessage, sendMessage. simpl. destruct (connected c); reflexivity.
    + intros ? ? [=].
  - destruct (Nat.leb_spec maxSubscriptions (size (subscribedWallets c))).
    + split.
      * unfold sendErrorMessage, sendMessage. simpl. destruct (connected c); reflexivity.
      * intros ? ? _ ?. lia.
    + split.
      * unfold sendMessage. simpl. destruct (connected c); reflexivity.
      * intros w s [= <- <-] _. split; [simpl; set_solver |].
        intros Hc. unfold sendMessage. simpl. rewrite Hc. reflexivity.
Qed.

Lemma handleSubscribe_rejected gen now counts c d k R :
  counts !! id c = Some {| count := k; resetTime := R |} -> now < R ->
  maxMessages < k + 1 -> connected c = true ->
  snd (handleSubscribe gen now counts c d) = [(id c, rateLimitError gen now)]
  /\ subscribedWallets (snd (fst (handleSubscribe gen now counts c d)))
     = subscribedWallets c
  /\ sessionId (snd (fst (handleSubscribe gen now counts c d))) = sessionId c.
Proof.
  intros Hk Hnow Hgt Hc. unfold handleSubscribe. cbn [touch id connected].
  rewrite (checkRateLimit_running _ _ _ _ _ Hk Hnow).
  destruct (Z.ltb_spec maxMessages (k + 1)); [| lia]. simpl.
  unfold sendErrorMessage, sendMessage. simpl. rewrite Hc. simpl.
  repeat split.
Qed.

(** The state of one connection after the first 99 messages of a run, and
    what the 100th and 101st message do to it. *)
Section OneWindow.
Context (gen : IdGen) (counts : gmap string RateInfo) (c : WebSocketConnection).
Context (t1 : Z) (d1 : payload) (rest : list (Z * payload)) (m100 m101 : Z * payload).

Definition after99 : gmap string RateInfo * WebSocketConnection :=
  subscribeAll gen ((t1, d1) :: rest) counts c.
Definition step100 : gmap string RateInfo * WebSocketConnection * list Emit :=
  handleSubscribe gen (fst m100) (fst after99) (snd after99) (snd m100).
Definition step101 : gmap string RateInfo * WebSocketConnection * list Emit :=
  handleSubscribe gen (fst m101) (fst (fst step100)) (snd (fst step100)) (snd m101).

End OneWindow.

(** C8: of 101 [subscribe] messages that reach one connection within one
    60-second window (the first message opens the window), the 100th is
    accepted and processed, and the 101st is answered with the recoverable
    [RATE_LIMIT_EXCEEDED] error and changes no subscription. *)
Theorem C8_hundredth_accepted_next_rejected
    (gen : IdGen) (counts : gmap string RateInfo) (c : WebSocketConnection)
    (t1 : Z) (d1 : payload) (rest : list (Z * payload)) (m100 m101 : Z * payload) :
  connected c = true ->
  windowExpired counts (id c) t1 ->
  length rest = 98%nat ->
  Forall (fun m => t1 <= fst m < t1 + windowMs) (rest ++ [m100; m101]) ->
  let s99 := after99 gen counts c t1 d1 rest in
  let s100 := step100 gen counts c t1 d1 rest m100 in
  let s101 := step101 gen counts c t1 d1 rest m100 m101 in
  (existsb isRateLimitError (snd s100) = false
   /\ forall wallet session,
        validateSubscribeData gen (snd m100) = inr (wallet, session) ->
        (size (subscribedWallets (snd s99)) < maxSubscriptions)%nat ->
        wallet ∈ subscribedWallets (snd (fst s100))
        /\ snd s100
           = [(id c,
               {| msg_type := SUBSCRIBE; msg_id := gen "msg";
                  msg_timestamp := fst m100; version := "1.0.0";
                  data := SubscribeData wallet session true
                            (String.append "Subscribed to wallet " wallet) |})])
  /\ snd s101 = [(id c, rateLimitError gen (fst m101))]
  /\ subscribedWallets (snd (fst s101)) = subscribedWallets (snd (fst s100)).
Proof.
  intros Hconn Hfresh Hlen Hin. cbv zeta. unfold step101, step100.
  set (s99 := after99 gen counts c t1 d1 rest).
  set (s100 := handleSubscribe gen (fst m100) (fst s99) (snd s99) (snd m100)).
  set (s101 := handleSubscribe gen (fst m101) (fst (fst s100)) (snd (fst s100)) (snd m101)).
  apply Forall_app in Hin as [Hrest Hlast].
  assert (Hrest' : Forall (fun m : Z * payload => fst m < t1 + windowMs) rest).
  { eapply Forall_impl; [exact Hrest |]. simpl. intros; lia. }
  apply Forall_cons in Hlast as [H100 Hlast].
  apply Forall_cons in Hlast as [H101 _].
  destruct (subscribeAll_from_fresh gen t1 d1 rest counts c Hfresh Hrest')
    as (Hid99 & Hconn99 & Hc99).
  change (subscribeAll gen ((t1, d1) :: rest) counts c) with s99 in Hid99, Hconn99, Hc99.
  rewrite Hlen in Hc99. rewrite <- Hid99 in Hc99.
  assert (Hlt100 : fst m100 < t1 + windowMs) by lia.
  assert (Hlt101 : fst m101 < t1 + windowMs) by lia.
  destruct (handleSubscribe_accepted gen (fst m100) (fst s99) (snd s99) (snd m100)
              (1 + Z.of_nat 98) (t1 + windowMs) Hc99 Hlt100
              ltac:(unfold maxMessages; lia)) as [Hno Hok].
  destruct (handleSubscribe_frame gen (fst m100) (fst s99) (snd s99) (snd m100))
    as (Hid100 & Hconn100 & Hcounts100).
  rewrite (checkRateLimit_running _ _ _ _ _ Hc99 Hlt100) in Hcounts100.
  simpl in Hcounts100.
  change (handleSubscribe gen (fst m100) (fst s99) (snd s99) (snd m100))
    with s100 in Hno, Hok, Hid100, Hconn100, Hcounts100.
  assert (Hc100 : fst (fst s100) !! id (snd (fst s100))
                  = Some {| count := 1 + Z.of_nat 98 + 1; resetTime := t1 + windowMs |}).
  { rewrite Hcounts100, Hid100. apply lookup_insert_eq. }
  destruct (handleSubscribe_rejected gen (fst m101) (fst (fst s100)) (snd (fst s100))
              (snd m101) (1 + Z.of_nat 98 + 1) (t1 + windowMs) Hc100 Hlt101
              ltac:(unfold maxMessages; lia) ltac:(congruence)) as (Hout & Hsubs & _).
  change (handleSubscribe gen (fst m101) (fst (fst s100)) (snd (fst s100)) (snd m101))
    with s101 in Hout, Hsubs.
  split; [split; [exact Hno |] |].
  - intros wallet session Hv Hsize. destruct (Hok wallet session Hv Hsize) as [Hin' Hout'].
    split; [exact Hin' |]. rewrite <- Hid99. apply Hout'. congruence.
  - split; [| exact Hsubs]. rewrite Hout. do 2 f_equal. congruence.
Qed.

(** A concrete window: 101 subscriptions to the test wallet on a fresh
    connection, the last two in the window's final millisecond. *)
Definition sampleGen : IdGen := fun prefix => String.append prefix "_1".

Definition sampleConnection : WebSocketConnection :=
  {| id := "ws_1"; connected := true; subscribedWallets := ∅;
     connectedAt := 0; lastActivity := 0; sessionId := None |}.

Definition samplePayload : payload :=
  Fields (FString Codec.test_wallet) (FString "test-session-123").

Lemma C8_window_witness :
  (connected sampleConnection = true
   /\ windowExpired ∅ (id sampleConnection) 0
   /\ length (repeat (30000, samplePayload) 98) = 98%nat)
  /\ snd (step101 sampleGen ∅ sampleConnection 0 samplePayload
                  (repeat (30000, samplePayload) 98)
                  (59999, samplePayload) (59999, samplePayload))
     = [("ws_1", rateLimitError sampleGen 59999)].
Proof.
  split; [repeat split |].
  apply (C8_hundredth_accepted_next_rejected sampleGen ∅ sampleConnection 0 samplePayload
           (repeat (30000, samplePayload) 98) (59999, samplePayload) (59999, samplePayload)).
  - reflexivity.
  - exact I.
  - reflexivity.
  - unfold windowMs. repeat (constructor; [simpl; lia |]). constructor.
Defined.

(** *** Routing of score updates *)

(** [broadcastScoreUpdate] reaches exactly the connected connections whose
    subscription set holds the lower-cased wallet. *)
Lemma broadcastScoreUpdate_routing gen now st w sc prev cid m :
  In (cid, m) (broadcastScoreUpdate gen now st w sc prev)
  <-> io st = true
      /\ m = scoreUpdateMessage gen now w sc prev
      /\ exists c, In c (connections st) /\ id c = cid /\ connected c = true
                   /\ Codec.toLowerCase w ∈ subscribedWallets c.
Proof.
  unfold broadcastScoreUpdate. destruct (io st); simpl.
  - rewrite in_flat_map. split.
    + intros (c & Hc & Hin). unfold isSubscribed, sendMessage in Hin.
      case_bool_decide; [| destruct Hin].
      destruct (connected c) eqn:Hconn; [| destruct Hin].
      destruct Hin as [[= <- <-] | []]. eauto 10.
    + intros (_ & -> & c & Hc & <- & Hconn & Hsub). exists c. split; [exact Hc |].
      unfold isSubscribed, sendMessage. rewrite bool_decide_eq_true_2 by exact Hsub.
      rewrite Hconn. left. reflexivity.
  - split; [intros [] | intros [[=] _]].
Qed.

(** A successful [subscribe] stores the wallet in the form returned by the
    validator, which is the checksummed spelling of [ethers.getAddress]. *)
Lemma handleSubscribe_stores_checksum gen now counts c w session :
  fst (checkRateLimit counts now (id c)) = true ->
  Codec.isValid (Codec.isValidEthereumAddress w) = true ->
  session <> FOther ->
  (size (subscribedWallets c) < maxSubscriptions)%nat ->
  subscribedWallets (snd (fst (handleSubscribe gen now counts c
                                 (Fields (FString w) session))))
  = {[Codec.getChecksumAddress w]} ∪ subscribedWallets c.
Proof.
  intros Hrate Hvalid Hsession Hsize.
  destruct (CodecFacts.valid_address_normalized w Hvalid) as (Hne & _ & Hnorm).
  unfold handleSubscribe. cbn [touch id connected subscribedWallets].
  destruct (checkRateLimit counts now (id c)) as [allowed counts']. simpl in Hrate.
  subst allowed. cbn [negb].
  assert (Hv : validateSubscribeData gen (Fields (FString w) session)
               = inr (Codec.getChecksumAddress w,
                      match session with
                      | FString s => if String.eqb s "" then gen "session" else s
                      | _ => gen "session"
                      end)).
  { unfold validateSubscribeData, walletErrors, normalizedWallet.
    rewrite Hne, Hvalid, Hnorm. destruct session; try reflexivity. contradiction. }
  rewrite Hv.
  destruct (Nat.leb_spec maxSubscriptions (size (subscribedWallets c))); [lia |].
  reflexivity.
Qed.

(** The scenario of [test-wallet-subscribe.cjs]: a client connects and
    subscribes with the checksummed spelling of its wallet. *)
Definition connectedHub : State :=
  fst (handleConnection sampleGen 1000 (setupWebSocket initial)).

Definition subscribedHub : State * list Emit :=
  onSubscribe sampleGen 2000 connectedHub "ws_1" samplePayload.

(** C1, on the code: the subscription is acknowledged and stored in its
    checksummed spelling, which is not lower-case; a score update for the
    same wallet, looked up in lower case, is then delivered to nobody. *)
Theorem C1_checksummed_subscription_misses_broadcast
    (sc : ScoringResult) (prev : option ScoringResult) :
  snd subscribedHub
  = [("ws_1",
      {| msg_type := SUBSCRIBE; msg_id := "msg_1"; msg_timestamp := 2000;
         version := "1.0.0";
         data := SubscribeData Codec.test_wallet "test-session-123" true
                   (String.append "Subscribed to wallet " Codec.test_wallet) |})]
  /\ map (fun c => elements (subscribedWallets c)) (connections (fst subscribedHub))
     = [[Codec.test_wallet]]
  /\ String.eqb Codec.test_wallet (Codec.toLowerCase Codec.test_wallet) = false
  /\ broadcastScoreUpdate sampleGen 3000 (fst subscribedHub) Codec.test_wallet sc prev = []
  /\ broadcastScoreUpdate sampleGen 3000 (fst subscribedHub)
                          (Codec.toLowerCase Codec.test_wallet) sc prev = []
  /\ getWalletSubscriberCount (fst subscribedHub) Codec.test_wallet = 0%nat.
Proof. vm_compute. repeat split; reflexivity. Qed.

End HubFacts.

(* ===================================================================== *)
(** ** Feature history and scoring *)
(* ===================================================================== *)

Module ScoringFacts.
Import Models Features Scoring.
Local Open Scope list_scope.
Local Open Scope Q_scope.

(** *** The history store *)

Definition historyOf (history : gmap string (list WalletEvent)) (w : string)
  : list WalletEvent :=
  default [] (history !! w).

Lemma length_insert_desc x l : length (insert_desc x l) = S (length l).
Proof.
  induction l as [| y ys IH]; simpl; [reflexivity |].
  destruct (timestamp x <? timestamp y)%Z; simpl; [by rewrite IH | reflexivity].
Qed.

Lemma length_sort_desc l : length (sort_desc l) = length l.
Proof.
  induction l as [| x xs IH]; simpl; [reflexivity |].
  by rewrite length_insert_desc, IH.
Qed.

Lemma historyOf_update_same history w events :
  historyOf (updateTransactionHistory history w events) w
  = firstn MAX_HISTORY (sort_desc (historyOf history w ++ events)).
Proof. unfold historyOf, updateTransactionHistory. by rewrite lookup_insert_eq. Qed.

Lemma historyOf_update_other history w w' events :
  w ≠ w' ->
  historyOf (updateTransactionHistory history w events) w' = historyOf history w'.
Proof.
  intros Hne. unfold historyOf, updateTransactionHistory. by rewrite lookup_insert_ne.
Qed.

Lemma length_historyOf_update history w events :
  length (historyOf (updateTransactionHistory history w events) w)
  = Nat.min MAX_HISTORY (length (historyOf history w) + length events).
Proof.
  rewrite historyOf_update_same, length_firstn, length_sort_desc, length_app.
  reflexivity.
Qed.

(** Updating any wallet's history with no events keeps every stored length
    that is within the cap. *)
Lemma length_historyOf_update_nil history w w' :
  (length (historyOf history w') <= MAX_HISTORY)%nat ->
  length (historyOf (updateTransactionHistory history w []) w')
  = length (historyOf history w').
Proof.
  intros Hcap. destruct (decide (w = w')) as [-> | Hne].
  - rewrite length_historyOf_update. simpl length. rewrite Nat.add_0_r.
    by apply Nat.min_r.
  - by rewrite historyOf_update_other.
Qed.

(** *** Arithmetic of scores *)

Lemma clampScore_nonpos x : x <= 0 -> clampScore x == 0.
Proof.
  intros H. unfold clampScore. apply Q.max_l.
  eapply Qle_trans; [apply Q.le_min_r | exact H].
Qed.

Lemma clampScore_id x : 0 <= x -> x <= 100 -> clampScore x == x.
Proof.
  intros H0 H100. unfold clampScore.
  rewrite (Q.min_r 100 x) by exact H100. apply Q.max_r. exact H0.
Qed.

Lemma clampScore_range x : 0 <= clampScore x /\ clampScore x <= 100.
Proof.
  unfold clampScore. split; [apply Q.le_max_l |].
  apply Q.max_lub; [lra | apply Q.le_min_l].
Qed.

Lemma Qltb_true_iff a b : Qltb a b = true <-> a < b.
Proof.
  unfold Qltb. rewrite negb_true_iff. split.
  - intros H. apply Qnot_le_lt. intros Hle. apply Qle_bool_iff in Hle. congruence.
  - intros H. destruct (Qle_bool b a) eqn:E; [| reflexivity].
    apply Qle_bool_iff in E. lra.
Qed.

Lemma Qle_bool_false_iff a b : Qle_bool a b = false <-> b < a.
Proof.
  split.
  - intros H. apply Qnot_le_lt. intros Hle. apply Qle_bool_iff in Hle. congruence.
  - intros H. destruct (Qle_bool a b) eqn:E; [| reflexivity].
    apply Qle_bool_iff in E. lra.
Qed.

(** [determineRiskLevel] cuts at 70, 50 and 30. *)
Lemma determineRiskLevel_spec s :
  (determineRiskLevel s = LOW <-> 70 <= s)
  /\ (determineRiskLevel s = MEDIUM <-> 50 <= s /\ s < 70)
  /\ (determineRiskLevel s = HIGH <-> 30 <= s /\ s < 50)
  /\ (determineRiskLevel s = CRITICAL <-> s < 30).
Proof.
  unfold determineRiskLevel.
  destruct (Qle_bool 70 s) eqn:E70;
    [apply Qle_bool_iff in E70 | apply Qle_bool_false_iff in E70];
  (destruct (Qle_bool 50 s) eqn:E50;
    [apply Qle_bool_iff in E50 | apply Qle_bool_false_iff in E50]);
  (destruct (Qle_bool 30 s) eqn:E30;
    [apply Qle_bool_iff in E30 | apply Qle_bool_false_iff in E30]);
  repeat split; intros; try discriminate; try reflexivity; try lra.
Qed.

Lemma Qfloor_unique (q : Q) (n : Z) :
  inject_Z n <= q -> q < inject_Z (n + 1) -> Qfloor q = n.
Proof.
  intros Hle Hlt.
  pose proof (Qfloor_le q) as H1. pose proof (Qlt_floor q) as H2.
  assert (Ha : (Qfloor q < n + 1)%Z).
  { rewrite Zlt_Qlt. eapply Qle_lt_trans; [exact H1 | exact Hlt]. }
  assert (Hb : (n < Qfloor q + 1)%Z).
  { rewrite Zlt_Qlt. eapply Qle_lt_trans; [exact Hle | exact H2]. }
  lia.
Qed.

(** The two-decimal rounding of a non-negative score. *)
Lemma roundFixed2_value (s : Q) (n : Z) :
  0 <= s -> inject_Z n - (1 # 2) <= s * 100 -> s * 100 < inject_Z n + (1 # 2) ->
  roundFixed 2 s == inject_Z n / 100.
Proof.
  intros H0 Hlo Hhi. unfold roundFixed, fixedDigits.
  assert (Hlt : Qltb s 0 = false).
  { destruct (Qltb s 0) eqn:E; [| reflexivity]. apply Qltb_true_iff in E. lra. }
  rewrite Hlt.
  assert (Hf : Qfloor (Qabs s * inject_Z (pow10 2) + (1 # 2)) = n).
  { apply Qfloor_unique.
    - rewrite Qabs_pos by exact H0. change (inject_Z (pow10 2)) with 100. lra.
    - rewrite Qabs_pos by exact H0. change (inject_Z (pow10 2)) with 100.
      rewrite inject_Z_plus. change (inject_Z 1) with 1. lra. }
  rewrite Hf. reflexivity.
Qed.

(** The six features the rule-based score reads. *)
Definition scoreInputs (f : FeatureVector) : Q * Q * Q * Q * Q * Q :=
  (transactionCount f, transactionsPerDay f, avgTransactionValue f,
   failedTransactions f, uniqueCounterparties f, accountAgeDays f).

Definition withInputs (v : Q * Q * Q * Q * Q * Q) : FeatureVector :=
  let '(tc, tpd, avg, failedTx, ucp, age) := v in
  {| transactionCount := tc; transactionsPerDay := tpd; avgTransactionValue := avg;
     maxTransactionValue := 0; minTransactionValue := 0; accountAgeDays := age;
     daysSinceLastTx := 365; activeDays := 0; uniqueCounterparties := ucp;
     contractInteractions := 0; failedTransactions := failedTx; gasUsagePattern := 0;
     totalVolume := 0; balance := 0; avgGasPrice := 0;
     clusteringCoefficient := 0; pageRank := 0; valueConcentration := 0;
     timeDistribution := 0; activityConsistency := 0 |}.

(** Evaluate one closed condition of the goal. *)
Ltac eval_condition :=
  match goal with
  | |- context [if ?b then _ else _] =>
      let v := eval vm_compute in b in
      lazymatch v with
      | true => change b with true
      | false => change b with false
      end; cbv iota
  end.

#[local] Arguments Qplus _ _ : simpl never.
#[local] Arguments Qminus _ _ : simpl never.
#[local] Arguments Qmult _ _ : simpl never.
#[local] Arguments Qdiv _ _ : simpl never.
#[local] Arguments Qopp _ : simpl never.
#[local] Arguments Qmin _ _ : simpl never.
#[local] Arguments Qmax _ _ : simpl never.

Section WithRuntime.
Context (rt : Runtime).

Lemma extract_fst history now w events :
  fst (extractFeaturesFromEvent rt history now w events)
  = featuresOf rt now (historyOf (updateTransactionHistory history w events) w).
Proof. reflexivity. Qed.

Lemma extract_snd history now w events :
  snd (extractFeaturesFromEvent rt history now w events)
  = updateTransactionHistory history w events.
Proof. reflexivity. Qed.

Lemma featuresOf_transactionCount now walletEvents :
  transactionCount (featuresOf rt now walletEvents) = Qlen walletEvents.
Proof. reflexivity. Qed.

Lemma calculateFallbackScore_snd svc history now w events :
  snd (calculateFallbackScore rt svc history now w events)
  = updateTransactionHistory history w events.
Proof.
  unfold calculateFallbackScore.
  destruct (extractFeaturesFromEvent rt history now w events) as [f h] eqn:E.
  destruct (ruleBasedScore rt _ events f) as [[s r] b].
  simpl. change h with (snd (f, h)). by rewrite <- E.
Qed.

(** The rule-based result reads the history of its own wallet only. *)
Lemma calculateFallbackScore_fst_ext svc history history' now w events :
  historyOf history w = historyOf history' w ->
  fst (calculateFallbackScore rt svc history now w events)
  = fst (calculateFallbackScore rt svc history' now w events).
Proof.
  intros Hh. unfold calculateFallbackScore.
  pose proof (extract_fst history now w events) as E1.
  pose proof (extract_fst history' now w events) as E2.
  rewrite historyOf_update_same in E1, E2. rewrite Hh in E1.
  destruct (extractFeaturesFromEvent rt history now w events) as [f h].
  destruct (extractFeaturesFromEvent rt history' now w events) as [f' h'].
  simpl in E1, E2. subst f f'.
  destruct (ruleBasedScore rt _ events _) as [[s r] b]. reflexivity.
Qed.

Lemma fallbackPrediction_fst_ext svc history history' now :
  historyOf history Codec.zero_address = historyOf history' Codec.zero_address ->
  fst (fallbackPrediction rt svc history now) = fst (fallbackPrediction rt svc history' now).
Proof.
  intros Hh. unfold fallbackPrediction.
  pose proof (calculateFallbackScore_fst_ext svc history history' now
                Codec.zero_address [] Hh) as E.
  destruct (calculateFallbackScore rt svc history now Codec.zero_address []) as [r h].
  destruct (calculateFallbackScore rt svc history' now Codec.zero_address []) as [r' h'].
  simpl in E. subst r'. reflexivity.
Qed.

Lemma fallbackPrediction_snd svc history now :
  snd (fallbackPrediction rt svc history now)
  = updateTransactionHistory history Codec.zero_address [].
Proof.
  unfold fallbackPrediction.
  pose proof (calculateFallbackScore_snd svc history now Codec.zero_address []) as E.
  destruct (calculateFallbackScore rt svc history now Codec.zero_address []) as [r h].
  exact E.
Qed.

(** [getMLPrediction] leaves the history alone or touches the zero
    address with no events. *)
Lemma getMLPrediction_snd svc history now f :
  snd (getMLPrediction rt svc history now f) = history
  \/ snd (getMLPrediction rt svc history now f)
     = updateTransactionHistory history Codec.zero_address [].
Proof.
  unfold getMLPrediction.
  destruct (model svc) as [session |]; [| right; apply fallbackPrediction_snd].
  destruct (mapFeaturesToModelFormat svc f) as [| x xs];
    [right; apply fallbackPrediction_snd |].
  destruct (session (x :: xs)); [left; reflexivity | right; apply fallbackPrediction_snd].
Qed.

Lemma calculateWalletScore_features svc history now w events :
  features (fst (calculateWalletScore rt svc history now w events))
  = featuresOf rt now (historyOf (updateTransactionHistory history w events) w).
Proof.
  unfold calculateWalletScore.
  pose proof (extract_fst history now w events) as E.
  destruct (extractFeaturesFromEvent rt history now w events) as [f h1].
  destruct (getMLPrediction rt svc h1 now f) as [p h2]. exact E.
Qed.

Lemma calculateWalletScore_history_length svc history now w events :
  length (historyOf (snd (calculateWalletScore rt svc history now w events)) w)
  = Nat.min MAX_HISTORY (length (historyOf history w) + length events).
Proof.
  unfold calculateWalletScore.
  pose proof (extract_snd history now w events) as E.
  destruct (extractFeaturesFromEvent rt history now w events) as [f h1].
  simpl in E. subst h1.
  pose proof (getMLPrediction_snd svc (updateTransactionHistory history w events) now f)
    as Hh.
  destruct (getMLPrediction rt svc _ now f) as [p h2]. simpl in Hh |- *.
  destruct Hh as [-> | ->].
  - apply length_historyOf_update.
  - rewrite length_historyOf_update_nil; [apply length_historyOf_update |].
    rewrite length_historyOf_update. apply Nat.le_min_l.
Qed.

(** *** Scoring twice *)

(** The transaction count seen by two successive scorings of the same
    events: the second run counts the events again. *)
Lemma rescoring_transaction_counts svc history now1 now2 w events :
  let run1 := calculateWalletScore rt svc history now1 w events in
  let run2 := calculateWalletScore rt svc (snd run1) now2 w events in
  let n0 := length (historyOf history w) in
  transactionCount (features (fst run1))
  = inject_Z (Z.of_nat (Nat.min MAX_HISTORY (n0 + length events)))
  /\ transactionCount (features (fst run2))
     = inject_Z (Z.of_nat (Nat.min MAX_HISTORY
                             (Nat.min MAX_HISTORY (n0 + length events)
                              + length events))).
Proof.
  cbv zeta. rewrite !calculateWalletScore_features, !featuresOf_transactionCount.
  unfold Qlen. rewrite !length_historyOf_update.
  rewrite calculateWalletScore_history_length. split; reflexivity.
Qed.

(** C6, on the code: scoring the same non-empty event list twice in a row
    (with the same clock reading) does not give the same feature vector:
    the second run counts every event twice, as long as the history cap is
    not reached. *)
Theorem C6_rescoring_counts_events_twice
    (svc : ScoringService) (history : gmap string (list WalletEvent))
    (now : Z) (w : string) (events : list WalletEvent) :
  events <> [] ->
  (length (historyOf history w) + 2 * length events <= MAX_HISTORY)%nat ->
  let run1 := calculateWalletScore rt svc history now w events in
  let run2 := calculateWalletScore rt svc (snd run1) now w events in
  transactionCount (features (fst run2))
  == transactionCount (features (fst run1)) + Qlen events
  /\ Qeq_bool (transactionCount (features (fst run1)))
              (transactionCount (features (fst run2))) = false
  /\ features (fst run1) <> features (fst run2).
Proof.
  intros Hne Hcap. cbv zeta.
  destruct (rescoring_transaction_counts svc history now now w events) as [H1 H2].
  cbv zeta in H1, H2.
  assert (Hlen : (0 < length events)%nat) by (destruct events; [congruence | simpl; lia]).
  assert (E1 : Nat.min MAX_HISTORY (length (historyOf history w) + length events)
               = (length (historyOf history w) + length events)%nat)
    by (apply Nat.min_r; lia).
  rewrite E1 in H1, H2.
  assert (E2 : Nat.min MAX_HISTORY
                 (length (historyOf history w) + length events + length events)
               = (length (historyOf history w) + length events + length events)%nat)
    by (apply Nat.min_r; lia).
  rewrite E2 in H2.
  assert (Hsum : transactionCount
                   (features (fst (calculateWalletScore rt svc
                      (snd (calculateWalletScore rt svc history now w events))
                      now w events)))
                 == transactionCount
                      (features (fst (calculateWalletScore rt svc history now w events)))
                    + Qlen events).
  { rewrite H1, H2. unfold Qlen. rewrite <- inject_Z_plus.
    rewrite Nat2Z.inj_add. reflexivity. }
  assert (Hneq : ~ transactionCount
                     (features (fst (calculateWalletScore rt svc history now w events)))
                   == transactionCount
                        (features (fst (calculateWalletScore rt svc
                           (snd (calculateWalletScore rt svc history now w events))
                           now w events)))).
  { rewrite Hsum. assert (0 < Qlen events).
    { unfold Qlen. change 0 with (inject_Z 0). rewrite <- Zlt_Qlt. lia. }
    lra. }
  split; [exact Hsum |]. split.
  - destruct (Qeq_bool _ _) eqn:E; [| reflexivity].
    apply Qeq_bool_iff in E. contradiction.
  - intros Heq. apply Hneq. rewrite <- Heq. reflexivity.
Qed.

(** *** The rule-based result, field by field *)

Lemma ruleBasedScore_inputs blacklisted events f f' :
  scoreInputs f = scoreInputs f' ->
  ruleBasedScore rt blacklisted events f = ruleBasedScore rt blacklisted events f'.
Proof.
  unfold scoreInputs. intros [= H1 H2 H3 H4 H5 H6].
  unfold ruleBasedScore. rewrite H1, H2, H3, H4, H5, H6. reflexivity.
Qed.

Lemma calculateFallbackScore_result svc history now w events :
  let f := featuresOf rt now (historyOf (updateTransactionHistory history w events) w) in
  let s := fst (fst (ruleBasedScore rt (isWalletBlacklisted svc w) events f)) in
  let r := fst (calculateFallbackScore rt svc history now w events) in
  reputationScore r = roundFixed 2 s
  /\ riskLevel r = determineRiskLevel s
  /\ flags r = generateFlags svc w f s
  /\ features r = f.
Proof.
  cbv zeta. unfold calculateFallbackScore.
  pose proof (extract_fst history now w events) as E.
  destruct (extractFeaturesFromEvent rt history now w events) as [f h]. simpl in E.
  subst f. destruct (ruleBasedScore rt _ events _) as [[s r] b]. simpl. auto.
Qed.

(** *** Scoring without a loaded model *)

(** The base score used when no model is loaded. *)
Definition unloadedBaseScore (svc : ScoringService)
    (history : gmap string (list WalletEvent)) (now : Z) : Q :=
  score (fst (fallbackPrediction rt svc history now)).

(** Without a model the result is the clamped rule-based score of the
    zero address with no events, less the blacklist penalty of the wallet:
    neither the wallet's events nor its features enter. *)
Lemma calculateWalletScore_unloaded svc history now w events :
  model svc = None ->
  w <> Codec.zero_address ->
  let final :=
    clampScore (unloadedBaseScore svc history now
                + (if isWalletBlacklisted svc w then BLACKLIST_PENALTY else 0)) in
  reputationScore (fst (calculateWalletScore rt svc history now w events)) = final
  /\ riskLevel (fst (calculateWalletScore rt svc history now w events))
     = determineRiskLevel final.
Proof.
  intros Hmodel Hw. cbv zeta. unfold calculateWalletScore, unloadedBaseScore.
  pose proof (extract_snd history now w events) as E.
  destruct (extractFeaturesFromEvent rt history now w events) as [f h1].
  simpl in E. subst h1.
  unfold getMLPrediction. rewrite Hmodel.
  assert (Hz : historyOf (updateTransactionHistory history w events) Codec.zero_address
               = historyOf history Codec.zero_address)
    by (apply historyOf_update_other; exact Hw).
  pose proof (fallbackPrediction_fst_ext svc _ _ now Hz) as Hp.
  destruct (fallbackPrediction rt svc (updateTransactionHistory history w events) now)
    as [p h2].
  cbn [fst] in Hp. subst p. cbn [fst reputationScore riskLevel]. auto.
Qed.

(** C2, in general: with no model loaded the score does not depend on the
    events (nor, blacklist apart, on the wallet). *)
Lemma unloaded_score_ignores_events svc history now w events1 events2 :
  model svc = None ->
  w <> Codec.zero_address ->
  reputationScore (fst (calculateWalletScore rt svc history now w events1))
  = reputationScore (fst (calculateWalletScore rt svc history now w events2))
  /\ riskLevel (fst (calculateWalletScore rt svc history now w events1))
     = riskLevel (fst (calculateWalletScore rt svc history now w events2)).
Proof.
  intros Hmodel Hw.
  destruct (calculateWalletScore_unloaded svc history now w events1 Hmodel Hw) as [-> ->].
  destruct (calculateWalletScore_unloaded svc history now w events2 Hmodel Hw) as [-> ->].
  split; reflexivity.
Qed.

(** *** Risk level against reported score *)

(** Every result of [calculateWalletScore] carries the level of the score
    it reports, whether a model is loaded, fails, or is absent. *)
Lemma calculateWalletScore_level svc history now w events :
  riskLevel (fst (calculateWalletScore rt svc history now w events))
  = determineRiskLevel
      (reputationScore (fst (calculateWalletScore rt svc history now w events)))
  /\ 0 <= reputationScore (fst (calculateWalletScore rt svc history now w events))
  /\ reputationScore (fst (calculateWalletScore rt svc history now w events)) <= 100.
Proof.
  unfold calculateWalletScore.
  destruct (extractFeaturesFromEvent rt history now w events) as [f h1].
  destruct (getMLPrediction rt svc h1 now f) as [p h2]. simpl.
  split; [reflexivity | apply clampScore_range].
Qed.

(** So does the neutral record of the batch error handler. *)
Lemma batchErrorResult_level history now w events :
  riskLevel (batchErrorResult rt history now w events)
  = determineRiskLevel (reputationScore (batchErrorResult rt history now w events)).
Proof. reflexivity. Qed.

Lemma fallback_features_of_zero_address history :
  historyOf history Codec.zero_address = [] ->
  historyOf (updateTransactionHistory history Codec.zero_address []) Codec.zero_address
  = [].
Proof. intros H. rewrite historyOf_update_same, H. reflexivity. Qed.

Lemma unloadedBaseScore_value svc history now :
  historyOf history Codec.zero_address = [] ->
  isWalletBlacklisted svc Codec.zero_address = false ->
  unloadedBaseScore svc history now = roundFixed 2 (clampScore (70 - 20)).
Proof.
  intros Hh Hb. unfold unloadedBaseScore, fallbackPrediction.
  destruct (calculateFallbackScore_result svc history now Codec.zero_address [])
    as (Hrep & _).
  destruct (calculateFallbackScore rt svc history now Codec.zero_address []) as [r h].
  cbn [fst score] in *. rewrite Hrep, Hb, fallback_features_of_zero_address by exact Hh.
  vm_compute. reflexivity.
Qed.

(** With no model loaded, a wallet that is not blacklisted is scored 50,
    MEDIUM, whatever its events, as long as the zero address has no stored
    history and is not blacklisted itself. *)
Lemma unloaded_score_is_constant svc history now w events :
  model svc = None ->
  w <> Codec.zero_address ->
  historyOf history Codec.zero_address = [] ->
  isWalletBlacklisted svc Codec.zero_address = false ->
  isWalletBlacklisted svc w = false ->
  reputationScore (fst (calculateWalletScore rt svc history now w events)) == 50
  /\ riskLevel (fst (calculateWalletScore rt svc history now w events)) = MEDIUM.
Proof.
  intros Hmodel Hw Hh Hbz Hbw.
  destruct (calculateWalletScore_unloaded svc history now w events Hmodel Hw)
    as [-> ->].
  rewrite Hbw, unloadedBaseScore_value by assumption.
  split; vm_compute; reflexivity.
Qed.

(** The sample inputs: a service without a model and with an empty
    blacklist, a clock reading, and events of the test wallet. *)
Definition unloadedService : ScoringService :=
  {| model := None; featureNames := []; blacklist := ∅ |}.

Definition clock : Z := 1700000000000.

Definition eventAt (ts : Z) (st : TxStatus) : WalletEvent :=
  {| ev_type := transaction_event; hash := "0xfeed";
     from := Codec.test_wallet_lower;
     to := Some "0x00000000000000000000000000000000000000b0";
     value := 0; blockNumber := 1; timestamp := ts; gasPrice := 0;
     gasUsed := "21000"; status := st; input := None; contractAddress := None;
     tokenSymbol := None; tokenValue := None; methodId := None;
     nonce := 0; position := None |}.

(** Four failed transactions, ten to seven hours before [clock]. *)
Definition failedEvents : list WalletEvent :=
  map (fun ts => eventAt ts failed)
      [1699964000; 1699967600; 1699971200; 1699974800]%Z.

(** One successful transaction, 1661 seconds before [clock]. *)
Definition youngEvent : WalletEvent := eventAt 1699998339 success.

Definition failedInputs : Q * Q * Q * Q * Q * Q :=
  (4, 345600000 # 36000000, 0, 4, 2, 36000000 # 86400000).

Definition youngInputs : Q * Q * Q * Q * Q * Q :=
  (1, 86400000 # 1661000, 0, 0, 2, 1661000 # 86400000).

Lemma scoreInputs_failedEvents :
  scoreInputs (featuresOf rt clock
                 (historyOf (updateTransactionHistory ∅ Codec.test_wallet failedEvents)
                            Codec.test_wallet))
  = scoreInputs (withInputs failedInputs).
Proof. vm_compute. reflexivity. Qed.

Lemma scoreInputs_youngEvent :
  scoreInputs (featuresOf rt clock
                 (historyOf (updateTransactionHistory ∅ Codec.test_wallet [youngEvent])
                            Codec.test_wallet))
  = scoreInputs (withInputs youngInputs).
Proof. vm_compute. reflexivity. Qed.

(** The rule-based arithmetic on the four failed transactions: at most
    78 - 68 + 2.88 - 20, clamped to 0. *)
Lemma ruleBasedScore_failedEvents :
  fst (fst (ruleBasedScore rt false failedEvents (withInputs failedInputs))) == 0.
Proof.
  unfold ruleBasedScore, failedEvents, failedInputs, withInputs. cbn.
  repeat eval_condition.
  apply clampScore_nonpos.
  pose proof (Q.le_min_l 8 (Math_log10 rt (4 + 1) * 2)).
  pose proof (Q.le_min_l 5 ((345600000 # 36000000) * 0.3)).
  lra.
Qed.

(** The rule-based arithmetic on the one young transaction:
    50 + 2 log10 2 - 1005/1661, just below 50. *)
Lemma ruleBasedScore_youngEvent :
  0.301 <= Math_log10 rt 2 -> Math_log10 rt 2 <= 0.3011 ->
  let s := fst (fst (ruleBasedScore rt false [youngEvent] (withInputs youngInputs))) in
  4999.5 <= s * 100 /\ s < 50.
Proof.
  intros Hlo Hhi.
  unfold ruleBasedScore, youngEvent, youngInputs, withInputs. cbn.
  repeat eval_condition.
  change (Math_log10 rt (1 + 1)) with (Math_log10 rt 2).
  set (m1 := Qmin 8 (Math_log10 rt 2 * 2)).
  set (m2 := Qmin 25 (((86400000 # 1661000) - 50) * 0.3)).
  assert (E1 : m1 == Math_log10 rt 2 * 2) by (apply Q.min_r; lra).
  assert (E2 : m2 == ((86400000 # 1661000) - 50) * 0.3) by (apply Q.min_r; lra).
  set (x := 70 + m1 - (0 + 0 + 0 + m2 + 0 * 4) + 0 - 20).
  assert (Hx : clampScore x == x) by (apply clampScore_id; unfold x; lra).
  rewrite Hx. unfold x. split; lra.
Qed.

(** *** The rule-based record against its own score *)

Lemma calculateFallbackScore_failedEvents :
  let r := fst (calculateFallbackScore rt unloadedService ∅ clock
                  Codec.test_wallet failedEvents) in
  reputationScore r == 0 /\ riskLevel r = CRITICAL.
Proof.
  cbv zeta.
  destruct (calculateFallbackScore_result unloadedService ∅ clock
              Codec.test_wallet failedEvents) as (-> & -> & _).
  change (isWalletBlacklisted unloadedService Codec.test_wallet) with false.
  rewrite (ruleBasedScore_inputs false failedEvents _ _ scoreInputs_failedEvents).
  pose proof ruleBasedScore_failedEvents as Hs.
  set (s := fst (fst (ruleBasedScore rt false failedEvents (withInputs failedInputs))))
    in *.
  split.
  - rewrite (roundFixed2_value s 0); [reflexivity | | |];
      rewrite Hs; vm_compute; congruence.
  - apply determineRiskLevel_spec. rewrite Hs. reflexivity.
Qed.


(** C2, on the code: with no model loaded, [calculateWalletScore] does
    not score the wallet from its own features.  The test wallet with four
    failed transactions is scored 50, MEDIUM, as it is with any other event
    list, while the rule-based score computed from its own feature vector
    is 0, CRITICAL. *)
Theorem C2_unloaded_model_ignores_wallet_events :
  (reputationScore (fst (calculateWalletScore rt unloadedService ∅ clock
                           Codec.test_wallet failedEvents)) == 50
   /\ riskLevel (fst (calculateWalletScore rt unloadedService ∅ clock
                        Codec.test_wallet failedEvents)) = MEDIUM)
  /\ (reputationScore (fst (calculateFallbackScore rt unloadedService ∅ clock
                              Codec.test_wallet failedEvents)) == 0
      /\ riskLevel (fst (calculateFallbackScore rt unloadedService ∅ clock
                           Codec.test_wallet failedEvents)) = CRITICAL)
  /\ (forall events now,
        reputationScore (fst (calculateWalletScore rt unloadedService ∅ now
                                Codec.test_wallet events)) == 50
        /\ riskLevel (fst (calculateWalletScore rt unloadedService ∅ now
                             Codec.test_wallet events)) = MEDIUM).
Proof.
  assert (Hconst : forall events now,
            reputationScore (fst (calculateWalletScore rt unloadedService ∅ now
                                    Codec.test_wallet events)) == 50
            /\ riskLevel (fst (calculateWalletScore rt unloadedService ∅ now
                                 Codec.test_wallet events)) = MEDIUM).
  { intros events now. apply unloaded_score_is_constant.
    - reflexivity.
    - intros [=].
    - reflexivity.
    - reflexivity.
    - reflexivity. }
  split; [apply Hconst |]. split; [apply calculateFallbackScore_failedEvents |].
  exact Hconst.
Qed.

(** The record built inside the private [calculateFallbackScore] takes
    its level from the unrounded score and stores the score rounded to two
    decimals, so the two can disagree next to a threshold: for one
    transaction 1661 seconds old the unrounded score is
    50 + 2 log10 2 - 1005/1661, about 49.997, the level is HIGH and the
    stored score is 50.  The callers in [getMLPrediction] keep the score
    of this record only, and the handler of [calculateWalletScore], the
    one place that would return the record as it is, is entered by no
    call with a string and an array of events; the record is not a result
    of the service. *)
Lemma fallback_record_level_from_unrounded_score :
  0.301 <= Math_log10 rt 2 -> Math_log10 rt 2 <= 0.3011 ->
  reputationScore (fst (calculateWalletScore_onError rt unloadedService ∅ clock
                          Codec.test_wallet [youngEvent])) == 50
  /\ riskLevel (fst (calculateWalletScore_onError rt unloadedService ∅ clock
                       Codec.test_wallet [youngEvent])) = HIGH
  /\ determineRiskLevel
       (reputationScore (fst (calculateWalletScore_onError rt unloadedService ∅ clock
                                Codec.test_wallet [youngEvent]))) = MEDIUM.
Proof.
  intros Hlo Hhi. unfold calculateWalletScore_onError.
  destruct (calculateFallbackScore_result unloadedService ∅ clock
              Codec.test_wallet [youngEvent]) as (-> & -> & _).
  change (isWalletBlacklisted unloadedService Codec.test_wallet) with false.
  rewrite (ruleBasedScore_inputs false [youngEvent] _ _ scoreInputs_youngEvent).
  destruct (ruleBasedScore_youngEvent Hlo Hhi) as [Hs1 Hs2].
  set (s := fst (fst (ruleBasedScore rt false [youngEvent] (withInputs youngInputs))))
    in *.
  assert (Hrep : roundFixed 2 s == 50).
  { rewrite (roundFixed2_value s 5000); [reflexivity | lra | |].
    - change (inject_Z 5000) with 5000. lra.
    - change (inject_Z 5000) with 5000. lra. }
  split; [exact Hrep |]. split.
  - apply determineRiskLevel_spec. split; lra.
  - apply determineRiskLevel_spec. rewrite Hrep. split; lra.
Qed.

(** *** Risk level of the results of the service *)

(** The level stands to the score as the thresholds 70, 50 and 30 say. *)
Definition levelMatchesScore (r : ScoringResult) : Prop :=
  (riskLevel r = LOW <-> 70 <= reputationScore r)
  /\ (riskLevel r = MEDIUM <-> 50 <= reputationScore r /\ reputationScore r < 70)
  /\ (riskLevel r = HIGH <-> 30 <= reputationScore r /\ reputationScore r < 50)
  /\ (riskLevel r = CRITICAL <-> reputationScore r < 30).

Lemma levelMatchesScore_intro (r : ScoringResult) :
  riskLevel r = determineRiskLevel (reputationScore r) -> levelMatchesScore r.
Proof. intros H. unfold levelMatchesScore. rewrite H. apply determineRiskLevel_spec. Qed.

Lemma batchScoreWallets_results svc walletEvents :
  forall history now w r,
    fst (batchScoreWallets rt svc history now walletEvents) !! w = Some r ->
    exists history' events,
      r = fst (calculateWalletScore rt svc history' now w events).
Proof.
  induction walletEvents as [| [w0 events0] rest IH]; intros history now w r Hr.
  - cbn [batchScoreWallets fst] in Hr. rewrite lookup_empty in Hr. discriminate.
  - cbn [batchScoreWallets] in Hr.
    destruct (calculateWalletScore rt svc history now w0 events0) as [result h1] eqn:E1.
    specialize (IH h1 now w).
    destruct (batchScoreWallets rt svc h1 now rest) as [results h2].
    cbn [fst] in Hr, IH.
    destruct (decide (w0 = w)) as [-> | Hne].
    + rewrite lookup_insert_eq in Hr. injection Hr as <-.
      exists history, events0. by rewrite E1.
    + rewrite lookup_insert_ne in Hr by exact Hne. by apply IH.
Qed.

(** With numbers for scores, every result the scoring service returns
    carries the level of the score it reports, with the cuts at 70, 50 and
    30: the result of [calculateWalletScore], whether the model answers,
    fails or is absent (the rule-based fallback), every entry of the map
    returned by [batchScoreWallets], and the neutral record of the batch
    error handler.  Scores of exactly 70, 50 and 30 are LOW, MEDIUM and
    HIGH. *)
Lemma risk_level_follows_numeric_score
    (svc : ScoringService) (history : gmap string (list WalletEvent)) (now : Z)
    (w : string) (events : list WalletEvent)
    (walletEvents : list (string * list WalletEvent)) :
  levelMatchesScore (fst (calculateWalletScore rt svc history now w events))
  /\ (forall w' r,
        fst (batchScoreWallets rt svc history now walletEvents) !! w' = Some r ->
        levelMatchesScore r)
  /\ levelMatchesScore (batchErrorResult rt history now w events)
  /\ (forall s, (s == 70 -> determineRiskLevel s = LOW)
                /\ (s == 50 -> determineRiskLevel s = MEDIUM)
                /\ (s == 30 -> determineRiskLevel s = HIGH)).
Proof.
  split; [| split; [| split]].
  - apply levelMatchesScore_intro, calculateWalletScore_level.
  - intros w' r Hr.
    destruct (batchScoreWallets_results svc walletEvents history now w' r Hr)
      as (history' & events' & ->).
    apply levelMatchesScore_intro, calculateWalletScore_level.
  - apply levelMatchesScore_intro, batchErrorResult_level.
  - intros s. repeat split; intros Hs; apply determineRiskLevel_spec; lra.
Qed.

End WithRuntime.

Lemma fallback_record_level_witness :
  (0.301 <= Math_log10 (ApproxRuntime.runtime 0) 2
   /\ Math_log10 (ApproxRuntime.runtime 0) 2 <= 0.3011)
  /\ reputationScore
       (fst (calculateWalletScore_onError (ApproxRuntime.runtime 0) unloadedService ∅
               clock Codec.test_wallet [youngEvent])) == 50
  /\ riskLevel
       (fst (calculateWalletScore_onError (ApproxRuntime.runtime 0) unloadedService ∅
               clock Codec.test_wallet [youngEvent])) = HIGH.
Proof.
  assert (Hlo : 0.301 <= Math_log10 (ApproxRuntime.runtime 0) 2)
    by (vm_compute; discriminate).
  assert (Hhi : Math_log10 (ApproxRuntime.runtime 0) 2 <= 0.3011)
    by (vm_compute; discriminate).
  split; [split; assumption |].
  destruct (fallback_record_level_from_unrounded_score (ApproxRuntime.runtime 0) Hlo Hhi)
    as (H1 & H2 & _).
  split; assumption.
Defined.

Lemma C6_rescoring_witness :
  (length (historyOf ∅ Codec.test_wallet) + 2 * length [youngEvent] <= MAX_HISTORY)%nat
  /\ Qeq_bool
       (transactionCount
          (features (fst (calculateWalletScore (ApproxRuntime.runtime 0) unloadedService
                            ∅ clock Codec.test_wallet [youngEvent]))))
       (transactionCount
          (features (fst (calculateWalletScore (ApproxRuntime.runtime 0) unloadedService
                            (snd (calculateWalletScore (ApproxRuntime.runtime 0)
                                    unloadedService ∅ clock Codec.test_wallet
                                    [youngEvent]))
                            clock Codec.test_wallet [youngEvent]))))
     = false.
Proof.
  assert (Hcap : (length (historyOf ∅ Codec.test_wallet) + 2 * length [youngEvent]
                  <= MAX_HISTORY)%nat)
    by (vm_compute; lia).
  assert (Hne : [youngEvent] <> []) by discriminate.
  split; [exact Hcap |].
  destruct (C6_rescoring_counts_events_twice (ApproxRuntime.runtime 0) unloadedService
              ∅ clock Codec.test_wallet [youngEvent] Hne Hcap) as (_ & H & _).
  exact H.
Defined.

End ScoringFacts.
(* ===================================================================== *)
(** ** The score of a model output that is not a number *)
(* ===================================================================== *)

Module ScoringNumberFacts.
Import Models Features Registry ScoringNumbers.
Local Open Scope Q_scope.

Lemma maximum_numbers (rest : list Q) : forall x,
  fold_left max2 (map Finite rest) (Finite x) = Finite (fold_left Qmax rest x).
Proof.
  induction rest as [| y rest IH]; intros x; [reflexivity |].
  cbn [map fold_left max2]. apply IH.
Qed.

Section WithRuntime.
Context (rt : Runtime).

(** On an output of rationals the score is the one of
    [Scoring.getMLPrediction]. *)
Lemma predictionScore_numbers (svc : Scoring.ScoringService)
    (session : Scoring.InferenceSession)
    (history : gmap string (list WalletEvent)) (now : Z) (f : FeatureVector)
    (outputData : list Q) :
  Scoring.model svc = Some session ->
  Scoring.mapFeaturesToModelFormat svc f <> [] ->
  session (Scoring.mapFeaturesToModelFormat svc f) = Some outputData ->
  Scoring.score (fst (Scoring.getMLPrediction rt svc history now f))
  = Scoring.clampScore
      (match outputData with
       | [p0; p1] => p1 * 100
       | [rawOutput] => 1 / (1 + Math_exp rt (- rawOutput)) * 100
       | [] => 0
       | _ => Qmaximum outputData * 100
       end)
  /\ exists s,
       predictionScore rt (map Finite outputData) = Finite s
       /\ s == Scoring.score (fst (Scoring.getMLPrediction rt svc history now f)).
Proof.
  intros Hmodel Hrow Hrun. unfold Scoring.getMLPrediction. rewrite Hmodel.
  destruct (Scoring.mapFeaturesToModelFormat svc f) as [| x row]; [congruence |].
  rewrite Hrun. cbn [fst Scoring.score].
  destruct outputData as [| a [| b [| c rest]]]; cbn [fst].
  - split; [reflexivity |]. eexists. split; [reflexivity |]. reflexivity.
  - split; [reflexivity |]. eexists. split; [reflexivity |]. reflexivity.
  - split; [reflexivity |]. eexists. split; [reflexivity |]. reflexivity.
  - split; [reflexivity |]. unfold predictionScore, maximum.
    cbn [map fold_left max2]. rewrite maximum_numbers.
    eexists. split; [reflexivity |]. reflexivity.
Qed.

(** On an output of rationals the reported score and level are those of
    [Scoring.calculateWalletScore]. *)
Lemma scoreOfModelOutput_numbers (svc : Scoring.ScoringService)
    (session : Scoring.InferenceSession)
    (history : gmap string (list WalletEvent)) (now : Z) (w : string)
    (events : list WalletEvent) (outputData : list Q) :
  let f := fst (extractFeaturesFromEvent rt history now w events) in
  let r := fst (Scoring.calculateWalletScore rt svc history now w events) in
  Scoring.model svc = Some session ->
  Scoring.mapFeaturesToModelFormat svc f <> [] ->
  session (Scoring.mapFeaturesToModelFormat svc f) = Some outputData ->
  exists s,
    scoreOfModelOutput rt (Scoring.isWalletBlacklisted svc w) (map Finite outputData)
    = (Finite s, riskLevel r)
    /\ s == reputationScore r.
Proof.
  cbv zeta. intros Hmodel Hrow Hrun. unfold Scoring.calculateWalletScore.
  destruct (extractFeaturesFromEvent rt history now w events) as [f h1].
  cbn [fst] in Hrow, Hrun. unfold Scoring.getMLPrediction. rewrite Hmodel.
  destruct (Scoring.mapFeaturesToModelFormat svc f) as [| x row]; [congruence |].
  rewrite Hrun. cbn [fst snd Scoring.score reputationScore riskLevel].
  unfold scoreOfModelOutput, predictionScore, maximum.
  destruct outputData as [| a [| b [| c rest]]]; cbn [fst map fold_left max2].
  - destruct (Scoring.isWalletBlacklisted svc w);
      (eexists; split; [reflexivity | reflexivity]).
  - eexists. split; [reflexivity | reflexivity].
  - eexists. split; [reflexivity | reflexivity].
  - rewrite maximum_numbers. eexists. split; [reflexivity | reflexivity].
Qed.

End WithRuntime.

(** The level against the reported score, whatever the number is. *)
Lemma determineRiskLevel_cases (score : jsnum) :
  (determineRiskLevel score = LOW <-> ge score 70 = true)
  /\ (determineRiskLevel score = MEDIUM <-> ge score 50 = true /\ lt score 70 = true)
  /\ (determineRiskLevel score = HIGH <-> ge score 30 = true /\ lt score 50 = true)
  /\ (determineRiskLevel score = CRITICAL <-> lt score 30 = true \/ score = NaN).
Proof.
  destruct score as [q | | |].
  - pose proof (ScoringFacts.determineRiskLevel_spec q) as (H1 & H2 & H3 & H4).
    change (determineRiskLevel (Finite q)) with (Scoring.determineRiskLevel q).
    cbn [ge lt]. rewrite !ScoringFacts.Qltb_true_iff, !Qle_bool_iff.
    split; [exact H1 |]. split; [exact H2 |]. split; [exact H3 |].
    rewrite H4. split; [auto | intros [H | H]; [exact H | discriminate]].
  - vm_compute. repeat split; try discriminate; auto; intros [? ?]; discriminate.
  - vm_compute. repeat split; try discriminate; auto;
      try (intros [? ?]; discriminate); intros [? | ?]; discriminate.
  - vm_compute. repeat split; try discriminate; auto; intros [? ?]; discriminate.
Qed.

(** C3, on the code: a model output that is [NaN] reaches the result
    unchanged.  [Math.min] and [Math.max] return [NaN] for it, so neither
    the clamp of [getMLPrediction] nor that of [calculateWalletScore]
    brings the score into 0..100, and [determineRiskLevel], whose
    comparisons all fail, answers CRITICAL: the result reports the score
    [NaN], which is not below 30, with the level CRITICAL and without the
    flag [critical_risk].  For every other reported score the level is the
    one the thresholds give. *)
Theorem C3_nan_output_is_scored_critical
    (rt : Runtime) (blacklisted : bool) (p0 : jsnum) (outputData : list jsnum) :
  scoreOfModelOutput rt blacklisted [p0; NaN] = (NaN, CRITICAL)
  /\ scoreOfModelOutput rt blacklisted [NaN] = (NaN, CRITICAL)
  /\ lt NaN 30 = false
  /\ riskFlags NaN = []
  /\ isValidScore NaN = false
  /\ (let score := fst (scoreOfModelOutput rt blacklisted outputData) in
      let level := snd (scoreOfModelOutput rt blacklisted outputData) in
      score <> NaN ->
      (level = LOW <-> ge score 70 = true)
      /\ (level = MEDIUM <-> ge score 50 = true /\ lt score 70 = true)
      /\ (level = HIGH <-> ge score 30 = true /\ lt score 50 = true)
      /\ (level = CRITICAL <-> lt score 30 = true)).
Proof.
  split; [by destruct blacklisted |]. split; [by destruct blacklisted |].
  split; [reflexivity |]. split; [reflexivity |]. split; [reflexivity |].
  cbv zeta. intros Hnum. unfold scoreOfModelOutput in *. cbn [fst snd] in *.
  match goal with |- context [determineRiskLevel ?s] =>
    destruct (determineRiskLevel_cases s) as (H1 & H2 & H3 & H4) end.
  split; [exact H1 |]. split; [exact H2 |]. split; [exact H3 |].
  rewrite H4. split; [| auto].
  intros [H | H]; [exact H | contradiction].
Qed.

End ScoringNumberFacts.
(* ===================================================================== *)
(** ** Lists and quotients: lemmas used below *)
(* ===================================================================== *)

Module ListLemmas.
Local Open Scope list_scope.

Lemma filter_pointwise {A} (p q : A -> bool) (l : list A) :
  (forall x, p x = q x) -> List.filter p l = List.filter q l.
Proof. intros H. induction l as [| x l IH]; simpl; [done |]. by rewrite H, IH. Qed.

Lemma length_filter_or {A} (p q : A -> bool) (l : list A) :
  (forall x, x ∈ l -> p x = true -> q x = false) ->
  length (List.filter (fun x => p x || q x) l)
  = (length (List.filter p l) + length (List.filter q l))%nat.
Proof.
  induction l as [| x l IH]; intros H; simpl; [reflexivity |].
  assert (Hx := H x ltac:(apply elem_of_cons; auto)).
  assert (IH' := IH ltac:(intros y Hy; apply H, elem_of_cons; auto)).
  destruct (p x); simpl.
  - rewrite Hx by reflexivity. simpl. lia.
  - destruct (q x); simpl; lia.
Qed.

Lemma existsb_filter {A} (p q : A -> bool) (l : list A) :
  existsb q (List.filter p l) = existsb (fun x => p x && q x) l.
Proof.
  induction l as [| x l IH]; [reflexivity |]. simpl.
  destruct (p x); simpl; by rewrite IH.
Qed.

Lemma forallb_pointwise {A} (p q : A -> bool) (l : list A) :
  (forall x, p x = q x) -> forallb p l = forallb q l.
Proof. intros H. induction l as [| x l IH]; simpl; [reflexivity | by rewrite H, IH]. Qed.

Lemma forallb_over_map {A B} (f : A -> B) (p : B -> bool) (l : list A) :
  forallb p (map f l) = forallb (fun x => p (f x)) l.
Proof. induction l as [| x l IH]; simpl; [reflexivity | by rewrite IH]. Qed.

Lemma length_filter_le {A} (p : A -> bool) (l : list A) :
  (length (List.filter p l) <= length l)%nat.
Proof. induction l as [| x l IH]; simpl; [lia |]. destruct (p x); simpl; lia. Qed.

(** *** Quotients of rationals *)

Lemma Qdiv_nonneg a b : (0 <= a)%Q -> (0 < b)%Q -> (0 <= a / b)%Q.
Proof.
  intros Ha Hb. unfold Qdiv. apply Qmult_le_0_compat; [exact Ha |].
  apply Qlt_le_weak, Qinv_lt_0_compat, Hb.
Qed.

Lemma Qdiv_le_pos a b c : (0 < c)%Q -> (a <= b)%Q -> (a / c <= b / c)%Q.
Proof.
  intros Hc Hab. unfold Qdiv. apply Qmult_le_compat_r; [exact Hab |].
  apply Qlt_le_weak, Qinv_lt_0_compat, Hc.
Qed.

End ListLemmas.
(* ===================================================================== *)
(** ** Addresses: normalization, spelling and generated values *)
(* ===================================================================== *)

Module AddressFacts.
Import Codec.
Local Open Scope list_scope.

(** *** Characters *)

Ltac each_ascii c := destruct c as [[] [] [] [] [] [] [] []]; vm_compute; reflexivity.

Lemma lower_lower c : lower_ascii (lower_ascii c) = lower_ascii c.
Proof. each_ascii c. Qed.

Lemma lower_upper c : lower_ascii (upper_ascii c) = lower_ascii c.
Proof. each_ascii c. Qed.

Lemma hex_lower c : is_hex_digit (lower_ascii c) = is_hex_digit c.
Proof. each_ascii c. Qed.

Lemma hex_upper c : is_hex_digit (upper_ascii c) = is_hex_digit c.
Proof. each_ascii c. Qed.

Lemma upper_hex_lower c : is_upper_hex (lower_ascii c) = false.
Proof. each_ascii c. Qed.

Lemma lower_id_iff c : is_upper_hex c = false -> is_hex_digit c = true -> lower_ascii c = c.
Proof. destruct c as [[] [] [] [] [] [] [] []]; vm_compute; congruence. Qed.

(** *** Strings as character lists *)

Lemma chars_of_chars l : list_ascii_of_string (string_of_list_ascii l) = l.
Proof. apply list_ascii_of_string_of_list_ascii. Qed.

Lemma string_of_chars s : string_of_list_ascii (list_ascii_of_string s) = s.
Proof. apply string_of_list_ascii_of_string. Qed.

Lemma chars_inj s1 s2 :
  list_ascii_of_string s1 = list_ascii_of_string s2 -> s1 = s2.
Proof. intros H. rewrite <- (string_of_chars s1), <- (string_of_chars s2). by rewrite H. Qed.

Lemma chars_toLowerCase s :
  list_ascii_of_string (toLowerCase s) = map lower_ascii (list_ascii_of_string s).
Proof. unfold toLowerCase. apply chars_of_chars. Qed.

Lemma chars_append s1 s2 :
  list_ascii_of_string (String.append s1 s2)
  = list_ascii_of_string s1 ++ list_ascii_of_string s2.
Proof. induction s1 as [| c s1 IH]; simpl; [reflexivity | by rewrite IH]. Qed.

Lemma toLowerCase_idempotent s : toLowerCase (toLowerCase s) = toLowerCase s.
Proof.
  apply chars_inj. rewrite !chars_toLowerCase, map_map.
  apply map_ext. intros c. apply lower_lower.
Qed.

(** *** The shape [0x] + 40 hexadecimal digits *)

Lemma matches_0x_hex40_inv s :
  matches_0x_hex40 s = true ->
  exists body, list_ascii_of_string s = "0"%char :: "x"%char :: body
               /\ length body = 40%nat /\ forallb is_hex_digit body = true.
Proof.
  unfold matches_0x_hex40.
  destruct (list_ascii_of_string s) as [| c0 [| c1 body]]; try discriminate.
  rewrite !andb_true_iff. intros [[[H0 H1] Hl] Hh].
  apply Ascii.eqb_eq in H0, H1. apply Nat.eqb_eq in Hl. subst. eauto.
Qed.

Lemma matches_0x_hex40_intro s body :
  list_ascii_of_string s = "0"%char :: "x"%char :: body ->
  length body = 40%nat -> forallb is_hex_digit body = true ->
  matches_0x_hex40 s = true.
Proof.
  intros Hs Hl Hh. unfold matches_0x_hex40. rewrite Hs, Hl, Hh. reflexivity.
Qed.

(** Induction two characters at a time, as [checksum_chars] recurses. *)
Lemma pair_induction {A} (P : list A -> Prop) :
  P [] -> (forall x, P [x]) -> (forall x y l, P l -> P (x :: y :: l)) ->
  forall l, P l.
Proof.
  intros H0 H1 H2.
  assert (G : forall l, P l /\ forall x, P (x :: l)).
  { induction l as [| y l [IH1 IH2]]; split; auto. }
  intros l. apply G.
Qed.

Lemma checksum_chars_lower chars : forall hashed,
  map lower_ascii (checksum_chars chars hashed) = map lower_ascii chars.
Proof.
  induction chars as [| x | x y l IH] using pair_induction; intros hashed.
  - by destruct hashed.
  - by destruct hashed.
  - destruct hashed as [| h hs]; [reflexivity |]. cbn [checksum_chars map].
    rewrite IH. f_equal; [| f_equal].
    + destruct (8 <=? N.shiftr h 4)%N; [apply lower_upper | reflexivity].
    + destruct (8 <=? N.land h 0x0f)%N; [apply lower_upper | reflexivity].
Qed.

Lemma checksum_chars_length chars : forall hashed,
  length (checksum_chars chars hashed) = length chars.
Proof.
  induction chars as [| x | x y l IH] using pair_induction; intros hashed.
  - by destruct hashed.
  - by destruct hashed.
  - destruct hashed as [| h hs]; [reflexivity |]. cbn [checksum_chars length].
    by rewrite IH.
Qed.

Lemma checksum_chars_hex chars : forall hashed,
  forallb is_hex_digit (checksum_chars chars hashed) = forallb is_hex_digit chars.
Proof.
  induction chars as [| x | x y l IH] using pair_induction; intros hashed.
  - by destruct hashed.
  - by destruct hashed.
  - destruct hashed as [| h hs]; [reflexivity |]. cbn [checksum_chars forallb].
    rewrite IH. f_equal; [| f_equal].
    + destruct (8 <=? N.shiftr h 4)%N; [apply hex_upper | reflexivity].
    + destruct (8 <=? N.land h 0x0f)%N; [apply hex_upper | reflexivity].
Qed.

(** The checksum spelling reads the address in lower case only. *)
Lemma getChecksumAddress_lower w1 w2 :
  toLowerCase w1 = toLowerCase w2 -> getChecksumAddress w1 = getChecksumAddress w2.
Proof. intros H. unfold getChecksumAddress. by rewrite H. Qed.

Lemma chars_getChecksumAddress w body :
  list_ascii_of_string w = "0"%char :: "x"%char :: body ->
  list_ascii_of_string (getChecksumAddress w)
  = "0"%char :: "x"%char
      :: checksum_chars (map lower_ascii body)
                        (Keccak.keccak256 (map N_of_ascii (map lower_ascii body))).
Proof.
  intros Hw. unfold getChecksumAddress.
  rewrite chars_toLowerCase, Hw. cbn [map skipn].
  change (list_ascii_of_string (String.append "0x" ?s))
    with ("0"%char :: "x"%char :: list_ascii_of_string s).
  cbn [String.append list_ascii_of_string]. by rewrite chars_of_chars.
Qed.

Lemma toLowerCase_getChecksumAddress w :
  matches_0x_hex40 w = true ->
  toLowerCase (getChecksumAddress w) = toLowerCase w.
Proof.
  intros Hm. destruct (matches_0x_hex40_inv w Hm) as (body & Hw & _ & _).
  apply chars_inj. rewrite !chars_toLowerCase, (chars_getChecksumAddress w body Hw), Hw.
  cbn [map]. rewrite checksum_chars_lower, map_map.
  f_equal. f_equal. apply map_ext. intros c. apply lower_lower.
Qed.

Lemma matches_getChecksumAddress w :
  matches_0x_hex40 w = true -> matches_0x_hex40 (getChecksumAddress w) = true.
Proof.
  intros Hm. destruct (matches_0x_hex40_inv w Hm) as (body & Hw & Hl & Hh).
  eapply matches_0x_hex40_intro; [apply (chars_getChecksumAddress w body Hw) | |].
  - by rewrite checksum_chars_length, length_map.
  - rewrite checksum_chars_hex, ListLemmas.forallb_over_map.
    rewrite (ListLemmas.forallb_pointwise _ is_hex_digit); [exact Hh |]. intros c. apply hex_lower.
Qed.

Lemma getChecksumAddress_idempotent w :
  matches_0x_hex40 w = true ->
  getChecksumAddress (getChecksumAddress w) = getChecksumAddress w.
Proof. intros Hm. by apply getChecksumAddress_lower, toLowerCase_getChecksumAddress. Qed.

Lemma nonempty_of_matches w : matches_0x_hex40 w = true -> String.eqb w "" = false.
Proof.
  intros Hm. destruct w; [discriminate | reflexivity].
Qed.

(** What the validator answers on a string of the right shape. *)
Lemma isValidEthereumAddress_shape w :
  matches_0x_hex40 w = true ->
  isValidEthereumAddress w
  = if negb (mixed_case w) || String.eqb (getChecksumAddress w) w
    then {| isValid := true; errors := []; normalized := Some (getChecksumAddress w) |}
    else {| isValid := false; errors := ["Invalid address checksum"];
            normalized := None |}.
Proof.
  intros Hm. unfold isValidEthereumAddress, getAddress.
  rewrite (nonempty_of_matches w Hm), Hm. cbn [orb].
  by destruct (negb (mixed_case w) || String.eqb (getChecksumAddress w) w).
Qed.

Lemma mixed_case_toLowerCase w : mixed_case (toLowerCase w) = false.
Proof.
  unfold mixed_case. rewrite chars_toLowerCase.
  assert (H : existsb is_upper_hex (map lower_ascii (list_ascii_of_string w)) = false).
  { induction (list_ascii_of_string w) as [| c l IH]; [reflexivity |].
    cbn [map existsb]. by rewrite upper_hex_lower, IH. }
  by rewrite H.
Qed.

Lemma matches_toLowerCase w :
  matches_0x_hex40 w = true -> matches_0x_hex40 (toLowerCase w) = true.
Proof.
  intros Hm. destruct (matches_0x_hex40_inv w Hm) as (body & Hw & Hl & Hh).
  eapply (matches_0x_hex40_intro _ (map lower_ascii body)).
  - rewrite chars_toLowerCase, Hw. reflexivity.
  - by rewrite length_map.
  - rewrite ListLemmas.forallb_over_map. rewrite (ListLemmas.forallb_pointwise _ is_hex_digit); [exact Hh |]. intros c. apply hex_lower.
Qed.

(** *** Normalization *)

(** X1: the normalized form of an accepted address differs from what was
    sent in letter case only, and validating it again accepts it and gives
    it back unchanged. *)
Theorem normalization_is_idempotent (w : string) :
  isValid (isValidEthereumAddress w) = true ->
  exists n,
    normalized (isValidEthereumAddress w) = Some n
    /\ toLowerCase n = toLowerCase w
    /\ isValidEthereumAddress n
       = {| isValid := true; errors := []; normalized := Some n |}.
Proof.
  intros Hv. destruct (CodecFacts.valid_address_normalized w Hv) as (_ & Hm & Hn).
  exists (getChecksumAddress w). split; [exact Hn |].
  split; [by apply toLowerCase_getChecksumAddress |].
  rewrite (isValidEthereumAddress_shape _ (matches_getChecksumAddress w Hm)).
  rewrite (getChecksumAddress_idempotent w Hm), String.eqb_refl, orb_true_r.
  reflexivity.
Qed.

Lemma normalization_witness :
  exists n,
    normalized (isValidEthereumAddress test_wallet_lower) = Some n
    /\ toLowerCase n = toLowerCase test_wallet_lower
    /\ isValidEthereumAddress n
       = {| isValid := true; errors := []; normalized := Some n |}.
Proof.
  apply (normalization_is_idempotent test_wallet_lower). vm_compute. reflexivity.
Defined.

(** X2: two accepted spellings of one address (equal once lower-cased)
    have the same normalized form, and the all-lower-case spelling of an
    accepted address is accepted with that form as well. *)
Theorem valid_spellings_share_normal_form (w1 w2 : string) :
  isValid (isValidEthereumAddress w1) = true ->
  isValid (isValidEthereumAddress w2) = true ->
  toLowerCase w1 = toLowerCase w2 ->
  normalized (isValidEthereumAddress w1) = normalized (isValidEthereumAddress w2)
  /\ isValidEthereumAddress (toLowerCase w1)
     = {| isValid := true; errors := [];
          normalized := normalized (isValidEthereumAddress w1) |}.
Proof.
  intros Hv1 Hv2 Hl.
  destruct (CodecFacts.valid_address_normalized w1 Hv1) as (_ & Hm1 & Hn1).
  destruct (CodecFacts.valid_address_normalized w2 Hv2) as (_ & Hm2 & Hn2).
  split.
  - rewrite Hn1, Hn2. f_equal. by apply getChecksumAddress_lower.
  - rewrite (isValidEthereumAddress_shape _ (matches_toLowerCase w1 Hm1)).
    rewrite mixed_case_toLowerCase. cbn [negb orb]. rewrite Hn1. do 2 f_equal.
    apply getChecksumAddress_lower, toLowerCase_idempotent.
Qed.

Lemma valid_spellings_witness :
  normalized (isValidEthereumAddress test_wallet)
  = normalized (isValidEthereumAddress test_wallet_lower)
  /\ isValidEthereumAddress (toLowerCase test_wallet)
     = {| isValid := true; errors := [];
          normalized := normalized (isValidEthereumAddress test_wallet) |}.
Proof.
  apply (valid_spellings_share_normal_form test_wallet test_wallet_lower);
    vm_compute; reflexivity.
Defined.

(** *** Generated addresses and hashes *)

Definition lower_hex_string (s : string) : Prop :=
  exists c, s = String c EmptyString /\ is_hex_digit c = true /\ is_upper_hex c = false.

Lemma toString16_digit (r : Q) :
  (0 <= r)%Q -> (r < 1)%Q -> lower_hex_string (Helpers.toString16 (Qfloor (r * 16))).
Proof.
  intros H0 H1.
  assert (Hlo : (0 <= Qfloor (r * 16))%Z).
  { apply (Qfloor_resp_le 0 (r * 16)). lra. }
  assert (Hhi : (Qfloor (r * 16) < 16)%Z).
  { rewrite Zlt_Qlt. eapply Qle_lt_trans; [apply Qfloor_le |].
    change (inject_Z 16) with 16%Q. lra. }
  remember (Qfloor (r * 16)) as z eqn:Hz. clear Hz.
  assert (Hc : (z = 0 \/ z = 1 \/ z = 2 \/ z = 3 \/ z = 4 \/ z = 5 \/ z = 6 \/ z = 7
               \/ z = 8 \/ z = 9 \/ z = 10 \/ z = 11 \/ z = 12 \/ z = 13 \/ z = 14
               \/ z = 15)%Z) by lia.
  repeat (destruct Hc as [-> | Hc];
          [eexists; split; [vm_compute; reflexivity | split; reflexivity] |]).
  subst z. eexists; split; [vm_compute; reflexivity | split; reflexivity].
Qed.

Lemma chars_join_digits (l : list string) :
  Forall lower_hex_string l ->
  length (list_ascii_of_string (Scoring.join "" l)) = length l
  /\ forallb is_hex_digit (list_ascii_of_string (Scoring.join "" l)) = true
  /\ existsb is_upper_hex (list_ascii_of_string (Scoring.join "" l)) = false.
Proof.
  induction 1 as [| s l (c & -> & Hh & Hu) _ (IH1 & IH2 & IH3)]; [by simpl |].
  assert (E : list_ascii_of_string (Scoring.join "" (String c EmptyString :: l))
              = c :: list_ascii_of_string (Scoring.join "" l)).
  { destruct l as [| s' l']; reflexivity. }
  rewrite E. cbn [length forallb existsb]. by rewrite IH1, IH2, IH3, Hh, Hu.
Qed.

Lemma randomHex_digits (rand : Helpers.Random) (n : nat) :
  (forall i, (0 <= rand i)%Q /\ (rand i < 1)%Q) ->
  length (list_ascii_of_string (Helpers.randomHex rand n)) = n
  /\ forallb is_hex_digit (list_ascii_of_string (Helpers.randomHex rand n)) = true
  /\ existsb is_upper_hex (list_ascii_of_string (Helpers.randomHex rand n)) = false.
Proof.
  intros Hr. unfold Helpers.randomHex.
  destruct (chars_join_digits
              (map (fun i => Helpers.toString16 (Qfloor (rand i * 16))) (seq 0 n)))
    as (H1 & H2 & H3).
  - apply Forall_map, Forall_forall. intros i _. by apply toString16_digit; apply Hr.
  - by rewrite length_map, length_seq in H1.
Qed.

(** X3: whatever [Math.random] draws, [generateRandomAddress] returns a
    lower-case address that [isValidEthereumAddress] accepts, and
    [generateRandomHash] a string that [isValidTransactionHash] accepts. *)
Theorem generated_values_validate (rand : Helpers.Random) :
  (forall i, (0 <= rand i)%Q /\ (rand i < 1)%Q) ->
  isValid (isValidEthereumAddress (Helpers.generateRandomAddress rand)) = true
  /\ toLowerCase (Helpers.generateRandomAddress rand) = Helpers.generateRandomAddress rand
  /\ Validators.isValidTransactionHash (Helpers.generateRandomHash rand) = true.
Proof.
  intros Hr.
  destruct (randomHex_digits rand 40 Hr) as (Hl & Hh & Hu).
  destruct (randomHex_digits rand 64 Hr) as (Hl' & Hh' & _).
  set (a := Helpers.generateRandomAddress rand).
  assert (Ea : list_ascii_of_string a
               = "0"%char :: "x"%char :: list_ascii_of_string (Helpers.randomHex rand 40))
    by reflexivity.
  assert (Hm : matches_0x_hex40 a = true)
    by (eapply matches_0x_hex40_intro; eauto).
  assert (Hmc : mixed_case a = false).
  { unfold mixed_case. rewrite Ea. cbn [existsb]. by rewrite Hu. }
  split; [| split].
  - rewrite (isValidEthereumAddress_shape a Hm), Hmc. reflexivity.
  - apply chars_inj. rewrite chars_toLowerCase, Ea. cbn [map]. do 2 f_equal.
    revert Hh Hu. generalize (list_ascii_of_string (Helpers.randomHex rand 40)).
    induction l as [| c l IH]; [reflexivity |]. cbn [forallb existsb map].
    rewrite andb_true_iff, orb_false_iff. intros [Hc Hh] [Hc' Hu].
    by rewrite (lower_id_iff c Hc' Hc), IH.
  - unfold Validators.isValidTransactionHash.
    change (list_ascii_of_string (Helpers.generateRandomHash rand))
      with ("0"%char :: "x"%char :: list_ascii_of_string (Helpers.randomHex rand 64)).
    cbv iota. by rewrite Hl', Hh'.
Qed.

(** A generator that walks through sixteenths. *)
Definition sampleRandom : Helpers.Random :=
  fun i => (Z.of_nat (i mod 16) # 16).

Lemma sampleRandom_range i : (0 <= sampleRandom i)%Q /\ (sampleRandom i < 1)%Q.
Proof.
  unfold sampleRandom, Qle, Qlt. simpl.
  pose proof (Nat.mod_upper_bound i 16). lia.
Qed.

Lemma generated_values_witness :
  isValid (isValidEthereumAddress (Helpers.generateRandomAddress sampleRandom)) = true
  /\ toLowerCase (Helpers.generateRandomAddress sampleRandom)
     = Helpers.generateRandomAddress sampleRandom
  /\ Validators.isValidTransactionHash (Helpers.generateRandomHash sampleRandom) = true.
Proof. exact (generated_values_validate sampleRandom sampleRandom_range). Defined.

Example generateRandomAddress_sample :
  Helpers.generateRandomAddress sampleRandom
  = "0x0123456789abcdef0123456789abcdef01234567"%string.
Proof. vm_compute. reflexivity. Qed.

End AddressFacts.
(* ===================================================================== *)
(** ** Feature extraction: history order and feature ranges *)
(* ===================================================================== *)

Module FeatureFacts.
Import Models Features FeatureOps.
Local Open Scope list_scope.

(** *** The stored history *)

(** Newest first: no later entry has a larger timestamp. *)
Definition newerFirst (a b : WalletEvent) : Prop := (timestamp b <= timestamp a)%Z.

Lemma insert_desc_perm x l : insert_desc x l ≡ₚ x :: l.
Proof.
  induction l as [| y l IH]; simpl; [reflexivity |].
  destruct (timestamp x <? timestamp y)%Z; [| reflexivity].
  rewrite IH. apply Permutation_swap.
Qed.

Lemma sort_desc_perm l : sort_desc l ≡ₚ l.
Proof.
  induction l as [| x l IH]; simpl; [reflexivity |].
  rewrite insert_desc_perm. by rewrite IH.
Qed.

Lemma insert_desc_sorted x l :
  Sorted.StronglySorted newerFirst l ->
  Sorted.StronglySorted newerFirst (insert_desc x l).
Proof.
  induction 1 as [| y l Hl IH Hy]; simpl.
  - constructor; constructor.
  - destruct (Z.ltb_spec (timestamp x) (timestamp y)) as [Hlt | Hge].
    + constructor; [exact IH |].
      rewrite insert_desc_perm. constructor; [unfold newerFirst; lia | exact Hy].
    + constructor; [by constructor |].
      constructor; [exact Hge |].
      eapply Forall_impl; [exact Hy |]. unfold newerFirst. intros z Hz. simpl in Hz. lia.
Qed.

Lemma sort_desc_sorted l : Sorted.StronglySorted newerFirst (sort_desc l).
Proof.
  induction l as [| x l IH]; simpl; [constructor | by apply insert_desc_sorted].
Qed.

Lemma sorted_take_drop n l :
  Sorted.StronglySorted newerFirst l ->
  Sorted.StronglySorted newerFirst (take n l)
  /\ forall d s, d ∈ drop n l -> s ∈ take n l -> newerFirst s d.
Proof.
  intros Hl. revert n. induction Hl as [| x l Hl IH Hx]; intros n.
  - rewrite take_nil, drop_nil. split; [constructor |]. intros d s Hd. by apply elem_of_nil in Hd.
  - destruct n as [| n]; simpl.
    + split; [constructor |]. intros d s _ Hs. by apply elem_of_nil in Hs.
    + destruct (IH n) as [IH1 IH2]. split.
      * constructor; [exact IH1 |].
        apply Forall_forall. intros y Hy.
        rewrite Forall_forall in Hx. apply Hx. by apply (subseteq_take n l).
      * intros d s Hd Hs. apply elem_of_cons in Hs as [-> | Hs]; [| by apply IH2].
        rewrite Forall_forall in Hx. apply Hx. by apply (subseteq_drop n l).
Qed.

(** X13: after [updateTransactionHistory] the wallet's history is ordered
    newest first and holds at most 1000 events: the stored events and the
    dropped ones together are the old history and the new events, and no
    dropped event is newer than a stored one.  No other wallet's history
    changes. *)
Theorem history_keeps_the_newest
    (history : gmap string (list WalletEvent)) (w : string)
    (newEvents : list WalletEvent) :
  let old := ScoringFacts.historyOf history w in
  let stored := ScoringFacts.historyOf (updateTransactionHistory history w newEvents) w in
  Sorted.StronglySorted newerFirst stored
  /\ length stored = Nat.min MAX_HISTORY (length old + length newEvents)
  /\ (exists dropped,
        stored ++ dropped ≡ₚ old ++ newEvents
        /\ forall d s, d ∈ dropped -> s ∈ stored -> (timestamp d <= timestamp s)%Z)
  /\ (forall w', w' <> w ->
        updateTransactionHistory history w newEvents !! w' = history !! w').
Proof.
  cbv zeta. rewrite ScoringFacts.historyOf_update_same.
  set (all := ScoringFacts.historyOf history w ++ newEvents).
  destruct (sorted_take_drop MAX_HISTORY (sort_desc all) (sort_desc_sorted all))
    as [Hs Hd].
  split; [exact Hs |]. split; [| split].
  - rewrite length_firstn, ScoringFacts.length_sort_desc. unfold all.
    by rewrite length_app.
  - exists (drop MAX_HISTORY (sort_desc all)). split.
    + rewrite take_drop. apply sort_desc_perm.
    + intros d s Hd' Hs'. exact (Hd d s Hd' Hs').
  - intros w' Hne. unfold updateTransactionHistory. by rewrite lookup_insert_ne.
Qed.

(** *** History size *)

Lemma getHistorySize_historyOf history w :
  getHistorySize history w = length (ScoringFacts.historyOf history w).
Proof.
  unfold getHistorySize, ScoringFacts.historyOf. by destruct (history !! w).
Qed.

Section WithRuntime.
Context (rt : Runtime).

(** X14: [getHistorySize] grows by the number of events of every
    extraction, up to 1000, whether or not the events were seen before;
    [clearHistory] resets it to 0 for that wallet only, and the next
    extraction then counts the new events alone. *)
Theorem history_size_accumulates
    (history : gmap string (list WalletEvent)) (nowMs : Z) (w : string)
    (events : list WalletEvent) :
  getHistorySize (snd (extractFeaturesFromEvent rt history nowMs w events)) w
  = Nat.min 1000 (getHistorySize history w + length events)
  /\ getHistorySize (clearHistory history w) w = 0%nat
  /\ (forall w', w' <> w ->
        getHistorySize (clearHistory history w) w' = getHistorySize history w')
  /\ transactionCount
       (fst (extractFeaturesFromEvent rt (clearHistory history w) nowMs w events))
     = inject_Z (Z.of_nat (Nat.min 1000 (length events))).
Proof.
  split; [| split; [| split]].
  - rewrite ScoringFacts.extract_snd, !getHistorySize_historyOf.
    apply ScoringFacts.length_historyOf_update.
  - unfold getHistorySize, clearHistory. by rewrite lookup_delete_eq.
  - intros w' Hne. unfold getHistorySize, clearHistory. by rewrite lookup_delete_ne.
  - rewrite ScoringFacts.extract_fst, ScoringFacts.featuresOf_transactionCount.
    unfold Qlen. rewrite ScoringFacts.length_historyOf_update.
    unfold ScoringFacts.historyOf, clearHistory. rewrite lookup_delete_eq. reflexivity.
Qed.

(** *** Ranges of the features *)

Lemma Qlen_nonneg {A} (l : list A) : (0 <= Qlen l)%Q.
Proof. unfold Qlen. change 0%Q with (inject_Z 0). rewrite <- Zle_Qle. lia. Qed.

Lemma Qlen_le {A B} (l : list A) (l' : list B) :
  (length l <= length l')%nat -> (Qlen l <= Qlen l')%Q.
Proof. intros H. unfold Qlen. rewrite <- Zle_Qle. lia. Qed.

Lemma Qlen_filter_le {A} (p : A -> bool) (l : list A) :
  (Qlen (List.filter p l) <= Qlen l)%Q.
Proof. apply Qlen_le, ListLemmas.length_filter_le. Qed.

Lemma fold_Qmin_le (rest : list Q) : forall x, (fold_left Qmin rest x <= x)%Q.
Proof.
  induction rest as [| y rest IH]; intros x; simpl; [apply Qle_refl |].
  eapply Qle_trans; [apply IH | apply Q.le_min_l].
Qed.

Lemma fold_Qmax_ge (rest : list Q) : forall x, (x <= fold_left Qmax rest x)%Q.
Proof.
  induction rest as [| y rest IH]; intros x; simpl; [apply Qle_refl |].
  eapply Qle_trans; [apply Q.le_max_l | apply IH].
Qed.

Lemma Qminimum_le_Qmaximum (l : list Q) : (Qminimum l <= Qmaximum l)%Q.
Proof.
  destruct l as [| x rest]; simpl; [apply Qle_refl |].
  eapply Qle_trans; [apply fold_Qmin_le | apply fold_Qmax_ge].
Qed.

Lemma size_list_to_set_le `{Countable K} (l : list K) :
  (size (list_to_set l : gset K) <= length l)%nat.
Proof.
  induction l as [| x l IH]; [reflexivity |].
  cbn [list_to_set length]. rewrite size_union_alt, size_singleton.
  assert (size (list_to_set l ∖ {[x]} : gset K) <= size (list_to_set l : gset K))%nat
    by (apply subseteq_size, subseteq_difference_l; done).
  lia.
Qed.

Lemma length_counterparties (l : list WalletEvent) :
  (length (flat_map counterparties l) <= 2 * length l)%nat.
Proof.
  induction l as [| tx l IH]; simpl; [lia |]. rewrite !length_app.
  unfold counterparties at 1. rewrite length_app.
  destruct (String.eqb (from tx) ""), (truthy_string (to tx)); simpl; lia.
Qed.

(** X15: whatever the events, the feature vector stays within its caps:
    at most 100 transactions per day, an age of at most five years, at
    most a year since the last transaction and at most two years of active
    days; the counts of failed transactions, contract interactions, active
    days and counterparties are bounded by the number of transactions; and
    for a non-empty history the time since the last transaction is never
    more than the account age. *)
Theorem feature_vector_bounds (nowMs : Z) (events : list WalletEvent) :
  (0 <= transactionsPerDay (featuresOf rt nowMs events)
   /\ transactionsPerDay (featuresOf rt nowMs events) <= 100
   /\ accountAgeDays (featuresOf rt nowMs events) <= 1825
   /\ daysSinceLastTx (featuresOf rt nowMs events) <= 365
   /\ activeDays (featuresOf rt nowMs events) <= 730
   /\ activeDays (featuresOf rt nowMs events)
      <= transactionCount (featuresOf rt nowMs events)
   /\ failedTransactions (featuresOf rt nowMs events)
      <= transactionCount (featuresOf rt nowMs events)
   /\ contractInteractions (featuresOf rt nowMs events)
      <= transactionCount (featuresOf rt nowMs events)
   /\ uniqueCounterparties (featuresOf rt nowMs events)
      <= 2 * transactionCount (featuresOf rt nowMs events)
   /\ gasUsagePattern (featuresOf rt nowMs events) <= 1
   /\ (events <> [] ->
       daysSinceLastTx (featuresOf rt nowMs events)
       <= accountAgeDays (featuresOf rt nowMs events)))%Q.
Proof.
  unfold featuresOf.
  cbn [transactionsPerDay accountAgeDays daysSinceLastTx activeDays transactionCount
       failedTransactions contractInteractions uniqueCounterparties gasUsagePattern].
  repeat split.
  - apply Q.min_glb; [| lra].
    destruct (Qgtb _ 0) eqn:Hage; [| apply Qle_refl].
    apply ListLemmas.Qdiv_nonneg; [apply Qlen_nonneg |].
    unfold Qgtb in Hage. apply negb_true_iff in Hage.
    by apply ScoringFacts.Qle_bool_false_iff in Hage.
  - apply Q.le_min_r.
  - eapply Qle_trans; [apply Q.le_min_r | vm_compute; discriminate].
  - apply Q.le_min_r.
  - eapply Qle_trans; [apply Q.le_min_r | vm_compute; discriminate].
  - eapply Qle_trans; [apply Q.le_min_l |]. unfold calculateActiveDays, Qlen.
    rewrite <- Zle_Qle. pose proof (size_list_to_set_le (map (localDay rt) events)).
    rewrite length_map in *. lia.
  - apply Qlen_filter_le.
  - apply Qlen_filter_le.
  - unfold Qlen. change 2%Q with (inject_Z 2). rewrite <- inject_Z_mult, <- Zle_Qle.
    pose proof (size_list_to_set_le (flat_map counterparties events)).
    pose proof (length_counterparties events). lia.
  - unfold normalizeGasPattern. apply Q.le_min_r.
  - intros Hne. destruct events as [| e events]; [congruence |]. cbn [map].
    set (ts := inject_Z (timestamp e) :: map (fun tx => inject_Z (timestamp tx)) events).
    apply Q.min_glb.
    + eapply Qle_trans; [apply Q.le_min_l |].
      apply ListLemmas.Qdiv_le_pos; [reflexivity |].
      pose proof (Qminimum_le_Qmaximum ts). lra.
    + eapply Qle_trans; [apply Q.le_min_r | vm_compute; discriminate].
Qed.

(** *** Normalized features *)

Lemma normalizeFeature_range value min max :
  (0 <= normalizeFeature value min max /\ normalizeFeature value min max <= 1)%Q.
Proof.
  unfold normalizeFeature. destruct (Qeq_bool max min); [split; lra |].
  split; [apply Q.le_max_l |]. apply Q.max_lub; [lra | apply Q.le_min_l].
Qed.

End WithRuntime.

(** X16: [normalizeFeatures] returns twenty numbers, each between 0 and 1,
    for every feature vector of numbers; a feature at or above the top of
    its range is sent as 1 and one at or below 0 as 0. *)
Theorem normalized_features_in_unit_range (f : FeatureVector) :
  length (normalizeFeatures f) = 20%nat
  /\ Forall (fun x => (0 <= x)%Q /\ (x <= 1)%Q) (normalizeFeatures f)
  /\ (forall value max, (0 < max)%Q ->
        ((max <= value)%Q -> (normalizeFeature value 0 max == 1)%Q)
        /\ ((value <= 0)%Q -> (normalizeFeature value 0 max == 0)%Q)).
Proof.
  split; [reflexivity |]. split.
  - unfold normalizeFeatures. repeat (constructor; [apply normalizeFeature_range |]).
    constructor.
  - intros value max Hmax.
    assert (Hne : Qeq_bool max 0 = false).
    { destruct (Qeq_bool max 0) eqn:E; [| reflexivity]. apply Qeq_bool_iff in E. lra. }
    unfold normalizeFeature. rewrite Hne.
    assert (Hq : ((value - 0) / (max - 0) == value / max)%Q) by (field; lra).
    split; intros Hv.
    + assert (1 <= (value - 0) / (max - 0))%Q.
      { rewrite Hq. apply Qle_shift_div_l; [exact Hmax | lra]. }
      rewrite (Q.min_l 1 _) by assumption. apply Q.max_r. lra.
    + assert ((value - 0) / (max - 0) <= 0)%Q.
      { rewrite Hq. apply Qle_shift_div_r; [exact Hmax | lra]. }
      apply Q.max_l. eapply Qle_trans; [apply Q.le_min_r | assumption].
Qed.

End FeatureFacts.
(* ===================================================================== *)
(** ** The broadcast hub: subscriptions, windows and housekeeping *)
(* ===================================================================== *)

Module HubMoreFacts.
Import Models Hub HubMaintenance.
Local Open Scope list_scope.
Local Open Scope Z_scope.

(** *** Subscribing and unsubscribing *)

Lemma validateUnsubscribeData_valid w session :
  Codec.isValid (Codec.isValidEthereumAddress w) = true ->
  validateUnsubscribeData (Fields (FString w) session)
  = inr (Codec.getChecksumAddress w, session).
Proof.
  intros Hv. destruct (CodecFacts.valid_address_normalized w Hv) as (Hne & _ & Hn).
  unfold validateUnsubscribeData, walletErrors, normalizedWallet.
  by rewrite Hne, Hv, Hn.
Qed.

Lemma union_difference_singleton (S : gset string) (n : string) :
  ({[n]} ∪ S) ∖ {[n]} = S ∖ {[n]}.
Proof.
  apply set_eq. intros x.
  rewrite !elem_of_difference, elem_of_union, elem_of_singleton. tauto.
Qed.

Lemma elem_of_union_singleton (S : gset string) (n : string) : n ∈ {[n]} ∪ S.
Proof. apply elem_of_union. left. by apply elem_of_singleton. Qed.

Lemma difference_subseteq (S : gset string) (n : string) : S ∖ {[n]} ⊆ S.
Proof. by apply subseteq_difference_l. Qed.

(** X4: a wallet subscribed with one accepted spelling is unsubscribed by
    any accepted spelling of the same address: the subscription set is
    back to what it was, without the wallet, and the acknowledgement says
    that a subscription was removed. *)
Theorem subscribe_then_unsubscribe
    (gen : IdGen) (t1 t2 : Z) (counts : gmap string RateInfo)
    (c : WebSocketConnection) (w w' : string) (session session' : field) :
  fst (checkRateLimit counts t1 (id c)) = true ->
  Codec.isValid (Codec.isValidEthereumAddress w) = true ->
  Codec.isValid (Codec.isValidEthereumAddress w') = true ->
  Codec.toLowerCase w' = Codec.toLowerCase w ->
  session <> FOther ->
  (size (subscribedWallets c) < maxSubscriptions)%nat ->
  connected c = true ->
  let c1 := snd (fst (handleSubscribe gen t1 counts c (Fields (FString w) session))) in
  let r := handleUnsubscribe gen t2 c1 (Fields (FString w') session') in
  subscribedWallets (fst r) = subscribedWallets c ∖ {[Codec.getChecksumAddress w]}
  /\ snd r
     = [(id c,
         {| msg_type := UNSUBSCRIBE; msg_id := gen "msg"; msg_timestamp := t2;
            version := "1.0.0";
            data := UnsubscribeData (Codec.getChecksumAddress w) session' true
                      (String.append "Unsubscribed from wallet "
                                     (Codec.getChecksumAddress w)) |})].
Proof.
  intros Hrate Hv Hv' Hl Hs Hsize Hconn. cbv zeta.
  pose proof (HubFacts.handleSubscribe_stores_checksum gen t1 counts c w session
                Hrate Hv Hs Hsize) as Hsub.
  destruct (HubFacts.handleSubscribe_frame gen t1 counts c (Fields (FString w) session))
    as (Hid & Hc & _).
  set (c1 := snd (fst (handleSubscribe gen t1 counts c (Fields (FString w) session))))
    in *.
  unfold handleUnsubscribe. rewrite (validateUnsubscribeData_valid w' session' Hv').
  rewrite (AddressFacts.getChecksumAddress_lower w' w Hl).
  cbn [touch id connected subscribedWallets fst snd]. rewrite Hsub.
  split; [apply union_difference_singleton |].
  unfold sendMessage. cbn [connected id]. rewrite Hc, Hconn, Hid.
  rewrite bool_decide_eq_true_2 by apply elem_of_union_singleton. reflexivity.
Qed.

Lemma subscribe_then_unsubscribe_witness :
  subscribedWallets
    (fst (handleUnsubscribe HubFacts.sampleGen 2000
            (snd (fst (handleSubscribe HubFacts.sampleGen 1000 ∅
                         HubFacts.sampleConnection HubFacts.samplePayload)))
            (Fields (FString Codec.test_wallet_lower) FAbsent)))
  = subscribedWallets HubFacts.sampleConnection
      ∖ {[Codec.getChecksumAddress Codec.test_wallet]}.
Proof.
  apply (subscribe_then_unsubscribe HubFacts.sampleGen 1000 2000 ∅
           HubFacts.sampleConnection Codec.test_wallet Codec.test_wallet_lower
           (FString "test-session-123") FAbsent);
    try (vm_compute; reflexivity); try discriminate.
  vm_compute. lia.
Defined.

(** X5: a connection never holds more than 50 subscriptions.  At 50 every
    further [subscribe] that passes the rate limit and validation is
    turned down with [SUBSCRIPTION_LIMIT_EXCEEDED], also for a wallet the
    connection is subscribed to already, and the set is left as it is. *)
Theorem subscription_cap
    (gen : IdGen) (now : Z) (counts : gmap string RateInfo)
    (c : WebSocketConnection) (d : payload) :
  (size (subscribedWallets c) <= maxSubscriptions)%nat ->
  (size (subscribedWallets (snd (fst (handleSubscribe gen now counts c d))))
   <= maxSubscriptions)%nat
  /\ (size (subscribedWallets c) = maxSubscriptions ->
      subscribedWallets (snd (fst (handleSubscribe gen now counts c d)))
      = subscribedWallets c
      /\ forall wallet session,
           fst (checkRateLimit counts now (id c)) = true ->
           validateSubscribeData gen d = inr (wallet, session) ->
           connected c = true ->
           snd (handleSubscribe gen now counts c d)
           = [(id c,
               errorMessage gen now "SUBSCRIPTION_LIMIT_EXCEEDED"
                            "Maximum 50 subscriptions allowed")]).
Proof.
  intros Hcap. unfold handleSubscribe. cbn [touch id connected subscribedWallets].
  destruct (checkRateLimit counts now (id c)) as [allowed counts'].
  destruct allowed; cbn [negb fst snd].
  - destruct (validateSubscribeData gen d) as [errors | [wallet session]];
      cbn [fst snd subscribedWallets].
    + split; [exact Hcap |]. intros _. split; [reflexivity |]. intros ? ? _ [=].
    + destruct (Nat.leb_spec maxSubscriptions (size (subscribedWallets c)))
        as [Hfull | Hroom]; cbn [fst snd subscribedWallets].
      * split; [exact Hcap |]. intros _. split; [reflexivity |].
        intros ? ? _ _ Hconn. unfold sendErrorMessage, sendMessage.
        cbn [touch connected id]. rewrite Hconn. reflexivity.
      * split; [| intros Heq; lia].
        pose proof (size_union_alt {[wallet]} (subscribedWallets c)) as Hu.
        rewrite size_singleton in Hu.
        assert (size (subscribedWallets c ∖ {[wallet]}) <= size (subscribedWallets c))%nat
          by apply subseteq_size, difference_subseteq.
        lia.
  - split; [exact Hcap |]. intros _. split; [reflexivity |]. intros ? ? [=].
Qed.

(** A connection at the cap: the test wallet and 49 other addresses, in
    the spelling [handleSubscribe] stores. *)
Definition fullConnection : WebSocketConnection :=
  {| id := "ws_1"; connected := true;
     subscribedWallets :=
       list_to_set
         (Codec.test_wallet
            :: map (fun n => String.append "0x00000000000000000000000000000000000000"
                               (Features.numberToString (Z.of_nat n)))
                   (seq 10 49));
     connectedAt := 0; lastActivity := 0; sessionId := None |}.

Lemma subscription_cap_witness :
  size (subscribedWallets fullConnection) = maxSubscriptions
  /\ Codec.test_wallet ∈ subscribedWallets fullConnection
  /\ subscribedWallets
       (snd (fst (handleSubscribe HubFacts.sampleGen 1000 ∅ fullConnection
                    HubFacts.samplePayload)))
     = subscribedWallets fullConnection
  /\ snd (handleSubscribe HubFacts.sampleGen 1000 ∅ fullConnection
            HubFacts.samplePayload)
     = [(id fullConnection,
         errorMessage HubFacts.sampleGen 1000 "SUBSCRIPTION_LIMIT_EXCEEDED"
                      "Maximum 50 subscriptions allowed")].
Proof.
  assert (Hsize : size (subscribedWallets fullConnection) = maxSubscriptions)
    by (vm_compute; reflexivity).
  assert (Hcap : (size (subscribedWallets fullConnection) <= maxSubscriptions)%nat)
    by (rewrite Hsize; apply Nat.le_refl).
  destruct (subscription_cap HubFacts.sampleGen 1000 ∅ fullConnection
              HubFacts.samplePayload Hcap) as [_ Hfull].
  destruct (Hfull Hsize) as [Hset Hmsg].
  split; [exact Hsize |]. split; [| split; [exact Hset |]].
  - apply elem_of_list_to_set, elem_of_cons. left. reflexivity.
  - apply (Hmsg Codec.test_wallet "test-session-123"%string); vm_compute; reflexivity.
Defined.

(** *** Rate-limit windows *)

(** Every message of a run passes the rate limit. *)
Fixpoint allAccepted (gen : IdGen) (msgs : list (Z * payload))
    (counts : gmap string RateInfo) (c : WebSocketConnection) : bool :=
  match msgs with
  | [] => true
  | (now, d) :: rest =>
      fst (checkRateLimit counts now (id c))
      && allAccepted gen rest
           (fst (fst (handleSubscribe gen now counts c d)))
           (snd (fst (handleSubscribe gen now counts c d)))
  end.

Lemma allAccepted_app gen msgs1 : forall msgs2 counts c,
  allAccepted gen (msgs1 ++ msgs2) counts c
  = allAccepted gen msgs1 counts c
    && allAccepted gen msgs2 (fst (HubFacts.subscribeAll gen msgs1 counts c))
                             (snd (HubFacts.subscribeAll gen msgs1 counts c)).
Proof.
  induction msgs1 as [| [now d] rest IH]; intros msgs2 counts c; [reflexivity |].
  cbn [app allAccepted HubFacts.subscribeAll]. by rewrite IH, andb_assoc.
Qed.

Lemma allAccepted_running gen msgs : forall counts c k R,
  counts !! id c = Some {| count := k; resetTime := R |} ->
  Forall (fun m => fst m < R) msgs ->
  k + Z.of_nat (length msgs) <= maxMessages ->
  allAccepted gen msgs counts c = true.
Proof.
  induction msgs as [| [now d] rest IH]; intros counts c k R Hk Hin Hle; [reflexivity |].
  inversion Hin as [| m ms Hnow Hrest]; subst. simpl in Hnow.
  cbn [allAccepted]. simpl length in Hle.
  destruct (HubFacts.handleSubscribe_frame gen now counts c d) as (Hid & _ & Hcounts).
  rewrite (HubFacts.checkRateLimit_running _ _ _ _ _ Hk Hnow) in Hcounts |- *.
  cbn [fst snd] in Hcounts |- *.
  destruct (Z.ltb_spec maxMessages (k + 1)); [lia |]. cbn [negb andb].
  apply (IH _ _ (k + 1) R); [| exact Hrest | lia].
  rewrite Hcounts, Hid. apply lookup_insert_eq.
Qed.

Lemma allAccepted_from_fresh gen t1 d1 rest counts c :
  HubFacts.windowExpired counts (id c) t1 ->
  Forall (fun m => fst m < t1 + windowMs) rest ->
  1 + Z.of_nat (length rest) <= maxMessages ->
  allAccepted gen ((t1, d1) :: rest) counts c = true.
Proof.
  intros Hfresh Hin Hle. cbn [allAccepted].
  destruct (HubFacts.handleSubscribe_frame gen t1 counts c d1) as (Hid & _ & Hcounts).
  rewrite (HubFacts.checkRateLimit_fresh _ _ _ Hfresh) in Hcounts |- *.
  cbn [fst snd andb] in Hcounts |- *.
  apply (allAccepted_running gen rest _ _ 1 (t1 + windowMs)); [| exact Hin | exact Hle].
  rewrite Hcounts, Hid. apply lookup_insert_eq.
Qed.

(** X6: the rate-limit window is fixed, not sliding: it starts with the
    first message after the previous window has run out.  A full window of
    100 messages followed by a second full window of 100 messages is
    accepted entirely, however close the first window's last messages are
    to the second window's first ones. *)
Theorem two_full_windows_are_accepted
    (gen : IdGen) (counts : gmap string RateInfo) (c : WebSocketConnection)
    (t1 t2 : Z) (d1 d2 : payload) (more1 more2 : list (Z * payload)) :
  HubFacts.windowExpired counts (id c) t1 ->
  length more1 = 99%nat ->
  Forall (fun m => fst m < t1 + windowMs) more1 ->
  t1 + windowMs <= t2 ->
  length more2 = 99%nat ->
  Forall (fun m => fst m < t2 + windowMs) more2 ->
  allAccepted gen (((t1, d1) :: more1) ++ ((t2, d2) :: more2)) counts c = true.
Proof.
  intros Hfresh Hl1 Hin1 Ht Hl2 Hin2.
  rewrite allAccepted_app.
  rewrite (allAccepted_from_fresh gen t1 d1 more1 counts c Hfresh Hin1)
    by (rewrite Hl1; unfold maxMessages; lia).
  cbn [andb].
  destruct (HubFacts.subscribeAll_from_fresh gen t1 d1 more1 counts c Hfresh Hin1)
    as (Hid & _ & Hc).
  apply allAccepted_from_fresh; [| exact Hin2 | rewrite Hl2; unfold maxMessages; lia].
  unfold HubFacts.windowExpired. rewrite Hid, Hc. simpl. exact Ht.
Qed.

(** 100 messages in the last millisecond of one window and 100 more in the
    millisecond that follows. *)
Lemma two_full_windows_witness :
  allAccepted HubFacts.sampleGen
    (((0, HubFacts.samplePayload) :: repeat (59999, HubFacts.samplePayload) 99)
     ++ ((60000, HubFacts.samplePayload) :: repeat (60000, HubFacts.samplePayload) 99))
    ∅ HubFacts.sampleConnection
  = true.
Proof.
  apply (two_full_windows_are_accepted HubFacts.sampleGen ∅ HubFacts.sampleConnection
           0 60000 HubFacts.samplePayload HubFacts.samplePayload
           (repeat (59999, HubFacts.samplePayload) 99)
           (repeat (60000, HubFacts.samplePayload) 99)).
  - exact I.
  - reflexivity.
  - apply Forall_forall. intros m Hm. apply list_elem_of_In, repeat_spec in Hm. subst m.
    vm_compute. reflexivity.
  - vm_compute. discriminate.
  - reflexivity.
  - apply Forall_forall. intros m Hm. apply list_elem_of_In, repeat_spec in Hm. subst m.
    vm_compute. reflexivity.
Defined.

(** *** Stale connections and disconnects *)

Lemma fold_delete_lookup (stale : list WebSocketConnection) :
  forall (counts : gmap string RateInfo) cid,
    fold_left (fun m c => delete (id c) m) stale counts !! cid
    = if existsb (fun c => String.eqb (id c) cid) stale then None else counts !! cid.
Proof.
  induction stale as [| c stale IH]; intros counts cid; [reflexivity |].
  cbn [fold_left existsb]. rewrite IH.
  destruct (existsb _ stale); [by rewrite orb_true_r |]. rewrite orb_false_r.
  destruct (String.eqb_spec (id c) cid) as [-> | Hne].
  - apply lookup_delete_eq.
  - by apply lookup_delete_ne.
Qed.

Lemma handleSubscribe_lastActivity gen now counts c d :
  lastActivity (snd (fst (handleSubscribe gen now counts c d))) = now.
Proof.
  unfold handleSubscribe. cbn [touch id connected subscribedWallets lastActivity].
  destruct (checkRateLimit counts now (id c)) as [allowed counts'].
  repeat case_match; reflexivity.
Qed.

Lemma handleUnsubscribe_lastActivity gen now c d :
  lastActivity (fst (handleUnsubscribe gen now c d)) = now.
Proof. unfold handleUnsubscribe. repeat case_match; reflexivity. Qed.

(** X7: [cleanupStaleConnections] drops exactly the connections whose last
    client message is more than 300000 ms old, together with their
    rate-limit entries, and keeps the others in order; a connection that
    has handled a subscribe, unsubscribe or any other event at time [t]
    therefore survives every cleanup up to [t + 300000]. *)
Theorem stale_connections_are_dropped (now : Z) (st : State) :
  connections (cleanupStaleConnections now st).1
  = List.filter (fun c => now - lastActivity c <=? CONNECTION_TIMEOUT) (connections st)
  /\ (forall cid,
        messageCounts (cleanupStaleConnections now st).1 !! cid
        = if existsb (fun c => (CONNECTION_TIMEOUT <? now - lastActivity c)
                               && String.eqb (id c) cid) (connections st)
          then None else messageCounts st !! cid)
  /\ (cleanupStaleConnections now st).2
     = map id (List.filter (fun c => CONNECTION_TIMEOUT <? now - lastActivity c)
                           (connections st))
  /\ (forall gen t counts c d name,
        (now <= t + CONNECTION_TIMEOUT ->
         isStale now (snd (fst (handleSubscribe gen t counts c d))) = false
         /\ isStale now (fst (handleUnsubscribe gen t c d)) = false
         /\ isStale now (fst (handleGenericMessage gen t c name)) = false)).
Proof.
  unfold cleanupStaleConnections. cbn [fst snd connections messageCounts].
  split; [| split; [| split]].
  - apply ListLemmas.filter_pointwise. intros c. unfold isStale.
    destruct (Z.ltb_spec CONNECTION_TIMEOUT (now - lastActivity c));
      destruct (Z.leb_spec (now - lastActivity c) CONNECTION_TIMEOUT); try reflexivity; lia.
  - intros cid. rewrite fold_delete_lookup, ListLemmas.existsb_filter. reflexivity.
  - reflexivity.
  - intros gen t counts c d name Ht. unfold isStale.
    rewrite handleSubscribe_lastActivity, handleUnsubscribe_lastActivity.
    cbn [handleGenericMessage fst touch lastActivity].
    destruct (Z.ltb_spec CONNECTION_TIMEOUT (now - t)); [lia | auto].
Qed.

Lemma findConnection_None st cid :
  findConnection st cid = None
  <-> forall c, In c (connections st) -> id c <> cid.
Proof.
  unfold findConnection. split.
  - intros H c Hc Heq.
    apply (find_none _ _ H) in Hc. rewrite Heq, String.eqb_refl in Hc. discriminate.
  - intros H. destruct (find _ _) as [c |] eqn:E; [| reflexivity].
    apply find_some in E as [Hc Heq]. apply String.eqb_eq in Heq.
    exfalso. eapply H; eauto.
Qed.

(** X8: after [handleDisconnect] the connection id is unknown to the hub,
    its rate-limit entry is gone when the connection was registered, no
    other connection or entry is touched, and no score update or flag
    notice is emitted to it any more. *)
Theorem disconnect_forgets_connection
    (gen : IdGen) (now : Z) (st : State) (cid : string) :
  findConnection (handleDisconnect st cid) cid = None
  /\ (findConnection st cid <> None ->
      messageCounts (handleDisconnect st cid) !! cid = None)
  /\ (forall other, other <> cid ->
        findConnection (handleDisconnect st cid) other = findConnection st other
        /\ messageCounts (handleDisconnect st cid) !! other = messageCounts st !! other)
  /\ (forall w sc prev m,
        ~ In (cid, m) (broadcastScoreUpdate gen now (handleDisconnect st cid) w sc prev))
  /\ (forall w level score tx m,
        ~ In (cid, m)
             (broadcastWalletFlagged gen now (handleDisconnect st cid) w level score tx)).
Proof.
  assert (Hnone : findConnection (handleDisconnect st cid) cid = None).
  { unfold handleDisconnect. destruct (findConnection st cid) eqn:E; [| exact E].
    apply findConnection_None. cbn [connections]. intros c Hc Heq.
    apply filter_In in Hc as [_ Hc]. rewrite Heq, String.eqb_refl in Hc. discriminate. }
  split; [exact Hnone |]. split; [| split; [| split]].
  - unfold handleDisconnect. destruct (findConnection st cid); [| congruence].
    intros _. apply lookup_delete_eq.
  - intros other Hne. unfold handleDisconnect.
    destruct (findConnection st cid); [| by split].
    cbn [messageCounts]. rewrite lookup_delete_ne by congruence. split; [| reflexivity].
    unfold findConnection. cbn [connections].
    induction (connections st) as [| c l IH]; [reflexivity |]. cbn [List.filter find].
    destruct (String.eqb_spec (id c) cid) as [Heq | Hneq]; cbn [negb].
    + destruct (String.eqb_spec (id c) other) as [Heq' | _]; [congruence | exact IH].
    + cbn [find]. by rewrite IH.
  - intros w sc prev m Hin.
    apply HubFacts.broadcastScoreUpdate_routing in Hin as (_ & _ & c & Hc & Hid & _).
    exact (proj1 (findConnection_None _ _) Hnone c Hc Hid).
  - intros w level score tx m. unfold broadcastWalletFlagged.
    destruct (negb (io _)); [intros [] |]. unfold broadcastToWalletSubscribers.
    rewrite in_flat_map. intros (c & Hc & Hin).
    destruct (isSubscribed w c); [| destruct Hin]. unfold sendMessage in Hin.
    destruct (connected c); [| destruct Hin]. destruct Hin as [[= Hid _] | []].
    exact (proj1 (findConnection_None _ _) Hnone c Hc Hid).
Qed.

(** *** Fan-out and statistics *)

Definition flaggedMessage (gen : IdGen) (now : Z) (w : string) (level : RiskLevel)
    (score : Q) (tx : option string) : WebSocketMessage :=
  {| msg_type := WALLET_FLAGGED; msg_id := gen "msg"; msg_timestamp := now;
     version := "1.0.0"; data := WalletFlaggedData w level score tx now |}.

Lemma fanout_recipients (w : string) (m : WebSocketMessage) (cs : list WebSocketConnection) :
  flat_map (fun c => if isSubscribed w c then sendMessage c m else []) cs
  = map (fun c => (id c, m))
        (List.filter (fun c => isSubscribed w c && connected c) cs).
Proof.
  induction cs as [| c cs IH]; [reflexivity |]. cbn [flat_map List.filter].
  rewrite IH. unfold sendMessage.
  destruct (isSubscribed w c), (connected c); reflexivity.
Qed.

Lemma isSubscribed_lower w c : isSubscribed (Codec.toLowerCase w) c = isSubscribed w c.
Proof. unfold isSubscribed. by rewrite AddressFacts.toLowerCase_idempotent. Qed.

(** X9: a flag notice and a score update go, each as one and the same
    message, to the connected connections whose set holds the lower-cased
    wallet, in the order the connections were registered; that is at most
    [getWalletSubscriberCount] deliveries, and none at all before
    [setupWebSocket].  The spelling of the wallet in the call does not
    change who receives it. *)
Theorem broadcasts_reach_connected_subscribers
    (gen : IdGen) (now : Z) (st : State) (w : string)
    (level : RiskLevel) (score : Q) (tx : option string)
    (sc : ScoringResult) (prev : option ScoringResult) :
  let recipients :=
    List.filter (fun c => isSubscribed w c && connected c) (connections st) in
  broadcastWalletFlagged gen now st w level score tx
  = (if io st
     then map (fun c => (id c, flaggedMessage gen now w level score tx)) recipients
     else [])
  /\ broadcastScoreUpdate gen now st w sc prev
     = (if io st
        then map (fun c => (id c, scoreUpdateMessage gen now w sc prev)) recipients
        else [])
  /\ (length recipients <= getWalletSubscriberCount st w)%nat
  /\ map fst (broadcastWalletFlagged gen now st (Codec.toLowerCase w) level score tx)
     = map fst (broadcastWalletFlagged gen now st w level score tx).
Proof.
  cbv zeta. split; [| split; [| split]].
  - unfold broadcastWalletFlagged, broadcastToWalletSubscribers.
    destruct (io st); cbn [negb]; [apply fanout_recipients | reflexivity].
  - unfold broadcastScoreUpdate.
    destruct (io st); cbn [negb]; [apply fanout_recipients | reflexivity].
  - unfold getWalletSubscriberCount.
    induction (connections st) as [| c cs IH]; [simpl; lia |]. cbn [List.filter].
    destruct (isSubscribed w c), (connected c); simpl; lia.
  - unfold broadcastWalletFlagged, broadcastToWalletSubscribers.
    destruct (io st); cbn [negb]; [| reflexivity].
    rewrite !fanout_recipients, !map_map. cbn [fst].
    f_equal. apply ListLemmas.filter_pointwise. intros c. by rewrite isSubscribed_lower.
Qed.

Lemma stats_fold_total (cs : list WebSocketConnection) : forall n,
  fold_left (fun total c => (total + size (subscribedWallets c))%nat) cs n
  = (n + fold_left (fun total c => (total + size (subscribedWallets c))%nat) cs 0)%nat.
Proof.
  induction cs as [| c cs IH]; intros n; simpl; [lia |].
  rewrite (IH (n + _)%nat), (IH (size _)). lia.
Qed.

Lemma stats_fold_union (cs : list WebSocketConnection) : forall (X : gset string),
  (size (fold_left (fun u c => u ∪ subscribedWallets c) cs X)
   <= size X + fold_left (fun total c => (total + size (subscribedWallets c))%nat) cs 0)%nat
  /\ X ⊆ fold_left (fun u c => u ∪ subscribedWallets c) cs X
  /\ forall c, In c cs ->
               subscribedWallets c ⊆ fold_left (fun u c => u ∪ subscribedWallets c) cs X.
Proof.
  induction cs as [| c cs IH]; intros X; simpl.
  - split; [lia |]. split; [done | intros ? []].
  - destruct (IH (X ∪ subscribedWallets c)) as (H1 & H2 & H3).
    rewrite (stats_fold_total cs (size _)).
    pose proof (size_union_alt X (subscribedWallets c)) as Hu.
    assert (size (subscribedWallets c ∖ X) <= size (subscribedWallets c))%nat
      by (apply subseteq_size, subseteq_difference_l; done).
    split; [lia |]. split.
    + etransitivity; [| exact H2]. apply union_subseteq_l.
    + intros c' [<- | Hc'].
      * etransitivity; [| exact H2]. apply union_subseteq_r.
      * by apply H3.
Qed.

Lemma stats_total_cap (cs : list WebSocketConnection) :
  (forall c, In c cs -> (size (subscribedWallets c) <= maxSubscriptions)%nat) ->
  (fold_left (fun total c => (total + size (subscribedWallets c))%nat) cs 0
   <= maxSubscriptions * length cs)%nat.
Proof.
  induction cs as [| c cs IH]; intros Hcap; [simpl; lia |].
  cbn [fold_left length]. rewrite stats_fold_total.
  pose proof (Hcap c (or_introl eq_refl)).
  pose proof (IH (fun c' Hc' => Hcap c' (or_intror Hc'))).
  unfold maxSubscriptions in *. lia.
Qed.

(** X10: in [getConnectionStats] the number of distinct subscribed wallets
    is at most the number of subscriptions, which is at most 50 per
    connection when every connection is within the subscription cap; a
    wallet some connection is subscribed to makes [activeSubscriptions]
    positive. *)
Theorem connection_stats_bounds (st : State) :
  (activeSubscriptions (getConnectionStats st)
   <= totalSubscriptions (getConnectionStats st))%nat
  /\ ((forall c, In c (connections st) ->
                 (size (subscribedWallets c) <= maxSubscriptions)%nat) ->
      (totalSubscriptions (getConnectionStats st)
       <= maxSubscriptions * totalConnections (getConnectionStats st))%nat)
  /\ (forall c w, In c (connections st) -> w ∈ subscribedWallets c ->
                  (0 < activeSubscriptions (getConnectionStats st))%nat).
Proof.
  unfold getConnectionStats. cbn [activeSubscriptions totalSubscriptions totalConnections].
  destruct (stats_fold_union (connections st) ∅) as (H1 & _ & H3).
  rewrite size_empty in H1. split; [exact H1 |]. split.
  - apply stats_total_cap.
  - intros c w Hc Hw.
    assert (Hin : w ∈ fold_left (fun u c => u ∪ subscribedWallets c) (connections st)
                                (∅ : gset string))
      by (eapply H3; eauto).
    destruct (decide (size (fold_left (fun u c => u ∪ subscribedWallets c)
                                      (connections st) (∅ : gset string)) = 0%nat))
      as [Hz | Hnz]; [| lia].
    apply size_empty_inv in Hz. apply leibniz_equiv in Hz. rewrite Hz in Hin.
    by apply elem_of_empty in Hin.
Qed.

End HubMoreFacts.
(* ===================================================================== *)
(** ** The flag registry client: risk levels and the other write calls *)
(* ===================================================================== *)

Module RegistryMoreFacts.
Import Models Registry RegistryOps.
Local Open Scope list_scope.

(** *** Risk levels on the wire *)

Lemma isValidRiskLevel_inv riskLevel :
  isValidRiskLevel riskLevel = true ->
  Codec.toLowerCase riskLevel = "low"%string
  \/ Codec.toLowerCase riskLevel = "medium"%string
  \/ Codec.toLowerCase riskLevel = "high"%string
  \/ Codec.toLowerCase riskLevel = "critical"%string.
Proof.
  unfold isValidRiskLevel. cbn [existsb]. rewrite !orb_true_iff, !String.eqb_eq.
  intros [H | [H | [H | [H | H]]]]; auto 10. discriminate.
Qed.

(** X11: the client accepts a risk level in any letter case but maps only
    the lower-case spellings to the contract's numbers.  For a lower-case
    level the number is 0..3 and maps back to the level; for any other
    accepted spelling the number passed on is [undefined], which reads
    back as [medium]. *)
Theorem risk_level_round_trip (riskLevel : string) :
  isValidRiskLevel riskLevel = true ->
  (riskLevel = Codec.toLowerCase riskLevel ->
   exists v, riskLevelToContractValue riskLevel = Some v
             /\ (0 <= v <= 3)%Z
             /\ contractValueToRiskLevel (Some v) = riskLevel)
  /\ (riskLevel <> Codec.toLowerCase riskLevel ->
      riskLevelToContractValue riskLevel = None
      /\ contractValueToRiskLevel (riskLevelToContractValue riskLevel)
         = "medium"%string).
Proof.
  intros Hv. apply isValidRiskLevel_inv in Hv. split.
  - intros Heq. rewrite <- Heq in Hv.
    destruct Hv as [-> | [-> | [-> | ->]]]; eexists; (split; [reflexivity |]);
      (split; [lia | reflexivity]).
  - intros Hne.
    assert (Hnone : riskLevelToContractValue riskLevel = None).
    { unfold riskLevelToContractValue.
      repeat match goal with
             | |- context [String.eqb riskLevel ?s] =>
                 destruct (String.eqb_spec riskLevel s) as [E | _];
                 [exfalso; apply Hne; rewrite E; reflexivity |]
             end.
      reflexivity. }
    rewrite Hnone. split; reflexivity.
Qed.

Lemma risk_level_round_trip_witness :
  riskLevelToContractValue "CRITICAL" = None
  /\ contractValueToRiskLevel (riskLevelToContractValue "CRITICAL") = "medium"%string.
Proof.
  destruct (risk_level_round_trip "CRITICAL") as [_ H]; [reflexivity |].
  apply H. vm_compute. discriminate.
Defined.

(** *** Calls that do not check the address *)

Lemma caught_Ok body : exists r, caught body = Ok r.
Proof. destruct body; simpl; eauto. Qed.

Lemma caught_confirm_success submitted r :
  caught (confirm submitted) = Ok r ->
  (wr_success r = true
   <-> exists transaction receipt,
         submitted = Ok transaction
         /\ wait transaction CONFIRMATIONS = Ok (Some receipt)
         /\ rc_status receipt = 1%Z)
  /\ (wr_success r = false -> is_Some (wr_error r)).
Proof.
  unfold confirm. destruct submitted as [transaction | e]; simpl.
  - destruct (wait transaction CONFIRMATIONS) as [[receipt |] | e] eqn:Hw; simpl.
    + destruct (Z.eqb_spec (rc_status receipt) 1) as [Hs | Hs]; intros [= <-]; simpl.
      * split; [| discriminate]. split; [eauto 10 | reflexivity].
      * split; [| eauto]. split; [discriminate |].
        intros (t & rc & [= <-] & Hw' & Hs'). congruence.
    + intros [= <-]; simpl. split; [| eauto]. split; [discriminate |].
      intros (t & rc & [= <-] & Hw' & _). congruence.
    + intros [= <-]; simpl. split; [| eauto]. split; [discriminate |].
      intros (t & rc & [= <-] & Hw' & _). congruence.
  - intros [= <-]; simpl. split; [| eauto]. split; [discriminate |].
    intros (t & rc & [=] & _).
Qed.

(** X12: [unflagWallet] and [updateRiskLevel] never throw; each reports a
    success exactly when its transaction was submitted and confirmed with
    status 1, and a failure carries an error.  Neither looks at the answer
    of the address validator: with an initialised contract they submit the
    call for any address string, also one for which [flagWallet] submits
    nothing. *)
Theorem write_calls_skip_the_address_check
    (contract : option WriteMethods) (walletAddress riskLevel : string) :
  (exists r, snd (unflagWallet contract walletAddress) = Ok r
             /\ (wr_success r = false -> is_Some (wr_error r))
             /\ (wr_success r = true
                 <-> exists c transaction receipt,
                       contract = Some c
                       /\ unflagWalletMethod c walletAddress = Ok transaction
                       /\ wait transaction CONFIRMATIONS = Ok (Some receipt)
                       /\ rc_status receipt = 1%Z))
  /\ (exists r, snd (updateRiskLevel contract walletAddress riskLevel) = Ok r
                /\ (wr_success r = false -> is_Some (wr_error r))
                /\ (wr_success r = true
                    <-> exists c transaction receipt,
                          contract = Some c
                          /\ updateRiskLevelMethod c walletAddress
                               (riskLevelToContractValue riskLevel) = Ok transaction
                          /\ wait transaction CONFIRMATIONS = Ok (Some receipt)
                          /\ rc_status receipt = 1%Z))
  /\ (forall c, contract = Some c ->
        fst (unflagWallet contract walletAddress) = [SubmitUnflag walletAddress GAS_LIMIT]
        /\ fst (updateRiskLevel contract walletAddress riskLevel)
           = [SubmitUpdateRiskLevel walletAddress (riskLevelToContractValue riskLevel)
                                    GAS_LIMIT])
  /\ (contract = None ->
      fst (unflagWallet contract walletAddress) = []
      /\ fst (updateRiskLevel contract walletAddress riskLevel) = [])
  /\ (forall flagger score why,
        Codec.isValid (Codec.isValidEthereumAddress walletAddress) = false ->
        fst (flagWallet flagger walletAddress riskLevel score why) = []).
Proof.
  split; [| split; [| split; [| split]]].
  - unfold unflagWallet. cbv zeta. destruct contract as [c |]; cbn [snd].
    + destruct (caught_Ok (confirm (unflagWalletMethod c walletAddress))) as [r Hr].
      exists r. split; [exact Hr |].
      destruct (caught_confirm_success _ _ Hr) as [Hs Hf]. split; [exact Hf |].
      rewrite Hs. split.
      * intros (t & rc & H1 & H2 & H3). eauto 10.
      * intros (c' & t & rc & [= <-] & H1 & H2 & H3). eauto 10.
    + eexists. split; [reflexivity |]. simpl. split; [eauto |].
      split; [discriminate | intros (c' & _ & _ & [=] & _)].
  - unfold updateRiskLevel. cbv zeta. destruct contract as [c |]; cbn [snd].
    + destruct (caught_Ok (confirm (updateRiskLevelMethod c walletAddress
                                      (riskLevelToContractValue riskLevel)))) as [r Hr].
      exists r. split; [exact Hr |].
      destruct (caught_confirm_success _ _ Hr) as [Hs Hf]. split; [exact Hf |].
      rewrite Hs. split.
      * intros (t & rc & H1 & H2 & H3). eauto 10.
      * intros (c' & t & rc & [= <-] & H1 & H2 & H3). eauto 10.
    + eexists. split; [reflexivity |]. simpl. split; [eauto |].
      split; [discriminate | intros (c' & _ & _ & [=] & _)].
  - intros c ->. split; reflexivity.
  - intros ->. split; reflexivity.
  - intros flagger score why Hinv.
    destruct (RegistryFacts.flagWallet_cases flagger walletAddress riskLevel score why)
      as [[_ [m Hr]] | [[Hv _] | [Hv _]]].
    + by rewrite Hr.
    + unfold RegistryFacts.inputsValid in Hv. rewrite Hinv in Hv. discriminate.
    + unfold RegistryFacts.inputsValid in Hv. rewrite Hinv in Hv. discriminate.
Qed.

End RegistryMoreFacts.
(* ===================================================================== *)
(** ** Facts about the scoring results *)
(* ===================================================================== *)

Module ScoringMoreFacts.
Import Models Features Scoring ScoringOps ScoringFacts.
Local Open Scope Q_scope.

(** *** Rounding to two decimals *)

Lemma roundFixed2_bounds (s : Q) (lo hi : Z) :
  0 <= s -> inject_Z lo <= s * 100 -> s * 100 <= inject_Z hi ->
  inject_Z lo / 100 <= roundFixed 2 s /\ roundFixed 2 s <= inject_Z hi / 100.
Proof.
  intros H0 Hlo Hhi. unfold roundFixed, fixedDigits.
  assert (Hlt : Qltb s 0 = false).
  { destruct (Qltb s 0) eqn:E; [| reflexivity]. apply Qltb_true_iff in E. lra. }
  rewrite Hlt, Qabs_pos by exact H0. change (inject_Z (pow10 2)) with 100.
  set (n := Qfloor (s * 100 + (1 # 2))).
  assert (Hn1 : (lo <= n)%Z).
  { rewrite <- (Qfloor_Z lo). apply Qfloor_resp_le. lra. }
  assert (Hn2 : (n < hi + 1)%Z).
  { rewrite Zlt_Qlt. eapply Qle_lt_trans; [apply Qfloor_le |].
    rewrite inject_Z_plus. change (inject_Z 1) with 1. lra. }
  assert (Hn3 : (n <= hi)%Z) by lia.
  rewrite Zle_Qle in Hn1, Hn3. split.
  - apply ListLemmas.Qdiv_le_pos; [reflexivity | exact Hn1].
  - apply ListLemmas.Qdiv_le_pos; [reflexivity | exact Hn3].
Qed.

(** *** Flags *)

Lemma elem_of_pushIf (x : string) (b : bool) (s : string) :
  x ∈ pushIf b s <-> b = true /\ x = s.
Proof.
  destruct b; simpl.
  - rewrite list_elem_of_singleton. tauto.
  - split; [intros H; inversion H | intros [H _]; discriminate].
Qed.

Lemma generateFlags_spec svc w f s :
  ("blacklisted" ∈ generateFlags svc w f s <-> isWalletBlacklisted svc w = true)
  /\ ("critical_risk" ∈ generateFlags svc w f s <-> s < 30)
  /\ ("high_risk" ∈ generateFlags svc w f s <-> 30 <= s /\ s < 50).
Proof.
  unfold generateFlags. cbn [concat]. rewrite app_nil_r.
  assert (Hlast : forall x : string,
            x ∈ (if Qltb s 30 then ["critical_risk"]
                 else if Qltb s 50 then ["high_risk"] else [])
            <-> (x = "critical_risk" /\ s < 30)
                \/ (x = "high_risk" /\ 30 <= s /\ s < 50)).
  { intros x.
    destruct (Qltb s 30) eqn:E30;
      [apply Qltb_true_iff in E30
      | apply negb_false_iff, Qle_bool_iff in E30].
    - rewrite list_elem_of_singleton. split; [tauto |].
      intros [[? ?] | [? [? ?]]]; [assumption | lra].
    - destruct (Qltb s 50) eqn:E50;
        [apply Qltb_true_iff in E50
        | apply negb_false_iff, Qle_bool_iff in E50].
      + rewrite list_elem_of_singleton. split; [tauto |].
        intros [[? ?] | [? [? ?]]]; [lra | assumption].
      + split; [intros H; inversion H |].
        intros [[? ?] | [? [? ?]]]; lra. }
  split; [| split]; rewrite !elem_of_app, !elem_of_pushIf, Hlast; split;
    try (intros [[? ?] | [[? ?] | [[? ?] | [[? ?] | [[? ?] | [[? ?] | [[? ?] | [? ?]]]]]]]];
         try discriminate; assumption);
    tauto.
Qed.

Section WithRuntime.
Context (rt : Runtime).

Lemma calculateWalletScore_flags svc history now w events :
  exists f,
    flags (fst (calculateWalletScore rt svc history now w events))
    = generateFlags svc w f
        (reputationScore (fst (calculateWalletScore rt svc history now w events))).
Proof.
  unfold calculateWalletScore.
  destruct (extractFeaturesFromEvent rt history now w events) as [f h1].
  destruct (getMLPrediction rt svc h1 now f) as [p h2].
  exists f. reflexivity.
Qed.

Lemma ruleBasedScore_range blacklisted events f :
  0 <= fst (fst (ruleBasedScore rt blacklisted events f))
  /\ fst (fst (ruleBasedScore rt blacklisted events f)) <= 100.
Proof. unfold ruleBasedScore. cbv zeta. cbn [fst]. apply clampScore_range. Qed.

Lemma calculateFallbackScore_range svc history now w events :
  0 <= reputationScore (fst (calculateFallbackScore rt svc history now w events))
  /\ reputationScore (fst (calculateFallbackScore rt svc history now w events)) <= 100.
Proof.
  destruct (calculateFallbackScore_result rt svc history now w events) as (-> & _).
  match goal with |- context [ruleBasedScore rt ?b ?e ?f] =>
    destruct (ruleBasedScore_range b e f) as [H0 H100] end.
  match goal with |- context [roundFixed 2 ?s] =>
    destruct (roundFixed2_bounds s 0 10000 H0) as [Ha Hb] end.
  - change (inject_Z 0) with 0. lra.
  - change (inject_Z 10000) with 10000. lra.
  - split.
    + eapply Qle_trans; [| exact Ha]. vm_compute. discriminate.
    + eapply Qle_trans; [exact Hb |]. vm_compute. discriminate.
Qed.

Lemma calculateFallbackScore_confidence svc history now w events :
  confidence (fst (calculateFallbackScore rt svc history now w events))
  = roundFixed 2 (Qmin 0.8 (Qmax 0.3 (Qlen events * 0.05))).
Proof.
  unfold calculateFallbackScore.
  destruct (extractFeaturesFromEvent rt history now w events) as [f h].
  destruct (ruleBasedScore rt _ events f) as [[s r] b]. reflexivity.
Qed.

Lemma getMLPrediction_score_range svc history now f :
  0 <= score (fst (getMLPrediction rt svc history now f))
  /\ score (fst (getMLPrediction rt svc history now f)) <= 100.
Proof.
  assert (Hfb : 0 <= score (fst (fallbackPrediction rt svc history now))
                /\ score (fst (fallbackPrediction rt svc history now)) <= 100).
  { unfold fallbackPrediction.
    pose proof (calculateFallbackScore_range svc history now Codec.zero_address [])
      as Hr.
    destruct (calculateFallbackScore rt svc history now Codec.zero_address [])
      as [r h]. exact Hr. }
  unfold getMLPrediction.
  destruct (model svc) as [session |]; [| exact Hfb].
  destruct (mapFeaturesToModelFormat svc f) as [| x row] eqn:Erow; [exact Hfb |].
  destruct (session (x :: row)) as [out |]; [| exact Hfb].
  cbn [fst score]. apply clampScore_range.
Qed.

(** X17: the blacklist is matched without regard to letter case: a
    wallet is treated as blacklisted exactly when its lower-case spelling
    equals that of an entry of the blacklist file.  A blacklisted wallet
    is never scored above 70 (the outputs of the model being numbers) and
    carries the flag [blacklisted]; no other wallet carries it. *)
Theorem blacklist_match_ignores_case (svc : ScoringService) (data : list string)
    (history : gmap string (list WalletEvent)) (now : Z) (w : string)
    (events : list WalletEvent) :
  let svc' := withBlacklist svc (loadBlacklist (Some data)) in
  let r := fst (calculateWalletScore rt svc' history now w events) in
  (isWalletBlacklisted svc' w = true
   <-> exists entry, entry ∈ data /\ Codec.toLowerCase entry = Codec.toLowerCase w)
  /\ (isWalletBlacklisted svc' w = true ->
      reputationScore r <= 70 /\ "blacklisted" ∈ flags r)
  /\ (isWalletBlacklisted svc' w = false -> "blacklisted" ∉ flags r).
Proof.
  intros svc' r. split; [| split].
  - unfold isWalletBlacklisted, svc', withBlacklist, loadBlacklist. cbn [blacklist].
    rewrite bool_decide_eq_true, elem_of_list_to_set, list_elem_of_fmap.
    split; intros (entry & H1 & H2); exists entry; split; auto.
  - intros Hb.
    destruct (calculateWalletScore_flags svc' history now w events) as (f & Hf).
    fold r in Hf. split.
    + subst r. unfold calculateWalletScore.
      destruct (extractFeaturesFromEvent rt history now w events) as [f' h1].
      pose proof (getMLPrediction_score_range svc' h1 now f') as [_ H100].
      destruct (getMLPrediction rt svc' h1 now f') as [p h2].
      cbn [fst reputationScore] in *. rewrite Hb. unfold clampScore, BLACKLIST_PENALTY.
      apply Q.max_lub; [lra |].
      eapply Qle_trans; [apply Q.le_min_r | lra].
    + rewrite Hf. apply generateFlags_spec. exact Hb.
  - intros Hb Hin.
    destruct (calculateWalletScore_flags svc' history now w events) as (f & Hf).
    fold r in Hf. rewrite Hf in Hin. apply generateFlags_spec in Hin. congruence.
Qed.

(** X18: in every result the scoring service returns, from the main path
    of [calculateWalletScore] as from the rule-based path of its error
    handler, the flags [critical_risk] and [high_risk] are set exactly
    when the risk level is CRITICAL and HIGH (the outputs of the model
    being numbers, as everywhere in this development). *)
Theorem flags_agree_with_level (svc : ScoringService)
    (history : gmap string (list WalletEvent)) (now : Z) (w : string)
    (events : list WalletEvent) :
  let r := fst (calculateWalletScore rt svc history now w events) in
  let r' := fst (calculateWalletScore_onError rt svc history now w events) in
  ("critical_risk" ∈ flags r <-> riskLevel r = CRITICAL)
  /\ ("high_risk" ∈ flags r <-> riskLevel r = HIGH)
  /\ ("critical_risk" ∈ flags r' <-> riskLevel r' = CRITICAL)
  /\ ("high_risk" ∈ flags r' <-> riskLevel r' = HIGH).
Proof.
  intros r r'.
  destruct (calculateWalletScore_flags svc history now w events) as (f & Hf).
  destruct (calculateWalletScore_level rt svc history now w events) as (Hl & _).
  destruct (calculateFallbackScore_result rt svc history now w events)
    as (_ & Hl' & Hf' & _).
  fold r in Hf, Hl. unfold calculateWalletScore_onError in r'. fold r' in Hl', Hf'.
  rewrite Hf, Hl, Hf', Hl'.
  repeat split; intros H;
    first [ apply generateFlags_spec in H; apply determineRiskLevel_spec; exact H
          | apply determineRiskLevel_spec in H; apply generateFlags_spec; exact H ].
Qed.

(** X19: the rule-based result reports a score between 0 and 100 and a
    confidence between 0.3 and 0.8: 0.3 for up to six events, 0.8 from
    sixteen events on. *)
Theorem fallback_result_ranges (svc : ScoringService)
    (history : gmap string (list WalletEvent)) (now : Z) (w : string)
    (events : list WalletEvent) :
  let r := fst (calculateFallbackScore rt svc history now w events) in
  0 <= reputationScore r /\ reputationScore r <= 100
  /\ 0.3 <= confidence r /\ confidence r <= 0.8
  /\ ((length events <= 6)%nat -> confidence r == 0.3)
  /\ ((16 <= length events)%nat -> confidence r == 0.8).
Proof.
  intros r. subst r.
  destruct (calculateFallbackScore_range svc history now w events) as [H0 H100].
  rewrite calculateFallbackScore_confidence.
  set (c := Qmin 0.8 (Qmax 0.3 (Qlen events * 0.05))).
  assert (Hc : 0.3 <= c /\ c <= 0.8).
  { unfold c. split; [| apply Q.le_min_l].
    apply Q.min_glb; [lra | apply Q.le_max_l]. }
  assert (Hn : 0 <= Qlen events) by apply FeatureFacts.Qlen_nonneg.
  assert (Hr : forall lo hi : Z, inject_Z lo <= c * 100 -> c * 100 <= inject_Z hi ->
                 inject_Z lo / 100 <= roundFixed 2 c
                 /\ roundFixed 2 c <= inject_Z hi / 100).
  { intros lo hi Hlo Hhi. apply roundFixed2_bounds; [lra | exact Hlo | exact Hhi]. }
  split; [exact H0 |]. split; [exact H100 |].
  destruct (Hr 30%Z 80%Z) as [Ha Hb];
    [change (inject_Z 30) with 30; lra | change (inject_Z 80) with 80; lra |].
  split; [eapply Qle_trans; [| exact Ha]; vm_compute; discriminate |].
  split; [eapply Qle_trans; [exact Hb |]; vm_compute; discriminate |].
  split; intros Hlen.
  - assert (Hq : Qlen events <= 6).
    { unfold Qlen. change 6 with (inject_Z 6). rewrite <- Zle_Qle. lia. }
    assert (Hc3 : c == 0.3).
    { unfold c. rewrite (Q.max_l 0.3) by lra. apply Q.min_r. lra. }
    destruct (Hr 30%Z 30%Z) as [Ha' Hb'];
      [change (inject_Z 30) with 30; lra | change (inject_Z 30) with 30; lra |].
    apply Qle_antisym.
    + eapply Qle_trans; [exact Hb' |]. vm_compute. discriminate.
    + eapply Qle_trans; [| exact Ha']. vm_compute. discriminate.
  - assert (Hq : 16 <= Qlen events).
    { unfold Qlen. change 16 with (inject_Z 16). rewrite <- Zle_Qle. lia. }
    assert (Hc8 : c == 0.8).
    { unfold c. apply Q.min_l. eapply Qle_trans; [| apply Q.le_max_r]. lra. }
    destruct (Hr 80%Z 80%Z) as [Ha' Hb'];
      [change (inject_Z 80) with 80; lra | change (inject_Z 80) with 80; lra |].
    apply Qle_antisym.
    + eapply Qle_trans; [exact Hb' |]. vm_compute. discriminate.
    + eapply Qle_trans; [| exact Ha']. vm_compute. discriminate.
Qed.

End WithRuntime.

(** *** The feature row of the model *)

Lemma drop_spaces_head (l : list ascii) :
  match drop_spaces l with
  | [] => True
  | a :: _ => is_space a = false
  end.
Proof.
  induction l as [| a l IH]; simpl; [exact I |].
  destruct (is_space a) eqn:E; [exact IH | exact E].
Qed.

Lemma drop_spaces_snoc (t : list ascii) (c : ascii) :
  is_space c = false -> exists u, drop_spaces (t ++ [c]) = (u ++ [c])%list.
Proof.
  intros Hc. induction t as [| a t IH]; simpl.
  - rewrite Hc. exists []. reflexivity.
  - destruct (is_space a); [exact IH |]. exists (a :: t). reflexivity.
Qed.

Lemma last_rev (u : list ascii) (c : ascii) : List.last (rev u) c = hd c u.
Proof.
  destruct u as [| a u]; [reflexivity |]. cbn [rev hd]. apply last_last.
Qed.

Lemma trim_not_blankWrapped (s : string) : blankWrapped (trim s) = false.
Proof.
  unfold blankWrapped, trim. rewrite list_ascii_of_string_of_list_ascii.
  pose proof (drop_spaces_head (list_ascii_of_string s)) as Hhead.
  destruct (drop_spaces (list_ascii_of_string s)) as [| c t]; [reflexivity |].
  cbn [rev]. destruct (drop_spaces_snoc (rev t) c Hhead) as (u & Hu).
  pose proof (drop_spaces_head (rev t ++ [c])) as Hhead'.
  rewrite Hu in *. rewrite rev_app_distr. cbn [rev app].
  rewrite Hhead, last_rev. cbn [orb].
  destruct u as [| a u]; [exact Hhead | exact Hhead'].
Qed.

Lemma existsb_reachable (t : string) (labels : list string) :
  blankWrapped t = false ->
  existsb (String.eqb t) (List.filter (fun label => negb (blankWrapped label)) labels)
  = existsb (String.eqb t) labels.
Proof.
  intros Ht. induction labels as [| x labels IH]; [reflexivity |]. cbn [List.filter existsb].
  destruct (String.eqb t x) eqn:E.
  - apply String.eqb_eq in E. subst x. rewrite Ht. cbn [negb existsb].
    rewrite String.eqb_refl. reflexivity.
  - destruct (negb (blankWrapped x)); cbn [existsb]; rewrite ?E; exact IH.
Qed.

(** X20: [mapFeaturesToModelFormat] compares the trimmed feature name
    with the labels of its [switch]; a trimmed name neither starts nor
    ends with a blank, so the twelve labels spelled with a leading or
    trailing blank are never selected: every feature is mapped as if
    those labels were absent, and a name such as [" Total ERC20 tnxs"]
    falls through to the default branch. *)
Theorem blank_wrapped_labels_never_match (f : FeatureVector) (featureName : string) :
  (forall label, blankWrapped label = true -> trim featureName <> label)
  /\ modelFeature f featureName
     = match List.find (fun c => existsb (String.eqb (trim featureName)) (fst c))
                       reachableFeatureCases with
       | Some c => snd c f
       | None => defaultModelFeature featureName f
       end
  /\ length (List.filter blankWrapped (concat (map fst modelFeatureCases))) = 12%nat
  /\ (forall svc, length (mapFeaturesToModelFormat svc f) = length (featureNames svc)).
Proof.
  pose proof (trim_not_blankWrapped featureName) as Ht.
  split; [| split; [| split]].
  - intros label Hl Heq. rewrite Heq in Ht. congruence.
  - unfold modelFeature, reachableFeatureCases.
    induction modelFeatureCases as [| c cases IH]; [reflexivity |].
    cbn [map List.find fst snd]. rewrite existsb_reachable by exact Ht.
    destruct (existsb (String.eqb (trim featureName)) (fst c)); [reflexivity | exact IH].
  - vm_compute. reflexivity.
  - intros svc. unfold mapFeaturesToModelFormat. apply length_map.
Qed.

End ScoringMoreFacts.
(* ===================================================================== *)
(** ** Facts about retrying and request validation *)
(* ===================================================================== *)

Module HelperFacts.
Import Registry Helpers.
Local Open Scope Q_scope.

(** *** [exponentialBackoff] *)

Lemma Qpower_2_pos (n : Z) : 0 < Qpower 2 n.
Proof. apply Qpower.Qpower_0_lt. reflexivity. Qed.

Lemma Qpower_2_succ (n : Z) : Qpower 2 (n + 1) == 2 * Qpower 2 n.
Proof.
  rewrite Qpower.Qpower_plus by discriminate. change (Qpower 2 1) with 2. ring.
Qed.

Lemma Qpower_2_mono (n m : Z) : (n <= m)%Z -> Qpower 2 n <= Qpower 2 m.
Proof. intros H. apply Qpower.Qpower_le_compat_l; [exact H | discriminate]. Qed.

(** The delays waited after the failed attempts [first], [first + 1], ... *)
Definition backoffs (baseDelay : Q) (first : nat) (n : nat) : list Q :=
  map (fun i => exponentialBackoff (Z.of_nat i) baseDelay 30000) (seq first n).

Lemma backoffs_snoc baseDelay first n :
  backoffs baseDelay first (S n)
  = (backoffs baseDelay first n
       ++ [exponentialBackoff (Z.of_nat (first + n)) baseDelay 30000])%list.
Proof. unfold backoffs. rewrite seq_S, map_app. reflexivity. Qed.

Lemma backoffs_cons baseDelay first n :
  backoffs baseDelay first (S n)
  = exponentialBackoff (Z.of_nat first) baseDelay 30000
      :: backoffs baseDelay (S first) n.
Proof. reflexivity. Qed.

(** *** [retry] *)

(** The loop while [fn] keeps failing: [d] failed calls, each followed by
    a wait, lead to the same loop [d] attempts later. *)
Lemma retryFrom_failures {T} (fn : nat -> outcome T) (maxAttempts : Z) (baseDelay : Q)
    (errors : nat -> thrown) (d : nat) :
  forall remaining made lastError delays,
    (forall i, (made < i <= made + d)%nat -> fn i = Throw (errors i)) ->
    (Z.of_nat (made + d) < maxAttempts)%Z ->
    retryFrom true fn maxAttempts baseDelay (d + remaining) (Z.of_nat (S made))
              lastError made delays
    = retryFrom true fn maxAttempts baseDelay remaining (Z.of_nat (S (made + d)))
                (match d with O => lastError | _ => errors (made + d)%nat end)
                (made + d) (delays ++ backoffs baseDelay (S made) d)%list.
Proof.
  induction d as [| d IH]; intros remaining made lastError delays Hfail Hmax.
  - rewrite Nat.add_0_r, app_nil_r. reflexivity.
  - cbn [Nat.add retryFrom]. rewrite (Hfail (S made)) by lia.
    assert (Hlt : (Z.of_nat (S made) <? maxAttempts)%Z = true)
      by (apply Z.ltb_lt; lia).
    rewrite Hlt. replace (Z.of_nat (S made) + 1)%Z with (Z.of_nat (S (S made))) by lia.
    rewrite IH; [| intros i Hi; apply Hfail; lia | lia].
    rewrite backoffs_cons, <- app_assoc. cbn [app].
    replace (S made + d)%nat with (made + S d)%nat by lia.
    destruct d; [| reflexivity].
    replace (made + 1)%nat with (S made) by lia. reflexivity.
Qed.

(** X21: called on the class, [retry] returns the first successful
    answer of [fn]: when the calls before the [k]-th fail and the [k]-th
    succeeds within [maxAttempts], [fn] is called exactly [k] times, the
    value of the [k]-th call is returned, and the waits in between are the
    exponential delays of attempts 1 to [k - 1]. *)
Theorem retry_returns_first_success {T} (fn : nat -> outcome T) (maxAttempts : Z)
    (baseDelay : Q) (errors : nat -> thrown) (k : nat) (value : T) :
  (1 <= k)%nat -> (Z.of_nat k <= maxAttempts)%Z ->
  (forall i, (1 <= i < k)%nat -> fn i = Throw (errors i)) ->
  fn k = Ok value ->
  retry true fn maxAttempts baseDelay
  = {| calls := k; waited := backoffs baseDelay 1 (k - 1); result := Ok value |}.
Proof.
  intros Hk Hmax Hfail Hok. unfold retry.
  replace (Z.to_nat maxAttempts)
    with ((k - 1) + S (Z.to_nat maxAttempts - k))%nat by lia.
  change 1%Z with (Z.of_nat 1).
  rewrite (retryFrom_failures fn maxAttempts baseDelay errors (k - 1));
    [| intros i Hi; apply Hfail; lia | lia].
  cbn [retryFrom Nat.add app].
  replace (S (k - 1)) with k by lia. rewrite Hok. reflexivity.
Qed.

(** X22: called on the class, [retry] gives up after [maxAttempts]
    failures: [fn] is called [maxAttempts] times, the error of the last
    call is thrown, and a delay is waited after every failure but the
    last.  With [maxAttempts] of zero or less [fn] is never called and
    [undefined] is thrown. *)
Theorem retry_gives_up_after_max_attempts {T} (fn : nat -> outcome T)
    (maxAttempts : Z) (baseDelay : Q) (errors : nat -> thrown) :
  (forall i, (1 <= i <= Z.to_nat maxAttempts)%nat -> fn i = Throw (errors i)) ->
  retry true fn maxAttempts baseDelay
  = {| calls := Z.to_nat maxAttempts;
       waited := backoffs baseDelay 1 (Z.to_nat maxAttempts - 1);
       result := Throw (if (maxAttempts <=? 0)%Z then OtherValue "undefined"
                        else errors (Z.to_nat maxAttempts)) |}.
Proof.
  intros Hfail. unfold retry.
  destruct (maxAttempts <=? 0)%Z eqn:E;
    [apply Z.leb_le in E | apply Z.leb_gt in E].
  - replace (Z.to_nat maxAttempts) with O by lia. reflexivity.
  - remember (Z.to_nat maxAttempts) as n eqn:Hn.
    assert (Hmax : maxAttempts = Z.of_nat n) by lia.
    replace n with ((n - 1) + 1)%nat at 1 by lia.
    change 1%Z with (Z.of_nat 1).
    rewrite (retryFrom_failures fn maxAttempts baseDelay errors (n - 1));
      [| intros i Hi; apply Hfail; lia | lia].
    cbn [retryFrom Nat.add app].
    replace (S (n - 1)) with n by lia. rewrite (Hfail n) by lia.
    assert (Hlt : (Z.of_nat n <? maxAttempts)%Z = false) by (apply Z.ltb_ge; lia).
    rewrite Hlt. reflexivity.
Qed.

(** Without a receiver the first failure that would be followed by a wait
    ends the call with a [TypeError]. *)
Lemma retry_without_receiver {T} (fn : nat -> outcome T) (maxAttempts : Z)
    (baseDelay : Q) (error : thrown) :
  (1 < maxAttempts)%Z -> fn 1%nat = Throw error ->
  retry false fn maxAttempts baseDelay
  = {| calls := 1; waited := []; result := Throw noReceiver |}.
Proof.
  intros Hmax Hfail. unfold retry.
  destruct (Z.to_nat maxAttempts) as [| n] eqn:E; [lia |].
  cbn [retryFrom]. rewrite Hfail.
  assert (Hlt : (1 <? maxAttempts)%Z = true) by (apply Z.ltb_lt; lia).
  rewrite Hlt. reflexivity.
Qed.

(** X23: for attempts 1 to 1024, the range in which [Math.pow(2, attempt - 1)]
    is a finite number, the delay of [exponentialBackoff] never exceeds
    [maxDelay], whatever the base delay, and for a non-negative base delay
    it never decreases from one attempt to a later one; with the default
    delays of 1000 and 30000 it doubles from 1000 at the first attempt to
    16000 at the fifth and is 30000 from the sixth attempt on. *)
Theorem backoff_is_capped_and_monotone (attempt later : Z) (baseDelay maxDelay : Q) :
  (1 <= attempt)%Z -> (attempt <= later)%Z -> (later <= 1024)%Z ->
  exponentialBackoff attempt baseDelay maxDelay <= maxDelay
  /\ (0 <= baseDelay ->
      exponentialBackoff attempt baseDelay maxDelay
      <= exponentialBackoff later baseDelay maxDelay)
  /\ map (fun a => exponentialBackoff a 1000 30000) [1; 2; 3; 4; 5]%Z
     = [1000; 2000; 4000; 8000; 16000]
  /\ ((6 <= attempt)%Z -> exponentialBackoff attempt 1000 30000 == 30000).
Proof.
  intros Hfirst Hle Hlast. unfold exponentialBackoff. cbv zeta.
  split; [apply Q.le_min_r |]. split; [| split].
  - intros Hbase. apply Q.min_glb; [| apply Q.le_min_r].
    eapply Qle_trans; [apply Q.le_min_l |].
    pose proof (Qpower_2_mono (attempt - 1) (later - 1) ltac:(lia)) as Hm.
    nra.
  - vm_compute. reflexivity.
  - intros H6. apply Q.min_r.
    pose proof (Qpower_2_mono 5 (attempt - 1) ltac:(lia)) as Hm.
    change (Qpower 2 5) with 32 in Hm. lra.
Qed.

Lemma backoff_witness :
  exponentialBackoff 6 1000 30000 <= 30000
  /\ exponentialBackoff 6 1000 30000 <= exponentialBackoff 7 1000 30000
  /\ exponentialBackoff 6 1000 30000 == 30000.
Proof.
  destruct (backoff_is_capped_and_monotone 6 7 1000 30000) as (Hcap & Hmono & _ & Hsix);
    [lia | lia | lia |].
  split; [exact Hcap |]. split; [apply Hmono; vm_compute; discriminate |].
  apply Hsix. lia.
Defined.

(** A function that fails twice and then answers 7. *)
Definition flaky (i : nat) : outcome Z :=
  match i with
  | 3%nat => Ok 7%Z
  | _ => Throw (ErrorObject "unavailable")
  end.

Lemma retry_first_success_witness :
  retry true flaky 3 1000
  = {| calls := 3; waited := backoffs 1000 1 (3 - 1); result := Ok 7%Z |}.
Proof.
  apply (retry_returns_first_success flaky 3 1000
           (fun _ => ErrorObject "unavailable") 3 7%Z); [lia | lia | | reflexivity].
  intros i Hi. destruct i as [| [| [| i]]]; try lia; reflexivity.
Defined.

Lemma retry_gives_up_witness :
  retry true flaky 2 1000
  = {| calls := Z.to_nat 2;
       waited := backoffs 1000 1 (Z.to_nat 2 - 1);
       result := Throw (if (2 <=? 0)%Z then OtherValue "undefined"
                        else ErrorObject "unavailable") |}.
Proof.
  apply (retry_gives_up_after_max_attempts flaky 2 1000
           (fun _ => ErrorObject "unavailable")).
  intros i Hi. destruct i as [| [| [| i]]]; try (simpl in Hi; lia); reflexivity.
Defined.

End HelperFacts.
(* ===================================================================== *)
(** ** The flag registry contract: flags, expiry and the wallet list *)
(* ===================================================================== *)

Module WalletFlaggerFacts.
Import WalletFlagger.
Local Open Scope Z_scope.
Local Open Scope list_scope.

(** *** Reverting calls *)

Lemma bind_Success {A B} (m : Result A) (k : A -> Result B) (b : B) :
  (m ≫= k) = Success b -> exists a, m = Success a /\ k a = Success b.
Proof. destruct m as [a | msg | code]; simpl; intros H; [eauto | discriminate..]. Qed.

Lemma require_Success condition message :
  require condition message = Success tt <-> condition = true.
Proof. unfold require. destruct condition; split; congruence. Qed.

Lemma mret_pair {A B} (r : A * B) (a : A) (b : B) :
  mret r = Success (a, b) -> a = r.1 /\ b = r.2.
Proof. intros H. injection H as ->. done. Qed.

Lemma require_true message : require true message = Success tt.
Proof. reflexivity. Qed.

Definition authorized (s : Storage) (sender : address) : Prop :=
  sender = owner s \/ sender = soklinBackend s \/ isAuthorizedFlagger s sender = true.

Lemma onlyAuthorized_Success s sender :
  onlyAuthorized s sender = Success tt <-> authorized s sender.
Proof.
  unfold onlyAuthorized, authorized. rewrite require_Success, !orb_true_iff.
  rewrite !bool_decide_eq_true. tauto.
Qed.

Lemma onlyAuthorized_Revert s sender :
  ~ authorized s sender ->
  onlyAuthorized s sender = Revert "WalletFlagger: not authorized".
Proof.
  intros H. unfold onlyAuthorized, require.
  destruct (_ || _ || _) eqn:E; [| reflexivity].
  exfalso. apply H. apply onlyAuthorized_Success. unfold onlyAuthorized. by rewrite E.
Qed.

Lemma checked_add_Success a b :
  a + b <= UINT256_MAX -> checked_add a b = Success (a + b).
Proof. intros H. unfold checked_add. by rewrite (proj2 (Z.leb_le _ _) H). Qed.

Lemma duration_bounds l : 30 * days <= _calculateFlagDuration l <= 365 * days.
Proof. destruct l; unfold _calculateFlagDuration, days; lia. Qed.

(** *** Reading flags after a write *)

Lemma flagOf_setFlag s w f w' :
  flagOf (setFlag s w f) w' = if bool_decide (w' = w) then f else flagOf s w'.
Proof.
  unfold flagOf, setFlag. simpl. case_bool_decide as E.
  - subst. by rewrite lookup_insert_eq.
  - by rewrite lookup_insert_ne.
Qed.

Lemma flagOf_unflag s sender w w' :
  flagOf (_unflagWallet s sender w).1 w'
  = if bool_decide (w' = w) then noFlag else flagOf s w'.
Proof.
  unfold flagOf, _unflagWallet. simpl. case_bool_decide as E.
  - subst. by rewrite lookup_delete_eq.
  - by rewrite lookup_delete_ne.
Qed.

Lemma _flagSingleWallet_Success s sender now wallet score why s' events :
  _flagSingleWallet s sender now wallet score why = Success (s', events) ->
  let level := _calculateRiskLevel s score in
  now + _calculateFlagDuration level <= UINT256_MAX
  /\ (forall w, flagOf s' w
                = if bool_decide (w = wallet)
                  then {| isFlagged := true; riskLevel := level;
                          reputationScore := score; flaggedAt := now;
                          expiresAt := now + _calculateFlagDuration level;
                          flaggedBy := sender; reason := why |}
                  else flagOf s w)
  /\ allFlaggedWallets s' = allFlaggedWallets s ++ [wallet]
  /\ owner s' = owner s /\ soklinBackend s' = soklinBackend s
  /\ authorizedFlaggers s' = authorizedFlaggers s
  /\ riskLevelThresholds s' = riskLevelThresholds s.
Proof.
  unfold _flagSingleWallet, checked_add. cbv zeta.
  destruct (Z.leb_spec (now + _calculateFlagDuration (_calculateRiskLevel s score))
                       UINT256_MAX) as [Hle | Hgt]; simpl; [| discriminate].
  intros [= <- <-]. split; [exact Hle |]. split; [| by simpl].
  intros w. unfold flagOf. simpl. case_bool_decide as E.
  - subst. by rewrite lookup_insert_eq.
  - by rewrite lookup_insert_ne.
Qed.

Lemma _flagSingleWallet_ok s sender now wallet score why :
  now + 365 * days <= UINT256_MAX ->
  exists s' events, _flagSingleWallet s sender now wallet score why = Success (s', events).
Proof.
  intros H. unfold _flagSingleWallet.
  pose proof (duration_bounds (_calculateRiskLevel s score)).
  rewrite checked_add_Success by lia. simpl. eauto.
Qed.

(** *** The count of active flags *)

Lemma getActiveFlaggedCount_filter s now :
  getActiveFlaggedCount s now
  = Z.of_nat (length (List.filter (_isWalletFlagged s now) (allFlaggedWallets s))).
Proof.
  unfold getActiveFlaggedCount.
  assert (G : forall l n,
             fold_left (fun count wallet =>
                          if _isWalletFlagged s now wallet then count + 1 else count) l n
             = n + Z.of_nat (length (List.filter (_isWalletFlagged s now) l))).
  { induction l as [| w l IH]; intros n; simpl; [lia |].
    rewrite IH. destruct (_isWalletFlagged s now w); simpl; lia. }
  rewrite G. lia.
Qed.

(** *** [cleanupExpiredFlags] and the batch loops *)

Definition expired (s : Storage) (now : Z) (w : address) : bool :=
  isFlagged (flagOf s w) && (expiresAt (flagOf s w) <? now).

Lemma cleanupStep_flagOf sender now acc x w :
  flagOf (cleanupStep sender now acc x).1 w
  = if bool_decide (w = x) && expired acc.1 now w then noFlag else flagOf acc.1 w.
Proof.
  unfold cleanupStep. fold (expired acc.1 now x). cbv zeta.
  case_bool_decide as E; cbn [andb].
  - subst x. destruct (expired acc.1 now w); cbn [fst]; [| reflexivity].
    rewrite flagOf_unflag. by rewrite bool_decide_eq_true_2.
  - destruct (expired acc.1 now x); cbn [fst]; [| reflexivity].
    rewrite flagOf_unflag. by rewrite bool_decide_eq_false_2.
Qed.

Lemma cleanup_fold_flagOf sender now l : forall acc w,
  flagOf (fold_left (cleanupStep sender now) l acc).1 w
  = if bool_decide (w ∈ l) && expired acc.1 now w then noFlag else flagOf acc.1 w.
Proof.
  induction l as [| x l IH]; intros acc w; simpl.
  - reflexivity.
  - rewrite IH. unfold expired at 1. rewrite !cleanupStep_flagOf.
    destruct (decide (w = x)) as [-> | Hne].
    + rewrite (bool_decide_eq_true_2 (x = x)) by done.
      rewrite (bool_decide_eq_true_2 (x ∈ x :: l)) by (apply elem_of_cons; auto). simpl.
      destruct (expired acc.1 now x) eqn:Ex; simpl.
      * by rewrite andb_false_r.
      * fold (expired acc.1 now x). rewrite Ex, andb_false_r. reflexivity.
    + rewrite (bool_decide_eq_false_2 (w = x)) by done. simpl.
      fold (expired acc.1 now w).
      destruct (decide (w ∈ l)) as [Hin | Hnin].
      * rewrite (bool_decide_eq_true_2 (w ∈ l)) by done.
        rewrite (bool_decide_eq_true_2 (w ∈ x :: l)) by (apply elem_of_cons; auto). reflexivity.
      * rewrite (bool_decide_eq_false_2 (w ∈ l)) by done.
        rewrite (bool_decide_eq_false_2 (w ∈ x :: l)) by (rewrite elem_of_cons; tauto). reflexivity.
Qed.

(** The fields a loop over flags leaves alone. *)
Definition same_frame (s s' : Storage) : Prop :=
  owner s' = owner s /\ soklinBackend s' = soklinBackend s
  /\ authorizedFlaggers s' = authorizedFlaggers s
  /\ riskLevelThresholds s' = riskLevelThresholds s.

Lemma same_frame_refl s : same_frame s s.
Proof. by repeat split. Qed.

Lemma same_frame_trans s1 s2 s3 : same_frame s1 s2 -> same_frame s2 s3 -> same_frame s1 s3.
Proof. unfold same_frame. intros (?&?&?&?) (?&?&?&?). repeat split; congruence. Qed.

Lemma cleanup_fold_frame sender now l : forall acc,
  same_frame acc.1 (fold_left (cleanupStep sender now) l acc).1
  /\ allFlaggedWallets (fold_left (cleanupStep sender now) l acc).1
     = allFlaggedWallets acc.1.
Proof.
  induction l as [| x l IH]; intros acc; simpl; [split; [apply same_frame_refl | done] |].
  destruct (IH (cleanupStep sender now acc x)) as [Hf Hl].
  assert (H0 : same_frame acc.1 (cleanupStep sender now acc x).1
               /\ allFlaggedWallets (cleanupStep sender now acc x).1
                  = allFlaggedWallets acc.1).
  { unfold cleanupStep. destruct (_ && _); simpl; split;
      first [apply same_frame_refl | done]. }
  destruct H0 as [Hf0 Hl0]. split; [eapply same_frame_trans; eauto | congruence].
Qed.

Lemma unflag_fold_flagOf sender l : forall acc w,
  flagOf (fold_left (unflagStep sender) l acc).1 w
  = if bool_decide (w ∈ l) && isFlagged (flagOf acc.1 w)
    then noFlag else flagOf acc.1 w.
Proof.
  induction l as [| x l IH]; intros acc w; simpl.
  - reflexivity.
  - rewrite IH.
    assert (Hx : flagOf (unflagStep sender acc x).1 w
                 = if bool_decide (w = x) && isFlagged (flagOf acc.1 w)
                   then noFlag else flagOf acc.1 w).
    { unfold unflagStep. cbv zeta. case_bool_decide as E; cbn [andb].
      - subst x. destruct (isFlagged (flagOf acc.1 w)); cbn [fst]; [| reflexivity].
        rewrite flagOf_unflag. by rewrite bool_decide_eq_true_2.
      - destruct (isFlagged (flagOf acc.1 x)); cbn [fst]; [| reflexivity].
        rewrite flagOf_unflag. by rewrite bool_decide_eq_false_2. }
    rewrite Hx.
    destruct (decide (w = x)) as [-> | Hne].
    + rewrite (bool_decide_eq_true_2 (x = x)) by done.
      rewrite (bool_decide_eq_true_2 (x ∈ x :: l)) by (apply elem_of_cons; auto). simpl.
      destruct (isFlagged (flagOf acc.1 x)) eqn:Ex; simpl.
      * by rewrite andb_false_r.
      * rewrite Ex, andb_false_r. reflexivity.
    + rewrite (bool_decide_eq_false_2 (w = x)) by done. simpl.
      destruct (decide (w ∈ l)) as [Hin | Hnin].
      * rewrite (bool_decide_eq_true_2 (w ∈ l)) by done.
        rewrite (bool_decide_eq_true_2 (w ∈ x :: l)) by (apply elem_of_cons; auto). reflexivity.
      * rewrite (bool_decide_eq_false_2 (w ∈ l)) by done.
        rewrite (bool_decide_eq_false_2 (w ∈ x :: l)) by (rewrite elem_of_cons; tauto). reflexivity.
Qed.

(** *** Every flagged wallet is in the list *)

Definition listed (s : Storage) : Prop :=
  forall w, isFlagged (flagOf s w) = true -> w ∈ allFlaggedWallets s.

Definition grows (s s' : Storage) : Prop :=
  exists more, allFlaggedWallets s' = allFlaggedWallets s ++ more.

Lemma grows_refl s : grows s s.
Proof. exists []. by rewrite app_nil_r. Qed.

Lemma grows_trans s1 s2 s3 : grows s1 s2 -> grows s2 s3 -> grows s1 s3.
Proof.
  intros [m1 H1] [m2 H2]. exists (m1 ++ m2). by rewrite H2, H1, app_assoc.
Qed.

Lemma grows_same s s' : allFlaggedWallets s' = allFlaggedWallets s -> grows s s'.
Proof. intros H. exists []. by rewrite app_nil_r. Qed.

Lemma listed_flagSingle s sender now wallet score why s' events :
  _flagSingleWallet s sender now wallet score why = Success (s', events) ->
  listed s -> listed s' /\ grows s s'.
Proof.
  intros H Hs. apply _flagSingleWallet_Success in H as (_ & Hf & Hl & _).
  split; [| by exists [wallet]].
  intros w. rewrite Hf, Hl, elem_of_app, list_elem_of_singleton.
  case_bool_decide; [auto |]. intros Hw. left. by apply Hs.
Qed.

Lemma listed_batchFlagLoop sender now wallets :
  forall s scores reasons emitted s' events,
    batchFlagLoop s sender now wallets scores reasons emitted = Success (s', events) ->
    listed s -> listed s' /\ grows s s'.
Proof.
  induction wallets as [| wallet wallets IH]; intros s scores reasons emitted s' events.
  - simpl. intros [= <- <-] Hs. split; [exact Hs | apply grows_refl].
  - destruct scores as [| score scores]; [simpl; intros [= <- <-] Hs;
                                           split; [exact Hs | apply grows_refl] |].
    destruct reasons as [| why reasons]; [simpl; intros [= <- <-] Hs;
                                           split; [exact Hs | apply grows_refl] |].
    cbn [batchFlagLoop]. destruct (negb (isFlagged (flagOf s wallet))).
    + intros H Hs. apply bind_Success in H as ([s1 e1] & H1 & H2).
      destruct (listed_flagSingle _ _ _ _ _ _ _ _ H1 Hs) as [Hs1 Hg1].
      destruct (IH _ _ _ _ _ _ H2 Hs1) as [Hs' Hg']. split; [exact Hs' |].
      eapply grows_trans; eauto.
    + apply IH.
Qed.

Lemma listed_exec s sender now c s' events :
  exec s sender now c = Success (s', events) ->
  listed s -> listed s' /\ grows s s'.
Proof.
  destruct c; simpl; intros H Hs.
  - unfold flagWallet in H.
    apply bind_Success in H as (_ & _ & H). apply bind_Success in H as (_ & _ & H).
    apply bind_Success in H as (_ & _ & H). eapply listed_flagSingle; eauto.
  - unfold batchFlagWallets in H.
    apply bind_Success in H as (_ & _ & H). apply bind_Success in H as (_ & _ & H).
    eapply listed_batchFlagLoop; eauto.
  - unfold unflagWallet in H.
    apply bind_Success in H as (_ & _ & H). apply bind_Success in H as (_ & _ & H).
    apply mret_pair in H as [-> _]. split; [| by apply grows_same].
    intros w. rewrite flagOf_unflag. case_bool_decide; [discriminate |]. apply Hs.
  - unfold batchUnflagWallets in H. apply bind_Success in H as (_ & _ & H).
    apply mret_pair in H as [H _].
    assert (Hl : forall l acc,
               allFlaggedWallets (fold_left (unflagStep sender) l acc).1
               = allFlaggedWallets acc.1).
    { induction l as [| x l IH]; intros acc; simpl; [done |]. rewrite IH.
      unfold unflagStep. by destruct (isFlagged _). }
    subst s'. split; [| apply grows_same, Hl].
    intros w. rewrite unflag_fold_flagOf, Hl. cbn [fst].
    destruct (bool_decide _ && _) eqn:E; [discriminate | apply Hs].
  - unfold updateRiskLevel in H.
    apply bind_Success in H as (_ & _ & H). apply bind_Success in H as ([] & Hf & H).
    apply bind_Success in H as (_ & _ & H). apply bind_Success in H as (e & _ & H).
    apply mret_pair in H as [-> _]. split; [| by apply grows_same].
    apply require_Success in Hf.
    intros w. cbn [fst]. rewrite flagOf_setFlag. case_bool_decide as E; [| apply Hs].
    subst. intros _. by apply Hs.
  - apply mret_pair in H as [-> _]. unfold cleanupExpiredFlags.
    destruct (cleanup_fold_frame sender now (allFlaggedWallets s) (s, [])) as [_ Hl].
    split; [| apply grows_same, Hl].
    intros w. rewrite cleanup_fold_flagOf, Hl. cbn [fst].
    destruct (bool_decide _ && _); [discriminate | apply Hs].
  - unfold updateSoklinBackend in H.
    apply bind_Success in H as (_ & _ & H). apply bind_Success in H as (_ & _ & H).
    apply mret_pair in H as [-> _]. split; [exact Hs | by apply grows_same].
  - unfold setFlaggerAuthorization in H. apply bind_Success in H as (_ & _ & H).
    apply mret_pair in H as [-> _]. split; [exact Hs | by apply grows_same].
  - unfold updateRiskThreshold in H.
    apply bind_Success in H as (_ & _ & H). apply bind_Success in H as (_ & _ & H).
    apply bind_Success in H as (_ & _ & H).
    apply mret_pair in H as [-> _]. split; [exact Hs | by apply grows_same].
  - unfold transferOwnership in H.
    apply bind_Success in H as (_ & _ & H). apply bind_Success in H as (_ & _ & H).
    apply mret_pair in H as [-> _]. split; [exact Hs | by apply grows_same].
Qed.

Lemma reachable_listed s : reachable s -> listed s.
Proof.
  induction 1 as [deployer | s sender now c s' events _ IH Hexec].
  - intros w. unfold flagOf, constructor. simpl. rewrite lookup_empty. discriminate.
  - by destruct (listed_exec _ _ _ _ _ _ Hexec IH).
Qed.

Lemma flagWallet_Success s sender now wallet score why s' events :
  flagWallet s sender now wallet score why = Success (s', events) ->
  authorized s sender
  /\ isFlagged (flagOf s wallet) = false
  /\ 0 <= score <= 100
  /\ _flagSingleWallet s sender now wallet score why = Success (s', events).
Proof.
  unfold flagWallet. intros H.
  apply bind_Success in H as ([] & Ha & H). apply bind_Success in H as ([] & Hn & H).
  apply bind_Success in H as ([] & Hv & H).
  apply onlyAuthorized_Success in Ha. apply require_Success in Hn, Hv.
  apply negb_true_iff in Hn. apply andb_true_iff in Hv as [Hv1 Hv2].
  unfold MIN_REPUTATION_SCORE, MAX_REPUTATION_SCORE in *. repeat split; auto; lia.
Qed.

Lemma flagWallet_ok s sender now wallet score why :
  authorized s sender ->
  isFlagged (flagOf s wallet) = false ->
  0 <= score <= 100 ->
  now + 365 * days <= UINT256_MAX ->
  exists s' events, flagWallet s sender now wallet score why = Success (s', events).
Proof.
  intros Ha Hn Hv Ht. unfold flagWallet.
  rewrite (proj2 (onlyAuthorized_Success s sender) Ha). simpl.
  unfold notFlagged. rewrite Hn. simpl.
  unfold validReputationScore, MIN_REPUTATION_SCORE, MAX_REPUTATION_SCORE.
  rewrite (proj2 (Z.leb_le 0 score)), (proj2 (Z.leb_le score 100)) by lia. simpl.
  by apply _flagSingleWallet_ok.
Qed.

Lemma _isWalletFlagged_spec s now w :
  _isWalletFlagged s now w = true
  <-> isFlagged (flagOf s w) = true /\ now <= expiresAt (flagOf s w).
Proof.
  unfold _isWalletFlagged.
  destruct (isFlagged (flagOf s w)); simpl; [| split; [discriminate | intros []; discriminate]].
  destruct (Z.ltb_spec (expiresAt (flagOf s w)) now); split;
    first [discriminate | intros [_ ?]; lia | intros _; split; [done | lia]].
Qed.

(** *** Expired flags *)

(** X25: a flag that has run out no longer shows in [isWalletFlagged], but
    its record still blocks [flagWallet] with the duplicate error; once
    anyone has called [cleanupExpiredFlags] the wallet can be flagged
    again. *)
Theorem expired_flag_blocks_reflagging
    (s : Storage) (sender caller : address) (now : Z) (wallet : address)
    (score : Z) (why : string) :
  reachable s ->
  authorized s sender ->
  isFlagged (flagOf s wallet) = true ->
  expiresAt (flagOf s wallet) < now ->
  0 <= score <= 100 ->
  now + 365 * days <= UINT256_MAX ->
  isWalletFlagged s now wallet = false
  /\ flagWallet s sender now wallet score why
     = Revert "WalletFlagger: wallet already flagged"
  /\ exists s' events,
       flagWallet (cleanupExpiredFlags s caller now).1 sender now wallet score why
       = Success (s', events)
       /\ isWalletFlagged s' now wallet = true.
Proof.
  intros Hreach Hauth Hflag Hexp Hscore Htime. split; [| split].
  - unfold isWalletFlagged, _isWalletFlagged. rewrite Hflag. simpl.
    by rewrite (proj2 (Z.ltb_lt _ _) Hexp).
  - unfold flagWallet. rewrite (proj2 (onlyAuthorized_Success s sender) Hauth). simpl.
    unfold notFlagged. rewrite Hflag. reflexivity.
  - set (s1 := (cleanupExpiredFlags s caller now).1).
    destruct (cleanup_fold_frame caller now (allFlaggedWallets s) (s, []))
      as [(Ho & Hb & Ha & _) _]. fold (cleanupExpiredFlags s caller now) in Ho, Hb, Ha.
    fold s1 in Ho, Hb, Ha. cbn [fst] in Ho, Hb, Ha.
    assert (Hclean : flagOf s1 wallet = noFlag).
    { unfold s1, cleanupExpiredFlags. rewrite cleanup_fold_flagOf. cbn [fst].
      rewrite bool_decide_eq_true_2 by (by apply reachable_listed).
      unfold expired. rewrite Hflag, (proj2 (Z.ltb_lt _ _) Hexp). reflexivity. }
    assert (Hauth1 : authorized s1 sender).
    { unfold authorized, isAuthorizedFlagger in *. rewrite Ho, Hb, Ha. exact Hauth. }
    destruct (flagWallet_ok s1 sender now wallet score why Hauth1) as (s' & events & H);
      [by rewrite Hclean | done | done |].
    exists s', events. split; [exact H |].
    apply flagWallet_Success in H as (_ & _ & _ & H).
    apply _flagSingleWallet_Success in H as (_ & Hf & _).
    apply _isWalletFlagged_spec. rewrite Hf, bool_decide_eq_true_2 by done. simpl.
    pose proof (duration_bounds (_calculateRiskLevel s1 score)). unfold days in *.
    split; [done | lia].
Qed.

(** The deployer flags wallet 7 at time 1000 with score 20. *)
Definition sampleDeployed : Storage := constructor 1.

Definition sampleFlagged : Storage :=
  match flagWallet sampleDeployed 1 1000 7 20 "critical score" with
  | Success r => r.1
  | _ => sampleDeployed
  end.

Lemma sampleFlagged_reachable : reachable sampleFlagged.
Proof.
  eapply (reachable_call sampleDeployed 1 1000
            (CallFlagWallet 7 20 "critical score") sampleFlagged _).
  - apply reachable_deployed.
  - vm_compute. reflexivity.
Qed.

Lemma expired_flag_witness :
  isWalletFlagged sampleFlagged 40000000 7 = false
  /\ flagWallet sampleFlagged 1 40000000 7 20 "again"
     = Revert "WalletFlagger: wallet already flagged"
  /\ exists s' events,
       flagWallet (cleanupExpiredFlags sampleFlagged 9 40000000).1 1 40000000 7 20 "again"
       = Success (s', events)
       /\ isWalletFlagged s' 40000000 7 = true.
Proof.
  apply (expired_flag_blocks_reflagging sampleFlagged 1 9 40000000 7 20 "again").
  - exact sampleFlagged_reachable.
  - left. reflexivity.
  - reflexivity.
  - vm_compute. reflexivity.
  - lia.
  - vm_compute. discriminate.
Defined.

(** *** The wallet list never shrinks *)

(** X26: [unflagWallet] clears the record but leaves the wallet in
    [allFlaggedWallets], and flagging it again appends it once more: after
    flag, unflag, flag the list has gained the wallet twice and
    [getActiveFlaggedCount] counts the one flagged wallet once per entry of
    the list. *)
Theorem reflagged_wallet_is_counted_again
    (s s1 s2 s3 : Storage) (e1 e2 e3 : list Event) (a1 a2 a3 : address)
    (t1 t3 now : Z) (wallet : address) (score1 score3 : Z) (why1 why3 : string) :
  flagWallet s a1 t1 wallet score1 why1 = Success (s1, e1) ->
  unflagWallet s1 a2 wallet = Success (s2, e2) ->
  flagWallet s2 a3 t3 wallet score3 why3 = Success (s3, e3) ->
  isWalletFlagged s3 now wallet = true ->
  getAllFlaggedWallets s3 = getAllFlaggedWallets s ++ [wallet; wallet]
  /\ getActiveFlaggedCount s3 now
     = getActiveFlaggedCount s now + 2
       + Z.of_nat (length (List.filter (fun w => bool_decide (w = wallet))
                                       (getAllFlaggedWallets s))).
Proof.
  intros H1 H2 H3 Hact.
  apply flagWallet_Success in H1 as (_ & Hn & _ & H1).
  apply _flagSingleWallet_Success in H1 as (_ & Hf1 & Hl1 & _).
  unfold unflagWallet in H2.
  apply bind_Success in H2 as (_ & _ & H2). apply bind_Success in H2 as (_ & _ & H2).
  apply mret_pair in H2 as [-> _].
  apply flagWallet_Success in H3 as (_ & _ & _ & H3).
  apply _flagSingleWallet_Success in H3 as (_ & Hf3 & Hl3 & _).
  assert (Hl : allFlaggedWallets s3 = allFlaggedWallets s ++ [wallet; wallet]).
  { rewrite Hl3. simpl. rewrite Hl1, <- app_assoc. reflexivity. }
  split; [exact Hl |].
  assert (Hother : forall w, w <> wallet -> flagOf s3 w = flagOf s w).
  { intros w Hw. rewrite Hf3, bool_decide_eq_false_2 by done.
    rewrite flagOf_unflag, bool_decide_eq_false_2 by done.
    rewrite Hf1, bool_decide_eq_false_2 by done. reflexivity. }
  assert (Hp : forall w, _isWalletFlagged s3 now w
                         = _isWalletFlagged s now w || bool_decide (w = wallet)).
  { intros w. case_bool_decide as E.
    - subst w. rewrite orb_true_r. exact Hact.
    - rewrite orb_false_r. unfold _isWalletFlagged. by rewrite Hother. }
  rewrite !getActiveFlaggedCount_filter, Hl.
  rewrite (ListLemmas.filter_pointwise _ _ _ Hp), List.filter_app, length_app.
  rewrite ListLemmas.length_filter_or.
  - simpl. rewrite !bool_decide_eq_true_2, orb_true_r by done. simpl.
    unfold getAllFlaggedWallets. lia.
  - intros w _ Hw. apply _isWalletFlagged_spec in Hw as [Hw _].
    case_bool_decide as E; [| reflexivity]. subst w. congruence.
Qed.

Definition sampleUnflagged : Storage :=
  match unflagWallet sampleFlagged 1 7 with
  | Success r => r.1
  | _ => sampleFlagged
  end.

Definition sampleReflagged : Storage :=
  match flagWallet sampleUnflagged 1 2000 7 20 "critical again" with
  | Success r => r.1
  | _ => sampleUnflagged
  end.

Lemma reflagged_wallet_witness :
  getAllFlaggedWallets sampleReflagged = [7; 7]
  /\ getActiveFlaggedCount sampleReflagged 3000 = 2.
Proof.
  destruct (reflagged_wallet_is_counted_again
              sampleDeployed sampleFlagged sampleUnflagged sampleReflagged
              [WalletFlagged 7 CRITICAL 20 31537000 1 "critical score"]
              [WalletUnflagged 7 1]
              [WalletFlagged 7 CRITICAL 20 31538000 1 "critical again"]
              1 1 1 1000 2000 3000 7 20 20 "critical score" "critical again")
    as [H1 H2]; try (vm_compute; reflexivity).
  split; [exact H1 | exact H2].
Defined.

(** *** Who may change flags *)

(** X27: a caller with no role makes no flagging call succeed, and the
    owner-only calls fail for everyone but the owner.  The one call open to
    anyone, [cleanupExpiredFlags], leaves every flag that has not run out
    exactly as it was. *)
Theorem unauthorized_caller_is_rejected
    (s : Storage) (sender : address) (now : Z) (c : Call) :
  sender <> owner s ->
  match c with
  | CallCleanupExpiredFlags =>
      exists s' events,
        exec s sender now c = Success (s', events)
        /\ forall w, isWalletFlagged s now w = true -> getWalletFlag s' w = getWalletFlag s w
  | CallUpdateSoklinBackend _ | CallSetFlaggerAuthorization _ _
  | CallUpdateRiskThreshold _ _ | CallTransferOwnership _ =>
      exec s sender now c = Revert "WalletFlagger: caller is not owner"
  | _ =>
      sender <> soklinBackend s -> isAuthorizedFlagger s sender = false ->
      exec s sender now c = Revert "WalletFlagger: not authorized"
  end.
Proof.
  intros Howner.
  assert (Ho : onlyOwner s sender = Revert "WalletFlagger: caller is not owner").
  { unfold onlyOwner. by rewrite bool_decide_eq_false_2. }
  assert (Ha : sender <> soklinBackend s -> isAuthorizedFlagger s sender = false ->
               onlyAuthorized s sender = Revert "WalletFlagger: not authorized").
  { intros Hb Hf. apply onlyAuthorized_Revert. unfold authorized.
    intros [? | [? | ?]]; congruence. }
  destruct c; simpl;
    try (intros Hb Hf;
         unfold flagWallet, batchFlagWallets, unflagWallet, batchUnflagWallets,
           updateRiskLevel;
         rewrite (Ha Hb Hf); reflexivity);
    try (unfold updateSoklinBackend, setFlaggerAuthorization, updateRiskThreshold,
           transferOwnership;
         rewrite Ho; reflexivity).
  exists (cleanupExpiredFlags s sender now).1, (cleanupExpiredFlags s sender now).2.
  split; [by destruct (cleanupExpiredFlags s sender now) |].
  intros w Hw. apply _isWalletFlagged_spec in Hw as [Hf Ht].
  unfold getWalletFlag, cleanupExpiredFlags. rewrite cleanup_fold_flagOf. cbn [fst].
  unfold expired. rewrite Hf, (proj2 (Z.ltb_ge _ _) Ht), andb_false_r. reflexivity.
Qed.

Lemma unauthorized_caller_witness :
  exec sampleFlagged 9 2000 (CallUnflagWallet 7) = Revert "WalletFlagger: not authorized".
Proof.
  apply (unauthorized_caller_is_rejected sampleFlagged 9 2000 (CallUnflagWallet 7));
    vm_compute; congruence.
Defined.

(** *** What a flag records *)

Lemma Qle_bool_inject_Z (a b : Z) : Qle_bool (inject_Z a) (inject_Z b) = (a <=? b).
Proof.
  destruct (Z.leb_spec a b) as [H | H].
  - apply Qle_bool_iff. by rewrite <- Zle_Qle.
  - destruct (Qle_bool _ _) eqn:E; [| reflexivity].
    apply Qle_bool_iff in E. rewrite <- Zle_Qle in E. lia.
Qed.

(** The level the backend derives from an integer score, as the number the
    registry client passes for it. *)
Definition backendLevel (score : Z) : option Z :=
  Registry.riskLevelToContractValue
    (Models.riskLevelValue (Scoring.determineRiskLevel (inject_Z score))).

Lemma backendLevel_deployed s score :
  (forall l, riskLevelThresholds s l = riskLevelThresholds (constructor (owner s)) l) ->
  backendLevel score = Some (levelIndex (_calculateRiskLevel s score)).
Proof.
  intros Ht. unfold backendLevel, _calculateRiskLevel, Scoring.determineRiskLevel.
  rewrite !Ht. simpl riskLevelThresholds.
  change 70%Q with (inject_Z 70). change 50%Q with (inject_Z 50).
  change 30%Q with (inject_Z 30). rewrite !Qle_bool_inject_Z.
  destruct (70 <=? score); [reflexivity |].
  destruct (50 <=? score); [reflexivity |].
  destruct (30 <=? score); reflexivity.
Qed.

(** X28: with the thresholds of deployment, a successful [flagWallet]
    stores the score, the caller, the time and the reason, at the level the
    backend's [determineRiskLevel] gives the same score; the flag runs for
    365, 180, 90 or 30 days by level and [isWalletFlagged] holds exactly
    until it runs out. *)
Theorem flag_records_level_and_expiry
    (s s' : Storage) (events : list Event) (sender : address) (now : Z)
    (wallet : address) (score : Z) (why : string) :
  (forall l, riskLevelThresholds s l = riskLevelThresholds (constructor (owner s)) l) ->
  flagWallet s sender now wallet score why = Success (s', events) ->
  isFlagged (getWalletFlag s' wallet) = true
  /\ reputationScore (getWalletFlag s' wallet) = score
  /\ flaggedAt (getWalletFlag s' wallet) = now
  /\ flaggedBy (getWalletFlag s' wallet) = sender
  /\ reason (getWalletFlag s' wallet) = why
  /\ backendLevel score = Some (levelIndex (riskLevel (getWalletFlag s' wallet)))
  /\ expiresAt (getWalletFlag s' wallet)
     = now + match riskLevel (getWalletFlag s' wallet) with
             | CRITICAL => 365 | HIGH => 180 | MEDIUM => 90 | LOW => 30
             end * 86400
  /\ (forall t, isWalletFlagged s' t wallet = true
                <-> t <= expiresAt (getWalletFlag s' wallet)).
Proof.
  intros Ht H. apply flagWallet_Success in H as (_ & _ & _ & H).
  apply _flagSingleWallet_Success in H as (_ & Hf & _).
  unfold getWalletFlag, isWalletFlagged.
  assert (Hw := Hf wallet). rewrite bool_decide_eq_true_2 in Hw by done.
  rewrite Hw. cbn [isFlagged reputationScore flaggedAt flaggedBy reason riskLevel expiresAt].
  repeat split; try reflexivity.
  - by apply backendLevel_deployed.
  - destruct (_calculateRiskLevel s score); reflexivity.
  - intros Hact. apply _isWalletFlagged_spec in Hact as [_ Hact]. by rewrite Hw in Hact.
  - intros Hle. apply _isWalletFlagged_spec. by rewrite Hw.
Qed.

Lemma flag_records_witness :
  reputationScore (getWalletFlag sampleFlagged 7) = 20
  /\ riskLevel (getWalletFlag sampleFlagged 7) = CRITICAL
  /\ expiresAt (getWalletFlag sampleFlagged 7) = 1000 + 365 * 86400.
Proof.
  destruct (flag_records_level_and_expiry sampleDeployed sampleFlagged
              [WalletFlagged 7 CRITICAL 20 31537000 1 "critical score"]
              1 1000 7 20 "critical score")
    as (_ & H1 & _ & _ & _ & _ & H2 & _).
  - intros l. reflexivity.
  - vm_compute. reflexivity.
  - split; [exact H1 |]. split; [vm_compute; reflexivity | exact H2].
Defined.

(** X29: [batchFlagWallets] does not apply the score check of
    [flagWallet]: a score above 100, which [flagWallet] turns down, is
    stored by the batch call. *)
Theorem batch_flagging_skips_score_check
    (s : Storage) (sender : address) (now : Z) (wallet : address)
    (score : Z) (why : string) :
  authorized s sender ->
  isFlagged (flagOf s wallet) = false ->
  100 < score ->
  now + 365 * days <= UINT256_MAX ->
  flagWallet s sender now wallet score why
  = Revert "WalletFlagger: invalid reputation score"
  /\ exists s' events,
       batchFlagWallets s sender now [wallet] [score] [why] = Success (s', events)
       /\ isFlagged (getWalletFlag s' wallet) = true
       /\ reputationScore (getWalletFlag s' wallet) = score.
Proof.
  intros Ha Hn Hs Ht. split.
  - unfold flagWallet. rewrite (proj2 (onlyAuthorized_Success s sender) Ha). simpl.
    unfold notFlagged. rewrite Hn. simpl.
    unfold validReputationScore, MAX_REPUTATION_SCORE.
    rewrite (proj2 (Z.leb_gt score 100)) by lia. by rewrite andb_false_r.
  - unfold batchFlagWallets. rewrite (proj2 (onlyAuthorized_Success s sender) Ha).
    simpl. rewrite Hn. simpl.
    destruct (_flagSingleWallet_ok s sender now wallet score why Ht) as (s' & ev & H).
    rewrite H. simpl. exists s', ev. split; [reflexivity |].
    apply _flagSingleWallet_Success in H as (_ & Hf & _).
    unfold getWalletFlag. rewrite Hf, bool_decide_eq_true_2 by done. by simpl.
Qed.

Lemma batch_flagging_witness :
  flagWallet sampleDeployed 1 1000 7 1000 "batch"
  = Revert "WalletFlagger: invalid reputation score"
  /\ exists s' events,
       batchFlagWallets sampleDeployed 1 1000 [7] [1000] ["batch"] = Success (s', events)
       /\ isFlagged (getWalletFlag s' 7) = true
       /\ reputationScore (getWalletFlag s' 7) = 1000.
Proof.
  apply (batch_flagging_skips_score_check sampleDeployed 1 1000 7 1000 "batch").
  - left. reflexivity.
  - reflexivity.
  - lia.
  - vm_compute. discriminate.
Defined.

(** X30: in every storage reached from deployment, each wallet that
    [isWalletFlagged] reports is in [getAllFlaggedWallets] and is counted by
    [getActiveFlaggedCount]; no successful call removes an entry from the
    list. *)
Theorem flagged_wallets_are_listed (s : Storage) :
  reachable s ->
  (forall now w, isWalletFlagged s now w = true ->
                 w ∈ getAllFlaggedWallets s /\ 0 < getActiveFlaggedCount s now)
  /\ (forall sender now c s' events,
        exec s sender now c = Success (s', events) ->
        exists more, getAllFlaggedWallets s' = getAllFlaggedWallets s ++ more).
Proof.
  intros Hreach. pose proof (reachable_listed s Hreach) as Hs. split.
  - intros now w Hact.
    assert (Hin : w ∈ allFlaggedWallets s).
    { apply Hs. by apply _isWalletFlagged_spec in Hact as [? _]. }
    split; [exact Hin |].
    rewrite getActiveFlaggedCount_filter.
    assert (Hf : w ∈ List.filter (_isWalletFlagged s now) (allFlaggedWallets s)).
    { apply list_elem_of_In, filter_In. split; [by apply list_elem_of_In | exact Hact]. }
    destruct (List.filter _ _); [by apply elem_of_nil in Hf | simpl; lia].
  - intros sender now c s' events Hexec.
    by destruct (listed_exec _ _ _ _ _ _ Hexec Hs) as [_ Hg].
Qed.

Lemma flagged_wallets_witness :
  7 ∈ getAllFlaggedWallets sampleFlagged /\ 0 < getActiveFlaggedCount sampleFlagged 2000.
Proof.
  destruct (flagged_wallets_are_listed sampleFlagged sampleFlagged_reachable) as [H _].
  apply (H 2000 7). vm_compute. reflexivity.
Defined.

End WalletFlaggerFacts.
(* ===================================================================== *)
(** ** Facts about request validation *)
(* ===================================================================== *)

Module RequestFacts.
Import Codec.

(** The [sessionId] property of a request, as a payload field. *)
Definition sessionField (sessionId : option string) : Hub.field :=
  match sessionId with
  | Some s => Hub.FString s
  | None => Hub.FAbsent
  end.

(** The subscribe payload that carries the properties of a REST request. *)
Definition payloadOf (request : Validators.SubscribeWalletRequest) : Hub.payload :=
  Hub.Fields (Hub.FString (Validators.wallet request))
             (sessionField (Validators.sessionId request)).

Lemma validateWalletRequest_valid request :
  Validators.rv_isValid (Validators.validateWalletRequest request) = true ->
  isValid (isValidEthereumAddress (Validators.wallet request)) = true.
Proof.
  unfold Validators.validateWalletRequest. cbn [Validators.rv_isValid].
  destruct (isValid (isValidEthereumAddress (Validators.wallet request))) eqn:Hv;
    [reflexivity |].
  destruct (isValidEthereumAddress (Validators.wallet request)) as [v errs n] eqn:E.
  cbn [isValid errors] in *. subst v.
  assert (Hne : errs <> []).
  { unfold isValidEthereumAddress in E.
    destruct (String.eqb (Validators.wallet request) ""); [by inversion E |].
    destruct (getAddress (Validators.wallet request)).
    - destruct (matches_0x_hex40 (Validators.wallet request)); inversion E; done.
    - inversion E. by destruct (if matches_0x_hex40 _ then _ else _). }
  destruct errs; [done | discriminate].
Qed.

(** X24: a subscription request that the REST validator accepts is also
    accepted by the socket hub's validator when sent as a subscribe
    payload, and both normalize the wallet to the same spelling; the hub
    keeps a non-empty session id and generates one otherwise. *)
Theorem accepted_requests_pass_hub_validation (gen : Hub.IdGen)
    (request : Validators.SubscribeWalletRequest) :
  Validators.rv_isValid (Validators.validateWalletRequest request) = true ->
  Hub.validateSubscribeData gen (payloadOf request)
  = inr (Validators.wallet
           (Validators.rv_normalized (Validators.validateWalletRequest request)),
         match Validators.sessionId request with
         | Some s => if String.eqb s "" then gen "session" else s
         | None => gen "session"
         end)
  /\ normalized (isValidEthereumAddress (Validators.wallet request))
     = Some (Validators.wallet
               (Validators.rv_normalized (Validators.validateWalletRequest request))).
Proof.
  intros Hvalid. pose proof (validateWalletRequest_valid request Hvalid) as Hv.
  destruct (CodecFacts.valid_address_normalized _ Hv) as (_ & Hm & Hn).
  assert (Hw : Validators.wallet
                 (Validators.rv_normalized (Validators.validateWalletRequest request))
               = getChecksumAddress (Validators.wallet request)).
  { unfold Validators.validateWalletRequest.
    cbn [Validators.rv_normalized Validators.wallet]. rewrite Hn.
    unfold Validators.orElse.
    destruct (AddressFacts.matches_0x_hex40_inv _
                (AddressFacts.matches_getChecksumAddress _ Hm)) as (body & Hb & _).
    destruct (getChecksumAddress (Validators.wallet request)); [discriminate Hb |].
    reflexivity. }
  split; [| by rewrite Hn, Hw].
  unfold Hub.validateSubscribeData, payloadOf, Hub.walletErrors, Hub.normalizedWallet.
  rewrite (AddressFacts.nonempty_of_matches _ Hm), Hv, Hn, Hw. cbn [app default].
  by destruct (Validators.sessionId request).
Qed.

Definition sampleRequest : Validators.SubscribeWalletRequest :=
  {| Validators.wallet := test_wallet_lower;
     Validators.sessionId := Some "test-session-123";
     Validators.includeTransactions := None |}.

Lemma accepted_requests_witness :
  Hub.validateSubscribeData (fun prefix => prefix) (payloadOf sampleRequest)
  = inr (Validators.wallet
           (Validators.rv_normalized (Validators.validateWalletRequest sampleRequest)),
         match Validators.sessionId sampleRequest with
         | Some s => if String.eqb s "" then "session" else s
         | None => "session"
         end)
  /\ normalized (isValidEthereumAddress (Validators.wallet sampleRequest))
     = Some (Validators.wallet
               (Validators.rv_normalized (Validators.validateWalletRequest sampleRequest))).
Proof.
  apply (accepted_requests_pass_hub_validation (fun prefix => prefix) sampleRequest).
  vm_compute. reflexivity.
Defined.

(** The converse fails: the hub accepts a session id that the REST
    validator rejects. *)
Example short_session_id :
  Validators.rv_isValid
    (Validators.validateWalletRequest
       {| Validators.wallet := test_wallet_lower;
          Validators.sessionId := Some "abc";
          Validators.includeTransactions := None |}) = false
  /\ Hub.validateSubscribeData (fun prefix => prefix)
       (Hub.Fields (Hub.FString test_wallet_lower) (Hub.FString "abc"))
     = inr (test_wallet, "abc").
Proof. split; vm_compute; reflexivity. Qed.

End RequestFacts.
